(** * Verification of the evaluation core of opensearch-genai-sdk-ts

    The development embeds [src/evals/protocol.ts] (the score-shape adapter),
    [src/evals/evaluate.ts] (the evaluation orchestrator), [src/score.ts]
    (the score-emission primitive) and [src/decorators.ts] (the tracing
    wrappers) and proves properties of them.

    Modelling conventions.
    - JavaScript values are first-order data: [undefined], [null], booleans,
      numbers (IEEE doubles, Rocq's primitive floats), strings, arrays, plain
      objects, [Error] objects and a pending [Promise].  Function values,
      symbols and accessors are not part of the universe, so no property of
      an object of the universe is callable.
    - A plain object is the ordered list of its own enumerable properties, in
      insertion order (the engine's reordering of integer-like keys is left
      out), and its prototype is [Object.prototype].  The members of
      [Object.prototype] are modelled where the source depends on them:
      [String(obj)] calls the inherited [toString] and yields
      ["[object Object]"], unless the object has an own [toString] property,
      which is not callable, in which case the conversion raises a
      [TypeError]; a read of a missing key on a plain object finds the
      inherited member when the key names one; an assignment to [__proto__]
      replaces the prototype and adds no property.
    - Exceptions are explicit: a computation yields [Normal v] or [Throw e].
      Property access on [undefined]/[null], [in] on a primitive, a call of
      a missing method and a failed conversion to a primitive raise a
      [TypeError], as in the language.
    - The OpenTelemetry API and [console.warn] never raise (the API's
      contract); they act on an abstract [World] and every call is recorded
      in an event trace.  Tasks, scorers and the dataset producer are
      arbitrary functions of their argument and of the [World], and may
      raise any value.
    - [Number::toString] and [StringToNumber] of the engine are parameters
      (class [Engine]); so is [JSON.stringify] for the tracing wrappers,
      which may return a string or [undefined], or raise.
    - A function wrapped for tracing is an arbitrary computation on its
      argument list.  A promise is opaque: what the handlers chained on it
      do is modelled as a function of the outcome it settles with. *)

From Stdlib Require Import String Ascii List Bool Arith Lia ZArith.
From Stdlib Require Import Floats.PrimFloat Numbers.Cyclic.Int63.Uint63.
From Stdlib Require Import Numbers.DecimalString Init.Decimal.
Import ListNotations.
Local Open Scope string_scope.
Local Open Scope list_scope.

(** ** JavaScript values *)

#[local] Set Warnings "-register-all".

Inductive value : Type :=
| VUndefined
| VNull
| VBool (b : bool)
| VNum (n : float)
| VStr (s : string)
| VArr (elems : list value)
| VObj (props : list (string * value))
| VError (ename message : string)
| VPromise.

(** Own enumerable properties of an object, in order. *)
Definition props := list (string * value).

(** Completion of an evaluation: a value or a thrown exception. *)
Inductive Completion (A : Type) : Type :=
| Normal (a : A)
| Throw (e : value).
Arguments Normal {A} a.
Arguments Throw {A} e.

Definition bindC {A B} (c : Completion A) (k : A -> Completion B) : Completion B :=
  match c with
  | Normal a => k a
  | Throw e => Throw e
  end.

Declare Scope completion_scope.
Delimit Scope completion_scope with compl.
Notation "x <-- c ;; k" := (bindC c (fun x => k))
  (at level 61, c at next level, right associativity) : completion_scope.

Definition TypeError (msg : string) : value := VError "TypeError" msg.

(** Run a list of completions in order, up to the first throw. *)
Fixpoint sequenceC {A} (l : list (Completion A)) : Completion (list A) :=
  match l with
  | [] => Normal []
  | c :: rest =>
      (a <-- c ;;
       r <-- sequenceC rest ;;
       Normal (a :: r))%compl
  end.

(** Engine-provided numeric conversions (ECMA-262 [Number::toString] and
    [StringToNumber]). *)
Class Engine : Type := {
  NumberToString : float -> string;
  StringToNumber : string -> float
}.

Definition number_of_nat (n : nat) : float :=
  PrimFloat.of_uint63 (Uint63.of_Z (Z.of_nat n)).

(** Decimal rendering of a non-negative integer (what a template literal
    shows for a loop index). *)
Definition nat_to_string (n : nat) : string :=
  NilEmpty.string_of_uint (Nat.to_uint n).

(** *** Association lists used as objects *)

Fixpoint prop_lookup {A} (k : string) (ps : list (string * A)) : option A :=
  match ps with
  | [] => None
  | (k', v) :: rest => if String.eqb k k' then Some v else prop_lookup k rest
  end.

Definition has_key {A} (k : string) (ps : list (string * A)) : bool :=
  match prop_lookup k ps with Some _ => true | None => false end.

(** [obj[k] = v]: overwrite in place, or append a new property. *)
Fixpoint set_prop {A} (k : string) (v : A) (ps : list (string * A)) : list (string * A) :=
  match ps with
  | [] => [(k, v)]
  | (k', v') :: rest =>
      if String.eqb k k' then (k', v) :: rest else (k', v') :: set_prop k v rest
  end.

Definition keys {A} (ps : list (string * A)) : list string := map fst ps.

(** The names of the members of [Object.prototype]: its methods and the
    accessor [__proto__]. *)
Definition Object_prototype_members : list string :=
  ["constructor"; "__defineGetter__"; "__defineSetter__"; "hasOwnProperty";
   "__lookupGetter__"; "__lookupSetter__"; "isPrototypeOf";
   "propertyIsEnumerable"; "toString"; "valueOf"; "__proto__"; "toLocaleString"].

(** [obj[k] = v] on a plain object: the inherited setter [__proto__] takes
    the value and no property is added, unless the object has an own
    property of that name; any other key is overwritten or appended. *)
Definition js_assign {A} (k : string) (v : A) (ps : list (string * A))
    : list (string * A) :=
  if String.eqb k "__proto__" && negb (has_key k ps) then ps
  else set_prop k v ps.

(** *** Operators and built-ins *)

Definition typeof (v : value) : string :=
  match v with
  | VUndefined => "undefined"
  | VNull => "object"
  | VBool _ => "boolean"
  | VNum _ => "number"
  | VStr _ => "string"
  | VArr _ | VObj _ | VError _ _ | VPromise => "object"
  end.

Definition is_undefined (v : value) : bool :=
  match v with VUndefined => true | _ => false end.

Definition is_null (v : value) : bool :=
  match v with VNull => true | _ => false end.

Definition isArray (v : value) : bool :=
  match v with VArr _ => true | _ => false end.

Definition is_Promise (v : value) : bool :=
  match v with VPromise => true | _ => false end.

(** [a ?? b] *)
Definition nullish (a b : value) : value :=
  match a with
  | VUndefined | VNull => b
  | _ => a
  end.

(** [Error.prototype.toString] *)
Definition error_to_string (ename message : string) : string :=
  if String.eqb ename "" then message
  else if String.eqb message "" then ename
  else ename ++ ": " ++ message.

(** The exception of a failed conversion of an object to a primitive. *)
Definition cannot_convert : value :=
  TypeError "Cannot convert object to primitive value".

Section WithEngine.
Context {engine : Engine}.
Local Open Scope completion_scope.

(** [String(v)].  An array joins the renderings of its elements; a plain
    object is rendered by the inherited [toString], which an own property
    [toString] hides: then neither it nor the inherited [valueOf] yields a
    primitive, and the conversion raises. *)
Fixpoint ToString (v : value) : Completion string :=
  match v with
  | VUndefined => Normal "undefined"
  | VNull => Normal "null"
  | VBool true => Normal "true"
  | VBool false => Normal "false"
  | VNum n => Normal (NumberToString n)
  | VStr s => Normal s
  | VArr elems =>
      parts <-- sequenceC
                  (map (fun e => match e with
                                 | VUndefined | VNull => Normal ""
                                 | _ => ToString e
                                 end) elems) ;;
      Normal (String.concat "," parts)
  | VObj ps =>
      if has_key "toString" ps then Throw cannot_convert
      else Normal "[object Object]"
  | VError ename message => Normal (error_to_string ename message)
  | VPromise => Normal "[object Promise]"
  end.

(** [ToPrimitive]: an object becomes its string rendering (its [valueOf]
    does not yield a primitive), or the conversion raises. *)
Definition ToPrimitive (v : value) : Completion value :=
  match v with
  | VArr _ | VObj _ | VError _ _ | VPromise =>
      s <-- ToString v ;;
      Normal (VStr s)
  | _ => Normal v
  end.

Definition ToNumber (v : value) : Completion float :=
  p <-- ToPrimitive v ;;
  Normal match p with
         | VUndefined => PrimFloat.nan
         | VNull => PrimFloat.zero
         | VBool true => PrimFloat.one
         | VBool false => PrimFloat.zero
         | VNum n => n
         | VStr s => StringToNumber s
         | _ => PrimFloat.nan
         end.

(** [a + b] *)
Definition js_add (a b : value) : Completion value :=
  pa <-- ToPrimitive a ;;
  pb <-- ToPrimitive b ;;
  match pa, pb with
  | VStr s, _ =>
      sb <-- ToString pb ;;
      Normal (VStr (s ++ sb))
  | _, VStr s =>
      sa <-- ToString pa ;;
      Normal (VStr (sa ++ s))
  | _, _ =>
      na <-- ToNumber pa ;;
      nb <-- ToNumber pb ;;
      Normal (VNum (PrimFloat.add na nb))
  end.

(** [a / b] *)
Definition js_div (a b : value) : Completion float :=
  na <-- ToNumber a ;;
  nb <-- ToNumber b ;;
  Normal (PrimFloat.div na nb).

End WithEngine.

(** Truthiness, as tested by [if (x)]. *)
Definition ToBoolean (v : value) : bool :=
  match v with
  | VUndefined | VNull => false
  | VBool b => b
  | VNum n => negb (PrimFloat.is_zero n || PrimFloat.is_nan n)
  | VStr s => negb (String.eqb s "")
  | VArr _ | VObj _ | VError _ _ | VPromise => true
  end.

(** Index named by a canonical numeric string, below [bound]. *)
Definition array_index (k : string) (bound : nat) : option nat :=
  find (fun n => String.eqb (nat_to_string n) k) (seq 0 bound).

(** Property read on an object known to be a plain object. *)
Definition obj_get (ps : props) (k : string) : value :=
  match prop_lookup k ps with Some x => x | None => VUndefined end.

Definition nullish_name (v : value) : string :=
  match v with VNull => "null" | _ => "undefined" end.

(** [v.k] / [v[k]], for a key [k] that names no member of a built-in
    prototype other than [length], and [name] and [message] of an
    [Error]. *)
Definition js_get (v : value) (k : string) : Completion value :=
  match v with
  | VUndefined | VNull =>
      Throw (TypeError ("Cannot read properties of " ++ nullish_name v
                        ++ " (reading '" ++ k ++ "')"))
  | VObj ps =>
      Normal (obj_get ps k)
  | VArr elems =>
      if String.eqb k "length" then Normal (VNum (number_of_nat (List.length elems)))
      else match array_index k (List.length elems) with
           | Some n => Normal (nth n elems VUndefined)
           | None => Normal VUndefined
           end
  | VStr s =>
      if String.eqb k "length" then Normal (VNum (number_of_nat (String.length s)))
      else match array_index k (String.length s) with
           | Some n => Normal (VStr (String.substring n 1 s))
           | None => Normal VUndefined
           end
  | VError ename message =>
      if String.eqb k "name" then Normal (VStr ename)
      else if String.eqb k "message" then Normal (VStr message)
      else Normal VUndefined
  | VBool _ | VNum _ | VPromise => Normal VUndefined
  end.

(** [k in v] *)
Definition js_in (k : string) (v : value) : Completion bool :=
  match v with
  | VObj ps => Normal (has_key k ps)
  | VArr elems =>
      Normal (String.eqb k "length"
              || match array_index k (List.length elems) with
                 | Some _ => true
                 | None => false
                 end)
  | VError _ _ => Normal (String.eqb k "name" || String.eqb k "message")
  | VPromise => Normal false
  | VUndefined | VNull | VBool _ | VNum _ | VStr _ =>
      Throw (TypeError ("Cannot use 'in' operator to search for '" ++ k ++ "'"))
  end.

(** [v.slice(0, n)]: defined on strings and arrays; any other receiver has
    no callable [slice]. *)
Definition js_slice0 (v : value) (n : nat) : Completion value :=
  match v with
  | VStr s => Normal (VStr (String.substring 0 n s))
  | VArr elems => Normal (VArr (firstn n elems))
  | VUndefined | VNull =>
      Throw (TypeError ("Cannot read properties of " ++ nullish_name v
                        ++ " (reading 'slice')"))
  | _ => Throw (TypeError "slice is not a function")
  end.

(** [Object.entries(v)] for an object value: the own enumerable properties
    (an [Error] or a [Promise] has none). *)
Definition Object_entries (v : value) : props :=
  match v with
  | VObj ps => ps
  | VArr elems => combine (map nat_to_string (seq 0 (List.length elems))) elems
  | _ => []
  end.

(** [Object.fromEntries(l)] *)
Definition Object_fromEntries (l : props) : props :=
  fold_left (fun acc kv => set_prop (fst kv) (snd kv) acc) l [].

(** [l.includes(k)] on a list of strings. *)
Definition includes (l : list string) (k : string) : bool :=
  existsb (String.eqb k) l.

(** Length of a string or array value; [None] for any other value. *)
Definition js_length (v : value) : option nat :=
  match v with
  | VStr s => Some (String.length s)
  | VArr elems => Some (List.length elems)
  | _ => None
  end.

(** ** [protocol.ts]: the score-shape adapter *)

Module Protocol.
Local Open Scope completion_scope.

Definition isScore (v : value) : Completion bool :=
  if negb (String.eqb (typeof v) "object") || is_null v then Normal false
  else
    nm <-- js_get v "name" ;;
    if String.eqb (typeof nm) "string" then
      hv <-- js_in "value" v ;;
      if hv then Normal true else js_in "label" v
    else Normal false.

Definition isAutoEvalsResult (v : value) : Completion bool :=
  if negb (String.eqb (typeof v) "object") || is_null v then Normal false
  else
    hs <-- js_in "score" v ;;
    if hs then
      sc <-- js_get v "score" ;;
      Normal (String.eqb (typeof sc) "number")
    else Normal false.

Definition isPhoenixEvalsResult (v : value) : Completion bool :=
  if negb (String.eqb (typeof v) "object") || is_null v then Normal false
  else
    lb <-- js_get v "label" ;;
    if String.eqb (typeof lb) "string" then
      ex <-- js_get v "explanation" ;;
      Normal (String.eqb (typeof ex) "string")
    else Normal false.

Definition consumed_fields : list string :=
  ["value"; "score"; "label"; "rationale"; "explanation"].

Section WithEngine.
Context {engine : Engine}.

(** The object built by the last rule, [raw] being [String(result)]. *)
Definition fallbackScore (scorerName : string) (raw : string) : value :=
  VObj [("name", VStr scorerName);
        ("metadata", VObj [("raw", VStr raw)])].

Definition adaptScore (scorerName : string) (result : value) : Completion value :=
  s1 <-- isScore result ;;
  if s1 then Normal result else
  s2 <-- isAutoEvalsResult result ;;
  if s2 then
    score <-- js_get result "score" ;;
    choice <-- js_get result "choice" ;;
    label <-- js_get result "label" ;;
    rationale <-- js_get result "rationale" ;;
    metadata <-- js_get result "metadata" ;;
    Normal (VObj [("name", VStr scorerName);
                  ("value", score);
                  ("label", nullish choice label);
                  ("rationale", rationale);
                  ("metadata", nullish metadata (VObj []))])
  else
  s3 <-- isPhoenixEvalsResult result ;;
  if s3 then
    score <-- js_get result "score" ;;
    label <-- js_get result "label" ;;
    explanation <-- js_get result "explanation" ;;
    Normal (VObj [("name", VStr scorerName);
                  ("value", score);
                  ("label", label);
                  ("rationale", explanation)])
  else
  if String.eqb (typeof result) "number" then
    Normal (VObj [("name", VStr scorerName); ("value", result)])
  else
  if String.eqb (typeof result) "object" && negb (is_null result)
     && negb (isArray result) then
    value <-- js_get result "value" ;;
    score <-- js_get result "score" ;;
    label <-- js_get result "label" ;;
    rationale <-- js_get result "rationale" ;;
    explanation <-- js_get result "explanation" ;;
    Normal (VObj [("name", VStr scorerName);
                  ("value", nullish value score);
                  ("label", label);
                  ("rationale", nullish rationale explanation);
                  ("metadata",
                   VObj (Object_fromEntries
                           (filter (fun kv => negb (includes consumed_fields (fst kv)))
                                   (Object_entries result))))])
  else
  raw <-- ToString result ;;
  Normal (fallbackScore scorerName raw).

End WithEngine.
End Protocol.

(** A reference engine, exact on the integers 0..99, used to run examples. *)
Definition example_NumberToString (f : float) : string :=
  match find (fun n => PrimFloat.eqb (number_of_nat n) f) (seq 0 100) with
  | Some n => nat_to_string n
  | None => "NaN"
  end.

Definition example_StringToNumber (s : string) : float :=
  match find (fun n => String.eqb (nat_to_string n) s) (seq 0 100) with
  | Some n => number_of_nat n
  | None => PrimFloat.nan
  end.

Definition example_engine : Engine :=
  {| NumberToString := example_NumberToString;
     StringToNumber := example_StringToNumber |}.


(** ** Data exchanged with the collaborators *)

(** Argument of [Scorer.score]; [expected] is [undefined] when the datum has
    no expected value. *)
Record ScorerArgs : Type := {
  arg_input : string;
  arg_output : string;
  arg_expected : option string
}.

(** [ScoreOptions] of [score.ts].  The fields that [evaluate] fills from an
    adapted Score ([value], [label], [rationale]) hold whatever value the
    Score holds at run time. *)
Record ScoreOptions : Type := {
  so_name : string;
  so_value : value;
  so_traceId : option string;
  so_spanId : option string;
  so_label : value;
  so_dataType : option string;
  so_source : option string;
  so_comment : option string;
  so_rationale : value;
  so_metadata : option props;
  so_project : option string
}.

Definition EvalDatum : Type := props.

Record EvalResult : Type := {
  input : value;
  output : option value;
  expected : value;
  scores : props;
  error : option string
}.

Record EvalSummary : Type := {
  name : string;
  results : list EvalResult;
  averages : list (string * float);
  total : nat;
  errors : nat
}.

(** ** Effects: the world, the event trace and exceptions *)

Section Runtime.
Context {World Span : Type}.

(** Every interaction of a run with its environment, in order.  [EvTask],
    [EvScorer] and [EvSubmit] carry the index of the dataset item on whose
    behalf the call is made; [EvSubmit] also holds the events that took place
    during the call of the score-emission primitive. *)
Inductive Event : Type :=
| EvStartSpan (tracer spanName : string) (attributes : props) (span : Span)
| EvSetAttribute (span : Span) (key : string) (v : value)
| EvSetStatus (span : Span) (message : string)
| EvRecordException (span : Span) (err : value)
| EvSpanEnd (span : Span)
| EvWarn (msg : string)
| EvTask (item : nat) (inputVal : value) (outcome : Completion value)
| EvScorer (item : nat) (scorer : string) (args : ScorerArgs)
    (outcome : Completion value)
| EvSubmit (item : nat) (options : ScoreOptions) (outcome : Completion unit)
    (during : list Event).

(** The ambient services: the OpenTelemetry API, the console and the process
    environment.  None of them raises. *)
Record Host : Type := {
  startSpan : string -> string -> props -> World -> Span * World;
  setAttribute : Span -> string -> value -> World -> World;
  setStatus : Span -> string -> World -> World;
  recordException : Span -> value -> World -> World;
  spanEnd : Span -> World -> World;
  spanContext : Span -> World -> (string * string) * World;
  console_warn : string -> World -> World;
  env_OPENSEARCH_PROJECT : World -> option string
}.

(** A computation reads and updates the world, appends to the trace and
    completes normally or by a throw. *)
Definition M (A : Type) : Type := World -> Completion A * World * list Event.

Definition ret {A} (a : A) : M A := fun w => (Normal a, w, []).

Definition bind {A B} (c : M A) (k : A -> M B) : M B :=
  fun w =>
    match c w with
    | (Normal a, w1, t1) =>
        match k a w1 with
        | (r, w2, t2) => (r, w2, t1 ++ t2)
        end
    | (Throw e, w1, t1) => (Throw e, w1, t1)
    end.

Definition lift {A} (c : Completion A) : M A := fun w => (c, w, []).

(** [try { body } catch (err) { handler(err) }] *)
Definition try_catch {A} (body : M A) (handler : value -> M A) : M A :=
  fun w =>
    match body w with
    | (Normal a, w1, t1) => (Normal a, w1, t1)
    | (Throw e, w1, t1) =>
        match handler e w1 with
        | (r, w2, t2) => (r, w2, t1 ++ t2)
        end
    end.

(** Run [body] and hand back its completion instead of propagating it. *)
Definition attempt {A} (body : M A) : M (Completion A) :=
  fun w =>
    match body w with
    | (r, w1, t1) => (Normal r, w1, t1)
    end.

End Runtime.

Arguments Event : clear implicits.
Arguments Host : clear implicits.
Arguments M : clear implicits.

Declare Scope eff_scope.
Delimit Scope eff_scope with eff.
Notation "x <- c ;; k" := (bind c (fun x => k))
  (at level 61, c at next level, right associativity) : eff_scope.
Notation "' pat <- c ;; k" := (bind c (fun x => match x with pat => k end))
  (at level 61, pat pattern, c at next level, right associativity) : eff_scope.
Notation "c ;; k" := (bind c (fun _ => k))
  (at level 61, right associativity) : eff_scope.

Section Actions.
Context {engine : Engine} {World Span : Type}.
Variable host : Host World Span.
Local Open Scope eff_scope.

(** [for (const x of l) { body(x) }] *)
Fixpoint for_each {A} (body : A -> M World Span unit) (l : list A) : M World Span unit :=
  match l with
  | [] => ret tt
  | x :: rest => body x ;; for_each body rest
  end.

(** [tracer.startActiveSpan(name, { attributes }, fn)]: starts a span and
    runs [fn] on it, passing on its result or exception. *)
Definition startActiveSpan {A} (tracer spanName : string) (attributes : props)
    (fn : Span -> M World Span A) : M World Span A :=
  fun w =>
    match startSpan host tracer spanName attributes w with
    | (span, w1) =>
        match fn span w1 with
        | (r, w2, t) => (r, w2, EvStartSpan tracer spanName attributes span :: t)
        end
    end.

Definition span_setAttribute (span : Span) (key : string) (v : value) : M World Span unit :=
  fun w => (Normal tt, setAttribute host span key v w, [EvSetAttribute span key v]).

Definition span_setStatus (span : Span) (message : string) : M World Span unit :=
  fun w => (Normal tt, setStatus host span message w, [EvSetStatus span message]).

Definition span_recordException (span : Span) (err : value) : M World Span unit :=
  fun w => (Normal tt, recordException host span err w, [EvRecordException span err]).

Definition span_end (span : Span) : M World Span unit :=
  fun w => (Normal tt, spanEnd host span w, [EvSpanEnd span]).

Definition span_spanContext (span : Span) : M World Span (string * string) :=
  fun w => match spanContext host span w with (ctx, w1) => (Normal ctx, w1, []) end.

Definition warn (msg : string) : M World Span unit :=
  fun w => (Normal tt, console_warn host msg w, [EvWarn msg]).

Definition read_env_project : M World Span (option string) :=
  fun w => (Normal (env_OPENSEARCH_PROJECT host w), w, []).

End Actions.

(** ** [score.ts]: the score-emission primitive *)

Module Score.
Section Score.
Context {engine : Engine} {World Span : Type}.
Variable host : Host World Span.
Local Open Scope eff_scope.

Definition TRACER_NAME : string := "opensearch-genai-sdk-scores".

Definition default_to (d : string) (o : option string) : string :=
  match o with Some s => s | None => d end.

(** [if (s) attrs[key] = s] for an optional string. *)
Definition set_if_truthy (key : string) (o : option string) (attrs : props) : props :=
  match o with
  | Some s => if ToBoolean (VStr s) then set_prop key (VStr s) attrs else attrs
  | None => attrs
  end.

(** [for (const [k, v] of entries) attrs[`score.metadata.${k}`] = String(v)] *)
Fixpoint metadata_attributes (entries : props) (attrs : props) : Completion props :=
  match entries with
  | [] => Normal attrs
  | (k, v) :: rest =>
      (text <-- ToString v ;;
       metadata_attributes rest (set_prop ("score.metadata." ++ k) (VStr text) attrs))%compl
  end.

Definition score (options : ScoreOptions) : M World Span unit :=
  let name := so_name options in
  let value := so_value options in
  let label := so_label options in
  let dataType := default_to "NUMERIC" (so_dataType options) in
  let source := default_to "sdk" (so_source options) in
  let rationale := so_rationale options in
  env <- read_env_project host ;;
  let project :=
    match so_project options with
    | Some p => p
    | None => default_to "default" env
    end in
  let attrs : props :=
    [("opensearch.score", VBool true);
     ("score.name", VStr name);
     ("score.data_type", VStr dataType);
     ("score.source", VStr source);
     ("score.project", VStr project)] in
  let attrs := if negb (is_undefined value) then set_prop "score.value" value attrs
               else attrs in
  let attrs := set_if_truthy "score.trace_id" (so_traceId options) attrs in
  let attrs := set_if_truthy "score.span_id" (so_spanId options) attrs in
  let attrs := if ToBoolean label then set_prop "score.label" label attrs else attrs in
  let attrs := set_if_truthy "score.comment" (so_comment options) attrs in
  attrs <- (if ToBoolean rationale then
              sliced <- lift (js_slice0 rationale 500) ;;
              ret (set_prop "score.rationale" sliced attrs)
            else ret attrs) ;;
  attrs <- (match so_metadata options with
            | Some metadata => lift (metadata_attributes (Object_entries (VObj metadata)) attrs)
            | None => ret attrs
            end) ;;
  startActiveSpan host TRACER_NAME ("score." ++ name) attrs
    (fun span => span_end host span).

End Score.
End Score.

(** ** [evaluate.ts]: the evaluation orchestrator *)

Module Evaluate.
Section Evaluate.
Context {engine : Engine} {World Span : Type}.
Variable host : Host World Span.
Local Open Scope eff_scope.

(** A scorer: a name and a [score] operation that may raise. *)
Record Scorer : Type := {
  scorer_name : string;
  scorer_score : ScorerArgs -> World -> Completion value * World
}.

(** [data]: the dataset itself or a zero-argument producer of it. *)
Inductive DataSource : Type :=
| Direct (dataset : list EvalDatum)
| Producer (produce : World -> Completion (list EvalDatum) * World).

Record EvaluateOptions : Type := {
  opt_name : string;
  opt_data : DataSource;
  opt_task : value -> World -> Completion value * World;
  opt_scores : list Scorer;
  opt_emitScores : option bool
}.

Definition TRACER_NAME : string := "opensearch-genai-sdk-evals".

Definition formatTraceId (traceId : string) : string := traceId.
Definition formatSpanId (spanId : string) : string := spanId.

(** The imported [score] of [score.ts], under its local name. *)
Variable submitScore : ScoreOptions -> M World Span unit.

(** Calls to the caller's functions and to [submitScore], recorded in the
    trace with the item they serve. *)
Definition call_task (task : value -> World -> Completion value * World)
    (i : nat) (inputVal : value) : M World Span value :=
  fun w => match task inputVal w with
           | (r, w1) => (r, w1, [EvTask i inputVal r])
           end.

Definition call_scorer (scorer : Scorer) (i : nat) (args : ScorerArgs)
    : M World Span value :=
  fun w => match scorer_score scorer args w with
           | (r, w1) => (r, w1, [EvScorer i (scorer_name scorer) args r])
           end.

Definition call_submitScore (i : nat) (options : ScoreOptions) : M World Span unit :=
  fun w => match submitScore options w with
           | (r, w1, t) => (r, w1, [EvSubmit i options r t])
           end.

Definition with_output (r : EvalResult) (out : value) : EvalResult :=
  {| input := input r; output := Some out; expected := expected r;
     scores := scores r; error := error r |}.

Definition with_error (r : EvalResult) (msg : string) : EvalResult :=
  {| input := input r; output := output r; expected := expected r;
     scores := scores r; error := Some msg |}.

Definition with_scores (r : EvalResult) (s : props) : EvalResult :=
  {| input := input r; output := output r; expected := expected r;
     scores := s; error := error r |}.

Definition async_warning : string :=
  "[opensearch-genai-sdk] Async task detected in sync evaluate(). "
  ++ "The promise will not be awaited. Use sync tasks or implement evaluateAsync().".

(** The [catch] block of the task span: record the error text, count the
    error, mark the span.  Yields the updated [evalResult] and
    [summary.errors]. *)
Definition task_failed (taskSpan : Span) (evalResult : EvalResult) (errs : nat)
    (err : value) : M World Span (EvalResult * nat) :=
  text <- lift (ToString err) ;;
  let evalResult := with_error evalResult text in
  let errs := S errs in
  message <- lift (ToString err) ;;
  span_setStatus host taskSpan message ;;
  span_recordException host taskSpan err ;;
  ret (evalResult, errs).

(** The [eval_task] span.  Yields the locals [output] and [taskFailed] with
    the updated [evalResult] and [summary.errors].  The [try] block is split
    after the assignment [evalResult.output = output], which a throw of the
    statement that follows it does not undo: the handler then sees the
    result with its output. *)
Definition eval_task (task : value -> World -> Completion value * World)
    (i : nat) (inputVal : value) (evalResult : EvalResult) (errs : nat)
    : M World Span (value * bool * EvalResult * nat) :=
  startActiveSpan host TRACER_NAME "eval_task" [] (fun taskSpan =>
    called <- attempt
                (result <- call_task task i inputVal ;;
                 (if is_Promise result then warn host async_warning else ret tt) ;;
                 ret result) ;;
    r <- match called with
         | Normal output =>
             let evalResult := with_output evalResult output in
             try_catch
               (text <- lift (ToString output) ;;
                span_setAttribute host taskSpan "eval.task.output"
                  (VStr (String.substring 0 1000 text)) ;;
                ret (output, false, evalResult, errs))
               (fun err =>
                '(evalResult, errs) <- task_failed taskSpan evalResult errs err ;;
                ret (output, true, evalResult, errs))
         | Throw err =>
             '(evalResult, errs) <- task_failed taskSpan evalResult errs err ;;
             ret (VUndefined, true, evalResult, errs)
         end ;;
    span_end host taskSpan ;;
    ret r).

(** The warning of a failed scorer, [text] being the rendering of the
    exception in the template literal. *)
Definition scorer_failed_warning (scorerName : string) (i : nat) (text : string) : string :=
  "[opensearch-genai-sdk] Scorer " ++ scorerName ++ " failed on item "
  ++ nat_to_string i ++ ": " ++ text.

(** The [catch] block of a scorer span. *)
Definition scorer_failed (scoreSpan : Span) (scorerName : string) (i : nat)
    (err : value) : M World Span unit :=
  text <- lift (ToString err) ;;
  warn host (scorer_failed_warning scorerName i text) ;;
  message <- lift (ToString err) ;;
  span_setStatus host scoreSpan message ;;
  span_recordException host scoreSpan err.

(** The span attributes set after a Score has been recorded. *)
Definition score_attributes (scoreSpan : Span) (scoreObj : value) : M World Span unit :=
  v <- lift (js_get scoreObj "value") ;;
  (if negb (is_undefined v) then span_setAttribute host scoreSpan "eval.score.value" v
   else ret tt) ;;
  label <- lift (js_get scoreObj "label") ;;
  (if ToBoolean label then span_setAttribute host scoreSpan "eval.score.label" label
   else ret tt) ;;
  rationale <- lift (js_get scoreObj "rationale") ;;
  (if ToBoolean rationale then
     sliced <- lift (js_slice0 rationale 500) ;;
     span_setAttribute host scoreSpan "eval.score.rationale" sliced
   else ret tt).

(** The statements of the [try] block of a scorer span up to the
    assignment [evalResult.scores[scorerName] = scoreObj]: the argument is
    built, the scorer is invoked and its result is adapted. *)
Definition invoke_scorer (i : nat) (inputVal output expectedVal : value)
    (scorer : Scorer) : M World Span value :=
  input <- lift (ToString inputVal) ;;
  output <- lift (ToString output) ;;
  expected <- (if negb (is_undefined expectedVal)
               then text <- lift (ToString expectedVal) ;; ret (Some text)
               else ret None) ;;
  rawResult <- call_scorer scorer i
    {| arg_input := input; arg_output := output; arg_expected := expected |} ;;
  lift (Protocol.adaptScore (scorer_name scorer) rawResult).

(** One scorer span.  [scores] is [evalResult.scores]; the [try] block is
    split at the assignment [evalResult.scores[scorerName] = scoreObj],
    which a later throw inside the block does not undo. *)
Definition eval_score (i : nat) (inputVal output expectedVal : value)
    (scorer : Scorer) (scores : props) : M World Span props :=
  let scorerName := scorer_name scorer in
  startActiveSpan host TRACER_NAME ("eval_score." ++ scorerName)
    [("eval.scorer.name", VStr scorerName)] (fun scoreSpan =>
    adapted <- attempt (invoke_scorer i inputVal output expectedVal scorer) ;;
    scores' <- match adapted with
               | Normal scoreObj =>
                   let scores := js_assign scorerName scoreObj scores in
                   try_catch (score_attributes scoreSpan scoreObj)
                             (scorer_failed scoreSpan scorerName i) ;;
                   ret scores
               | Throw err =>
                   scorer_failed scoreSpan scorerName i err ;;
                   ret scores
               end ;;
    span_end host scoreSpan ;;
    ret scores').

(** [for (const scorer of scorers) { ... }] *)
Fixpoint eval_scorers (i : nat) (inputVal output expectedVal : value)
    (scorers : list Scorer) (scores : props) : M World Span props :=
  match scorers with
  | [] => ret scores
  | scorer :: rest =>
      scores' <- eval_score i inputVal output expectedVal scorer scores ;;
      eval_scorers i inputVal output expectedVal rest scores'
  end.

Definition emit_failed_warning (scorerName : string) (text : string) : string :=
  "[opensearch-genai-sdk] Failed to emit score " ++ scorerName ++ ": " ++ text.

(** One iteration of the emission loop: [try { submitScore({...}) } catch]. *)
Definition emit_score (name : string) (i : nat) (traceIdHex spanIdHex : string)
    (entry : string * value) : M World Span unit :=
  let scorerName := fst entry in
  let scoreObj := snd entry in
  try_catch
    (v <- lift (js_get scoreObj "value") ;;
     label <- lift (js_get scoreObj "label") ;;
     rationale <- lift (js_get scoreObj "rationale") ;;
     call_submitScore i
       {| so_name := scorerName;
          so_value := v;
          so_traceId := Some traceIdHex;
          so_spanId := Some spanIdHex;
          so_label := label;
          so_dataType := None;
          so_source := Some "eval";
          so_comment := None;
          so_rationale := rationale;
          so_metadata := Some [("eval_name", VStr name);
                               ("item_index", VNum (number_of_nat i))];
          so_project := None |})
    (fun err =>
     text <- lift (ToString err) ;;
     warn host (emit_failed_warning scorerName text)).

(** The [emitScores] block of an item. *)
Definition emit_scores (name : string) (i : nat) (itemSpan : Span) (scores : props)
    : M World Span unit :=
  spanContext <- span_spanContext host itemSpan ;;
  let traceIdHex := formatTraceId (fst spanContext) in
  let spanIdHex := formatSpanId (snd spanContext) in
  for_each (emit_score name i traceIdHex spanIdHex) (Object_entries (VObj scores)).

(** The body of the loop over the dataset, for the item at index [i].  The
    attributes of the item span are computed before the span is started. *)
Definition eval_item (name : string)
    (task : value -> World -> Completion value * World)
    (scorers : list Scorer) (emitScores : bool)
    (i : nat) (datum : EvalDatum) (errs : nat) : M World Span (EvalResult * nat) :=
  let inputVal := obj_get datum "input" in
  let expectedVal := obj_get datum "expected" in
  let evalResult :=
    {| input := inputVal; output := None; expected := expectedVal;
       scores := []; error := None |} in
  text <- lift (ToString inputVal) ;;
  startActiveSpan host TRACER_NAME "eval_item"
    [("eval.item.index", VNum (number_of_nat i));
     ("eval.item.input", VStr (String.substring 0 1000 text))]
    (fun itemSpan =>
      '(output, taskFailed, evalResult, errs') <-
        eval_task task i inputVal evalResult errs ;;
      evalResult <-
        (if negb taskFailed then
           scores' <- eval_scorers i inputVal output expectedVal scorers
                        (scores evalResult) ;;
           (if emitScores then emit_scores name i itemSpan scores' else ret tt) ;;
           ret (with_scores evalResult scores')
         else ret evalResult) ;;
      span_end host itemSpan ;;
      ret (evalResult, errs')).

(** [for (let i = 0; i < dataset.length; i++)], from index [i] on;
    [acc] is [summary.results] and [errs] is [summary.errors]. *)
Fixpoint eval_items (name : string)
    (task : value -> World -> Completion value * World)
    (scorers : list Scorer) (emitScores : bool)
    (i : nat) (dataset : list EvalDatum) (acc : list EvalResult) (errs : nat)
    : M World Span (list EvalResult * nat) :=
  match dataset with
  | [] => ret (acc, errs)
  | datum :: rest =>
      '(evalResult, errs') <- eval_item name task scorers emitScores i datum errs ;;
      eval_items name task scorers emitScores (S i) rest (acc ++ [evalResult]) errs'
  end.

(** What a read [scoreTotals[k]] finds: scoreTotals is a plain object whose
    own properties are arrays. *)
Inductive TotalsSlot : Type :=
| SlotArray (values : list value)
| SlotInherited
| SlotUndefined.

Definition totals_read (scoreTotals : list (string * list value)) (k : string)
    : TotalsSlot :=
  match prop_lookup k scoreTotals with
  | Some values => SlotArray values
  | None =>
      if includes Object_prototype_members k then SlotInherited else SlotUndefined
  end.

(** [if (!scoreTotals[k]) scoreTotals[k] = []; scoreTotals[k].push(v)]: an
    inherited member is truthy and has no [push]. *)
Definition push_total (scoreTotals : list (string * list value))
    (scorerName : string) (v : value) : Completion (list (string * list value)) :=
  let scoreTotals :=
    match totals_read scoreTotals scorerName with
    | SlotUndefined => js_assign scorerName [] scoreTotals
    | _ => scoreTotals
    end in
  match totals_read scoreTotals scorerName with
  | SlotArray values => Normal (set_prop scorerName (values ++ [v]) scoreTotals)
  | SlotInherited => Throw (TypeError "scoreTotals[scorerName].push is not a function")
  | SlotUndefined =>
      Throw (TypeError "Cannot read properties of undefined (reading 'push')")
  end.

(** The inner loop of the averaging pass, over the Scores of one result. *)
Fixpoint collect_scores (entries : props) (scoreTotals : list (string * list value))
    : Completion (list (string * list value)) :=
  match entries with
  | [] => Normal scoreTotals
  | (scorerName, scoreObj) :: rest =>
      (v <-- js_get scoreObj "value" ;;
       scoreTotals' <-- (if negb (is_undefined v) then push_total scoreTotals scorerName v
                         else Normal scoreTotals) ;;
       collect_scores rest scoreTotals')%compl
  end.

(** The outer loop of the averaging pass. *)
Fixpoint collect_totals (rs : list EvalResult) (scoreTotals : list (string * list value))
    : Completion (list (string * list value)) :=
  match rs with
  | [] => Normal scoreTotals
  | result :: rest =>
      (scoreTotals' <-- collect_scores (Object_entries (VObj (scores result))) scoreTotals ;;
       collect_totals rest scoreTotals')%compl
  end.

(** [values.reduce((a, b) => a + b, acc)] *)
Fixpoint reduce_add (values : list value) (acc : value) : Completion value :=
  match values with
  | [] => Normal acc
  | b :: rest =>
      (acc' <-- js_add acc b ;;
       reduce_add rest acc')%compl
  end.

(** [values.reduce((a, b) => a + b, 0) / values.length] *)
Definition average (values : list value) : Completion float :=
  (sum <-- reduce_add values (VNum PrimFloat.zero) ;;
   js_div sum (VNum (number_of_nat (List.length values))))%compl.

(** The loop that fills [summary.averages] and the run span's attributes. *)
Fixpoint write_averages (evalSpan : Span) (entries : list (string * list value))
    (avgs : list (string * float)) : M World Span (list (string * float)) :=
  match entries with
  | [] => ret avgs
  | (scorerName, values) :: rest =>
      avg <- lift (average values) ;;
      let avgs' := js_assign scorerName avg avgs in
      span_setAttribute host evalSpan ("eval.avg." ++ scorerName) (VNum avg) ;;
      write_averages evalSpan rest avgs'
  end.

Definition resolve_data (data : DataSource) : M World Span (list EvalDatum) :=
  match data with
  | Direct dataset => ret dataset
  | Producer produce =>
      fun w => match produce w with (r, w1) => (r, w1, []) end
  end.

(** The run span: what [evaluate] does once the dataset is resolved. *)
Definition evaluate_dataset (name : string)
    (task : value -> World -> Completion value * World)
    (scorers : list Scorer) (emitScores : bool) (dataset : list EvalDatum)
    : M World Span EvalSummary :=
  startActiveSpan host TRACER_NAME "evaluate"
    [("eval.name", VStr name);
     ("eval.dataset_size", VNum (number_of_nat (List.length dataset)));
     ("eval.scorer_count", VNum (number_of_nat (List.length scorers)))]
    (fun evalSpan =>
      '(rs, errs) <- eval_items name task scorers emitScores 0 dataset [] 0 ;;
      scoreTotals <- lift (collect_totals rs []) ;;
      avgs <- write_averages evalSpan (scoreTotals : list (string * list value)) [] ;;
      span_setAttribute host evalSpan "eval.errors" (VNum (number_of_nat errs)) ;;
      span_end host evalSpan ;;
      ret {| name := name; results := rs; averages := avgs;
             total := List.length dataset; errors := errs |}).

Definition evaluate_with (options : EvaluateOptions) : M World Span EvalSummary :=
  let name := opt_name options in
  let task := opt_task options in
  let scorers := opt_scores options in
  let emitScores := match opt_emitScores options with Some b => b | None => true end in
  dataset <- resolve_data (opt_data options) ;;
  evaluate_dataset name task scorers emitScores dataset.

End Evaluate.

Arguments Scorer : clear implicits.
Arguments DataSource : clear implicits.
Arguments EvaluateOptions : clear implicits.
Arguments Direct {World} dataset.
Arguments Producer {World} produce.

(** [evaluate], with [submitScore] bound to [score] as the module imports it. *)
Definition evaluate {engine : Engine} {World Span : Type} (host : Host World Span)
    (options : EvaluateOptions World) : M World Span EvalSummary :=
  evaluate_with host (Score.score host) options.

End Evaluate.

(** ** [decorators.ts]: tracing wrappers *)

Module Decorators.
Section Decorators.
Context {engine : Engine} {World Span : Type}.
Variable host : Host World Span.
Local Open Scope eff_scope.

(** [JSON.stringify(v, replacer)] with the replacer of the source: a
    string, [undefined] (here [None]) or an exception. *)
Variable JSON_stringify : value -> Completion (option string).

Definition SPAN_KIND_WORKFLOW : string := "workflow".
Definition SPAN_KIND_TASK : string := "task".
Definition SPAN_KIND_AGENT : string := "agent".
Definition SPAN_KIND_TOOL : string := "tool".

Definition TRACER_NAME : string := "opensearch-genai-sdk".

#[local] Set Warnings "-abstract-large-number".
Definition MAX_ATTRIBUTE_LENGTH : nat := 10000.
#[local] Set Warnings "abstract-large-number".

Record TraceOptions : Type := { version : option float }.

(** [options?.version] *)
Definition version_of (options : option TraceOptions) : option float :=
  match options with
  | Some o => version o
  | None => None
  end.

Definition throw {A} (e : value) : M World Span A := lift (Throw e).

(** [if (serialized.length > MAX_ATTRIBUTE_LENGTH) serialized =
    serialized.slice(0, MAX_ATTRIBUTE_LENGTH) + "...(truncated)"] *)
Definition truncate (serialized : string) : string :=
  if Nat.ltb MAX_ATTRIBUTE_LENGTH (String.length serialized)
  then (String.substring 0 MAX_ATTRIBUTE_LENGTH serialized ++ "...(truncated)")%string
  else serialized.

(** The statements shared by [setInput] and [setOutput], from the call of
    [JSON.stringify] to [span.setAttribute]; reading [length] of an
    [undefined] serialization raises. *)
Definition serialize_to (span : Span) (key : string) (v : value) : M World Span unit :=
  serialized <- lift (JSON_stringify v) ;;
  match serialized with
  | Some s => span_setAttribute host span key (VStr (truncate s))
  | None => throw (TypeError "Cannot read properties of undefined (reading 'length')")
  end.

Definition setInput (span : Span) (args : list value) : M World Span unit :=
  try_catch
    (match args with
     | [] => ret tt
     | [arg] => serialize_to span "gen_ai.entity.input" arg
     | _ => serialize_to span "gen_ai.entity.input" (VArr args)
     end)
    (fun _ => ret tt).

Definition setOutput (span : Span) (result : value) : M World Span unit :=
  try_catch
    (if is_undefined result || is_null result then ret tt
     else serialize_to span "gen_ai.entity.output" result)
    (fun _ => ret tt).

Definition setSpanAttributes (span : Span) (spanKind : string) (version : option float)
    (args : list value) : M World Span unit :=
  span_setAttribute host span "gen_ai.operation.name" (VStr spanKind) ;;
  (match version with
   | Some v => span_setAttribute host span "gen_ai.entity.version" (VNum v)
   | None => ret tt
   end) ;;
  setInput span args.

(** The statements of both error handlers: mark the span, end it, rethrow.
    The text of the status is computed first. *)
Definition fail_span (span : Span) (err : value) : M World Span value :=
  message <- lift (ToString err) ;;
  span_setStatus host span message ;;
  span_recordException host span err ;;
  span_end host span ;;
  throw err.

(** The wrapped function, applied to [args].  For a promise the wrapper
    hands back the promise chained by [then] and [catch], pending like the
    one it got; the span stays open. *)
Definition makeWrapper (spanName : string) (fn : list value -> M World Span value)
    (spanKind : string) (options : option TraceOptions) (args : list value)
    : M World Span value :=
  startActiveSpan host TRACER_NAME spanName []
    (fun span =>
       setSpanAttributes span spanKind (version_of options) args ;;
       try_catch
         (result <- fn args ;;
          if is_Promise result then ret VPromise
          else
            setOutput span result ;;
            span_end host span ;;
            ret result)
         (fun err => fail_span span err)).

(** What the handlers chained on the promise do once it settles,
    [outcome] being the promise's value or rejection reason:
    [result.then(onFulfilled).catch(onRejected)].  The completion is the
    outcome of the promise the wrapper returned. *)
Definition settle (span : Span) (outcome : Completion value) : M World Span value :=
  try_catch
    (match outcome with
     | Normal resolved =>
         setOutput span resolved ;;
         span_end host span ;;
         ret resolved
     | Throw err => throw err
     end)
    (fun err => fail_span span err).

Definition traceWorkflow (name : string) (fn : list value -> M World Span value)
    (options : option TraceOptions) : list value -> M World Span value :=
  makeWrapper name fn SPAN_KIND_WORKFLOW options.

Definition traceTask (name : string) (fn : list value -> M World Span value)
    (options : option TraceOptions) : list value -> M World Span value :=
  makeWrapper name fn SPAN_KIND_TASK options.

Definition traceAgent (name : string) (fn : list value -> M World Span value)
    (options : option TraceOptions) : list value -> M World Span value :=
  makeWrapper name fn SPAN_KIND_AGENT options.

Definition traceTool (name : string) (fn : list value -> M World Span value)
    (options : option TraceOptions) : list value -> M World Span value :=
  makeWrapper name fn SPAN_KIND_TOOL options.

End Decorators.
End Decorators.
(** ** Notions used to state the properties *)

Definition is_digit (c : ascii) : bool :=
  match c with
  | "0" | "1" | "2" | "3" | "4" | "5" | "6" | "7" | "8" | "9" => true
  | _ => false
  end%char.

(** The canonical Score shape in the words of the specification: an object
    with a textual [name] field and at least one of the keys [value],
    [label]. *)
Definition canonical_shape (v : value) : Prop :=
  exists ps nm,
    v = VObj ps /\ prop_lookup "name" ps = Some (VStr nm) /\
    (has_key "value" ps = true \/ has_key "label" ps = true).

(** Guard of rule 5 of the adapter: a non-null, non-array object. *)
Definition dict_like (v : value) : bool :=
  String.eqb (typeof v) "object" && negb (is_null v) && negb (isArray v).

(** [String(v)] succeeds. *)
Definition renders {engine : Engine} (v : value) : bool :=
  match ToString v with Normal _ => true | Throw _ => false end.

(** The effect on [evalResult.scores] of one scorer invocation that
    completed as [c]: the adapted Score is assigned under the scorer's
    name, unless the invocation or the adapter threw. *)
Definition record_call {engine : Engine} (acc : props)
    (call : string * Completion value) : props :=
  match snd call with
  | Normal raw =>
      match Protocol.adaptScore (fst call) raw with
      | Normal scoreObj => js_assign (fst call) scoreObj acc
      | Throw _ => acc
      end
  | Throw _ => acc
  end.

Definition is_throw {A} (c : Completion A) : bool :=
  match c with Normal _ => false | Throw _ => true end.

(** The item failed: its result carries an [error]. *)
Definition has_error (r : EvalResult) : bool :=
  match error r with Some _ => true | None => false end.

Section Traces.
Context {Span : Type}.

(** Completions of the task calls made for item [i]. *)
Definition task_outcomes (i : nat) (t : list (Event Span)) : list (Completion value) :=
  flat_map (fun ev => match ev with
                      | EvTask j _ r => if Nat.eqb j i then [r] else []
                      | _ => []
                      end) t.

(** Completions of all task calls of a trace. *)
Definition all_task_outcomes (t : list (Event Span)) : list (Completion value) :=
  flat_map (fun ev => match ev with
                      | EvTask _ _ r => [r]
                      | _ => []
                      end) t.

(** Scorer invocations made for item [i]: scorer name and completion. *)
Definition scorer_calls (i : nat) (t : list (Event Span))
    : list (string * Completion value) :=
  flat_map (fun ev => match ev with
                      | EvScorer j nm _ r => if Nat.eqb j i then [(nm, r)] else []
                      | _ => []
                      end) t.

(** Arguments of the scorer invocations made for item [i]. *)
Definition scorer_inputs (i : nat) (t : list (Event Span)) : list ScorerArgs :=
  flat_map (fun ev => match ev with
                      | EvScorer j _ args _ => if Nat.eqb j i then [args] else []
                      | _ => []
                      end) t.

(** Scores handed to the score-emission primitive for item [i]. *)
Definition submitted (i : nat) (t : list (Event Span)) : list ScoreOptions :=
  flat_map (fun ev => match ev with
                      | EvSubmit j o _ _ => if Nat.eqb j i then [o] else []
                      | _ => []
                      end) t.

(** Names of the spans started by a trace, in order (the spans started
    inside the score-emission primitive are part of its [EvSubmit]). *)
Definition started_spans (t : list (Event Span)) : list string :=
  flat_map (fun ev => match ev with
                      | EvStartSpan _ spanName _ _ => [spanName]
                      | _ => []
                      end) t.

(** Number of [span.end()] calls of a trace. *)
Definition ended_spans (t : list (Event Span)) : nat :=
  List.length (filter (fun ev => match ev with EvSpanEnd _ => true | _ => false end) t).

(** A trace that makes no call on behalf of an item. *)
Definition no_item_call (t : list (Event Span)) : Prop :=
  forall q, task_outcomes q t = [] /\ scorer_calls q t = [] /\
            scorer_inputs q t = [] /\ submitted q t = [].

(** A trace that makes no call on behalf of an item and neither starts nor
    ends a span. *)
Definition silent (t : list (Event Span)) : Prop :=
  no_item_call t /\ started_spans t = [] /\ ended_spans t = 0.

End Traces.

(** A string or array of at most [n] elements. *)
Definition bounded (n : nat) (v : value) : Prop :=
  exists len, js_length v = Some len /\ len <= n.

(** [v] is the rationale of the Score [scoreObj], cut to its first 500
    elements. *)
Definition sliced_rationale (scoreObj v : value) : Prop :=
  exists rationale,
    js_get scoreObj "rationale" = Normal rationale /\
    ToBoolean rationale = true /\
    js_slice0 rationale 500 = Normal v.

Section RationaleTraces.
Context {engine : Engine} {Span : Type}.

(** [scoreObj] is the Score adapted from the result of a scorer invocation
    of the trace [ctx]. *)
Definition adapted_in (ctx : list (Event Span)) (scoreObj : value) : Prop :=
  exists i nm args raw,
    In (EvScorer i nm args (Normal raw)) ctx /\
    Protocol.adaptScore nm raw = Normal scoreObj.

(** [v] is the cut rationale of the Score adapted from the result of a
    scorer invocation of the trace [ctx]. *)
Definition from_scorer_call (ctx : list (Event Span)) (v : value) : Prop :=
  exists scoreObj, adapted_in ctx scoreObj /\ sliced_rationale scoreObj v.

(** Every recorded Score of [scores] was adapted from the result of a
    scorer invocation of [ctx]. *)
Definition entries_adapted (ctx : list (Event Span)) (scores : props) : Prop :=
  forall entry, In entry scores -> adapted_in ctx (snd entry).

(** The rationale of the emitted score [o] is the rationale, as it is, of
    the Score adapted from the result of a scorer invocation of [ctx]. *)
Definition handed_over (ctx : list (Event Span)) (o : ScoreOptions) : Prop :=
  exists scoreObj,
    adapted_in ctx scoreObj /\
    js_get scoreObj "rationale" = Normal (so_rationale o).

(** Every span started while the score [o] was being emitted carries as
    [score.rationale], if at all, the rationale of [o] cut to 500. *)
Definition score_span_ok (o : ScoreOptions) (during : list (Event Span)) : Prop :=
  forall tracer spanName attributes span v,
    In (EvStartSpan tracer spanName attributes span) during ->
    prop_lookup "score.rationale" attributes = Some v ->
    ToBoolean (so_rationale o) = true /\ js_slice0 (so_rationale o) 500 = Normal v.

(** What an event may carry of a rationale, [ctx] being the trace it is
    part of. *)
Definition rationale_event_ok (ctx : list (Event Span)) (ev : Event Span) : Prop :=
  match ev with
  | EvSetAttribute _ key v =>
      key = "eval.score.rationale" -> from_scorer_call ctx v
  | EvStartSpan _ _ attributes _ =>
      prop_lookup "score.rationale" attributes = None
  | EvSubmit _ o _ during => handed_over ctx o /\ score_span_ok o during
  | _ => True
  end.

(** Every rationale written during [t] comes from a scorer invocation of
    [ctx]: cut on a span, as it is when handed to the emission primitive. *)
Definition rationales_cut (ctx t : list (Event Span)) : Prop :=
  Forall (rationale_event_ok ctx) t.

(** [t] writes no rationale. *)
Definition no_rationale (t : list (Event Span)) : Prop :=
  forall ctx, rationales_cut ctx t.

End RationaleTraces.

(** Recorded Scores are objects under pairwise distinct names. *)
Definition scores_wf (scores : props) : Prop :=
  NoDup (keys scores) /\ Forall (fun kv => exists ps, snd kv = VObj ps) scores.

(** The values collected so far under key [s]. *)
Definition group_get (totals : list (string * list value)) (s : string) : list value :=
  match prop_lookup s totals with Some vs => vs | None => [] end.

(** Well-formed running totals: distinct names, none of them a member of
    [Object.prototype], no empty group. *)
Definition totals_ok (totals : list (string * list value)) : Prop :=
  NoDup (keys totals) /\
  (forall s, In s (keys totals) -> includes Object_prototype_members s = false) /\
  forall s, prop_lookup s totals <> Some [].

(** The defined [value] of a Score object, if any. *)
Definition defined_value (scoreObj : value) : list value :=
  match scoreObj with
  | VObj ps => if is_undefined (obj_get ps "value") then [] else [obj_get ps "value"]
  | _ => []
  end.

(** The defined values found under key [s] in a list of entries. *)
Definition entry_values (s : string) (entries : props) : list value :=
  flat_map (fun kv => if String.eqb (fst kv) s then defined_value (snd kv) else [])
           entries.

(** The values under key [s] whose mean the run reports: the [value] fields,
    other than [undefined], of the Scores recorded under [s], item by item. *)
Definition values_under (s : string) (rs : list EvalResult) : list value :=
  flat_map (fun r => match prop_lookup s (scores r) with
                     | Some scoreObj => defined_value scoreObj
                     | None => []
                     end) rs.

(** The same, restricted to numbers: the defined numeric [value] fields. *)
Definition numeric_values_under (s : string) (rs : list EvalResult) : list float :=
  flat_map (fun v => match v with VNum n => [n] | _ => [] end) (values_under s rs).

(** Arithmetic mean in double arithmetic: the sum, taken left to right from
    zero, divided by the count. *)
Definition mean (ns : list float) : float :=
  PrimFloat.div (fold_left PrimFloat.add ns PrimFloat.zero)
                (number_of_nat (List.length ns)).

(** A field of a recorded Score. *)
Definition field_of (scoreObj : value) (k : string) : value :=
  match js_get scoreObj k with
  | Normal v => v
  | Throw _ => VUndefined
  end.

(** What is handed to the score-emission primitive for a recorded Score. *)
Definition emitted_options (runName : string) (i : nat) (traceId spanId : string)
    (entry : string * value) : ScoreOptions :=
  {| so_name := fst entry;
     so_value := field_of (snd entry) "value";
     so_traceId := Some traceId;
     so_spanId := Some spanId;
     so_label := field_of (snd entry) "label";
     so_dataType := None;
     so_source := Some "eval";
     so_comment := None;
     so_rationale := field_of (snd entry) "rationale";
     so_metadata := Some [("eval_name", VStr runName);
                          ("item_index", VNum (number_of_nat i))];
     so_project := None |}.

(** The spans of one item: the item span, the task span and, when the task
    succeeded, one span per scorer. *)
Definition item_spans (scorers : list string) (r : EvalResult) : list string :=
  "eval_item" :: "eval_task"
  :: (if has_error r then [] else map (fun nm : string => ("eval_score." ++ nm)%string) scorers).

Section Specs.
Context {engine : Engine} {World Span : Type}.

(** [spec c Q E]: from any world, [c] ends normally with a result and trace
    satisfying [Q], or throws with an exception and trace satisfying [E]. *)
Definition spec {A} (c : M World Span A)
    (Q : A -> list (Event Span) -> Prop) (E : value -> list (Event Span) -> Prop) : Prop :=
  forall w, match c w with
            | (Normal a, _, t) => Q a t
            | (Throw e, _, t) => E e t
            end.

Definition no_throw : value -> list (Event Span) -> Prop := fun _ _ => False.

(** The exception is a [TypeError]. *)
Definition type_error : value -> list (Event Span) -> Prop :=
  fun e _ => exists msg, e = TypeError msg.

(** The trace of [c] satisfies [R], whether [c] returns or throws. *)
Definition maintains {A} (R : list (Event Span) -> Prop) (c : M World Span A) : Prop :=
  spec c (fun _ t => R t) (fun _ t => R t).

(** [c] writes only rationales of its own scorer invocations. *)
Definition keeps_rationales_cut {A} (c : M World Span A) : Prop :=
  maintains (fun t => rationales_cut t t) c.

(** [c] writes no rationale. *)
Definition writes_no_rationale {A} (c : M World Span A) : Prop :=
  maintains no_rationale c.

(** The arguments [a] of a scorer invocation are the renderings of the
    input, of the output and, unless it is [undefined], of the expected
    value. *)
Definition scorer_args_of (inputVal out expectedVal : value) (a : ScorerArgs) : Prop :=
  ToString inputVal = Normal (arg_input a) /\
  ToString out = Normal (arg_output a) /\
  (if is_undefined expectedVal then arg_expected a = None
   else exists text, ToString expectedVal = Normal text /\ arg_expected a = Some text).

(** The result [r] records the failure [e]: its [error] is the text of
    [e]. *)
Definition failed_with (r : EvalResult) (e : value) : Prop :=
  exists text, ToString e = Normal text /\ error r = Some text.

(** The scorer invocations of an item whose task succeeded: one per scorer
    of the list, in order; none when the expected value cannot be rendered
    as an argument. *)
Definition calls_follow (scorers : list string) (expectedVal : value)
    (calls : list (string * Completion value)) : Prop :=
  if is_undefined expectedVal || renders expectedVal
  then map fst calls = scorers
  else calls = [].

(** What a run establishes about one item, given the calls it made for it:
    [tasks], [calls], [inputs] and [emitted] are the task completions, the
    scorer invocations, their arguments and the emitted scores of that
    item. *)
Definition item_facts (scorers : list string) (emitScores : bool)
    (runName : string) (i : nat) (datum : EvalDatum) (r : EvalResult)
    (tasks : list (Completion value)) (calls : list (string * Completion value))
    (inputs : list ScorerArgs) (emitted : list ScoreOptions) : Prop :=
  input r = obj_get datum "input" /\
  expected r = obj_get datum "expected" /\
  renders (input r) = true /\
  scores_wf (scores r) /\
  Forall (fun a => exists out,
                     output r = Some out /\
                     scorer_args_of (input r) out (expected r) a) inputs /\
  (exists traceId spanId,
     emitted = (if emitScores && negb (has_error r)
                then map (emitted_options runName i traceId spanId) (scores r)
                else [])) /\
  exists c, tasks = [c] /\
    match c with
    | Throw e =>
        output r = None /\ failed_with r e /\ scores r = [] /\ calls = []
    | Normal out =>
        output r = Some out /\
        match ToString out with
        | Throw e => failed_with r e /\ scores r = [] /\ calls = []
        | Normal _ =>
            error r = None /\
            scores r = fold_left record_call calls [] /\
            calls_follow scorers (expected r) calls
        end
    end.

(** What a run of the dataset loop over [ds], started at index [i0],
    establishes about the results [new] it appends and its trace. *)
Definition run_facts (scorers : list string) (emitScores : bool) (runName : string)
    (i0 : nat) (ds : list EvalDatum) (new : list EvalResult)
    (t : list (Event Span)) : Prop :=
  List.length new = List.length ds /\
  (forall j datum r,
     nth_error ds j = Some datum -> nth_error new j = Some r ->
     item_facts scorers emitScores runName (i0 + j) datum r
       (task_outcomes (i0 + j) t) (scorer_calls (i0 + j) t)
       (scorer_inputs (i0 + j) t) (submitted (i0 + j) t)) /\
  (forall q, q < i0 \/ i0 + List.length ds <= q ->
     task_outcomes q t = [] /\ scorer_calls q t = [] /\
     scorer_inputs q t = [] /\ submitted q t = []).

(** What a completed run establishes about its summary and its trace. *)
Definition summary_facts (scorers : list string) (emitScores : bool)
    (runName : string) (ds : list EvalDatum) (summary : EvalSummary)
    (t : list (Event Span)) : Prop :=
  name summary = runName /\
  total summary = List.length ds /\
  run_facts scorers emitScores runName 0 ds (results summary) t /\
  started_spans t = "evaluate" :: flat_map (item_spans scorers) (results summary) /\
  ended_spans t = List.length (started_spans t) /\
  errors summary = List.length (filter has_error (results summary)) /\
  forall s, match values_under s (results summary) with
            | [] => prop_lookup s (averages summary) = None
            | v :: vs =>
                exists avg, Evaluate.average (v :: vs) = Normal avg /\
                            prop_lookup s (averages summary) = Some avg
            end.

End Specs.

(** The value of [emitScores] after defaulting. *)
Definition emit_flag {World : Type} (options : Evaluate.EvaluateOptions World) : bool :=
  match Evaluate.opt_emitScores options with Some b => b | None => true end.

(** The dataset a run iterates over, from world [w]: the one supplied, or the
    one its producer returns. *)
Definition dataset_of {World : Type} (data : Evaluate.DataSource World) (w : World)
    (ds : list EvalDatum) : Prop :=
  match data with
  | Evaluate.Direct dataset => dataset = ds
  | Evaluate.Producer produce => exists w0, produce w = (Normal ds, w0)
  end.

(** ** Example environment and runs *)

(** A host with no state: spans are units and every call is a no-op. *)
Definition example_host : Host unit unit :=
  {| startSpan := fun _ _ _ w => (tt, w);
     setAttribute := fun _ _ _ w => w;
     setStatus := fun _ _ w => w;
     recordException := fun _ _ w => w;
     spanEnd := fun _ w => w;
     spanContext := fun _ w => (("0af7651916cd43dd8448eb211c80319c", "b7ad6b7169203331"), w);
     console_warn := fun _ w => w;
     env_OPENSEARCH_PROJECT := fun _ => None |}.

(** A task that answers ["4"] and throws on the input ["crash"]. *)
Definition example_task (inputVal : value) (w : unit) : Completion value * unit :=
  match inputVal with
  | VStr "crash" => (Throw (VError "Error" "boom"), w)
  | _ => (Normal (VStr "4"), w)
  end.

(** [exact_match] of the package's examples. *)
Definition exact_match : Evaluate.Scorer unit :=
  {| Evaluate.scorer_name := "exact_match";
     Evaluate.scorer_score := fun args w =>
       (Normal (VObj [("name", VStr "exact_match");
                      ("value",
                       VNum (if String.eqb (arg_output args)
                                  (match arg_expected args with Some e => e | None => "" end)
                             then PrimFloat.one else PrimFloat.zero));
                      ("rationale", VStr "compared output and expected")]), w) |}.

(** A scorer that always throws. *)
Definition broken_scorer : Evaluate.Scorer unit :=
  {| Evaluate.scorer_name := "broken";
     Evaluate.scorer_score := fun _ w => (Throw (VError "Error" "no judge"), w) |}.

(** A pass/fail scorer that reports a boolean [value]. *)
Definition passed_scorer : Evaluate.Scorer unit :=
  {| Evaluate.scorer_name := "passed";
     Evaluate.scorer_score := fun _ w =>
       (Normal (VObj [("name", VStr "passed"); ("value", VBool true)]), w) |}.

Definition example_dataset : list EvalDatum :=
  [[("input", VStr "2+2?"); ("expected", VStr "4")];
   [("input", VStr "crash"); ("expected", VStr "none")]].

Definition example_options : Evaluate.EvaluateOptions unit :=
  {| Evaluate.opt_name := "qa-eval";
     Evaluate.opt_data := Evaluate.Direct example_dataset;
     Evaluate.opt_task := example_task;
     Evaluate.opt_scores := [exact_match; broken_scorer];
     Evaluate.opt_emitScores := None |}.

Definition passed_options : Evaluate.EvaluateOptions unit :=
  {| Evaluate.opt_name := "pass-eval";
     Evaluate.opt_data := Evaluate.Direct [[("input", VStr "2+2?")]];
     Evaluate.opt_task := example_task;
     Evaluate.opt_scores := [passed_scorer];
     Evaluate.opt_emitScores := None |}.

(** A dataset producer that throws. *)
Definition failing_producer_options : Evaluate.EvaluateOptions unit :=
  {| Evaluate.opt_name := "qa-eval";
     Evaluate.opt_data :=
       Evaluate.Producer (fun w => (Throw (VError "Error" "no data"), w));
     Evaluate.opt_task := example_task;
     Evaluate.opt_scores := [exact_match];
     Evaluate.opt_emitScores := None |}.

Fixpoint string_repeat (c : ascii) (n : nat) : string :=
  match n with
  | O => EmptyString
  | S n' => String c (string_repeat c n')
  end.

(** A scorer whose rationale is 600 characters long. *)
Definition verbose_scorer : Evaluate.Scorer unit :=
  {| Evaluate.scorer_name := "verbose";
     Evaluate.scorer_score := fun _ w =>
       (Normal (VObj [("score", VNum PrimFloat.one);
                      ("rationale", VStr (string_repeat "r" 600))]), w) |}.

Definition verbose_options : Evaluate.EvaluateOptions unit :=
  {| Evaluate.opt_name := "verbose-eval";
     Evaluate.opt_data := Evaluate.Direct [[("input", VStr "2+2?")]];
     Evaluate.opt_task := example_task;
     Evaluate.opt_scores := [verbose_scorer];
     Evaluate.opt_emitScores := None |}.

Definition empty_summary : EvalSummary :=
  {| name := ""; results := []; averages := []; total := 0; errors := 0 |}.

Definition summary_of {World Span : Type}
    (run : Completion EvalSummary * World * list (Event Span)) : EvalSummary :=
  match run with
  | (Normal summary, _, _) => summary
  | (Throw _, _, _) => empty_summary
  end.

(** The example run, its summary and its trace. *)
Definition example_summary : EvalSummary :=
  Eval vm_compute in
    summary_of (Evaluate.evaluate (engine := example_engine) example_host example_options tt).

Definition example_trace : list (Event unit) :=
  Eval vm_compute in
    snd (Evaluate.evaluate (engine := example_engine) example_host example_options tt).

Definition passed_summary : EvalSummary :=
  Eval vm_compute in
    summary_of (Evaluate.evaluate (engine := example_engine) example_host passed_options tt).

Definition passed_trace : list (Event unit) :=
  Eval vm_compute in
    snd (Evaluate.evaluate (engine := example_engine) example_host passed_options tt).
(** ** Notions used by the further properties *)

(** The attributes [score] sets before it looks at the rationale and the
    metadata, [env] being the value of [OPENSEARCH_PROJECT]. *)
Definition score_base_attributes (env : option string) (options : ScoreOptions) : props :=
  let project :=
    match so_project options with
    | Some p => p
    | None => Score.default_to "default" env
    end in
  let attrs : props :=
    [("opensearch.score", VBool true);
     ("score.name", VStr (so_name options));
     ("score.data_type", VStr (Score.default_to "NUMERIC" (so_dataType options)));
     ("score.source", VStr (Score.default_to "sdk" (so_source options)));
     ("score.project", VStr project)] in
  let attrs := if negb (is_undefined (so_value options))
               then set_prop "score.value" (so_value options) attrs else attrs in
  let attrs := Score.set_if_truthy "score.trace_id" (so_traceId options) attrs in
  let attrs := Score.set_if_truthy "score.span_id" (so_spanId options) attrs in
  let attrs := if ToBoolean (so_label options)
               then set_prop "score.label" (so_label options) attrs else attrs in
  Score.set_if_truthy "score.comment" (so_comment options) attrs.

(** The attributes [score] computes for its span, or the exception raised
    while computing them. *)
Definition score_span_attributes {engine : Engine} (env : option string)
    (options : ScoreOptions) : Completion props :=
  let attrs := score_base_attributes env options in
  (attrs <-- (if ToBoolean (so_rationale options) then
                sliced <-- js_slice0 (so_rationale options) 500 ;;
                Normal (set_prop "score.rationale" sliced attrs)
              else Normal attrs) ;;
   match so_metadata options with
   | Some metadata => Score.metadata_attributes metadata attrs
   | None => Normal attrs
   end)%compl.

(** The value under which a metadata entry of [score] cannot be rendered,
    if there is one: the first in the order of the entries. *)
Definition unrendered_metadata {engine : Engine} (metadata : option props) : option value :=
  match metadata with
  | Some md => find (fun v => negb (renders v)) (map snd md)
  | None => None
  end.

(** A non-empty optional string, as a span attribute. *)
Definition truthy_string (o : option string) : option value :=
  match o with
  | Some s => if String.eqb s "" then None else Some (VStr s)
  | None => None
  end.

(** A score submitted on the example host. *)
Definition example_score_options : ScoreOptions :=
  {| so_name := "relevance";
     so_value := VNum PrimFloat.zero;
     so_traceId := Some "0af7651916cd43dd8448eb211c80319c";
     so_spanId := Some "";
     so_label := VStr "";
     so_dataType := None;
     so_source := Some "llm-judge";
     so_comment := None;
     so_rationale := VStr "addresses the question";
     so_metadata := Some [("model", VStr "judge-a"); ("score.name", VStr "spoof")];
     so_project := None |}.

Definition example_score_trace : list (Event unit) :=
  Eval vm_compute in
    snd (Score.score (engine := example_engine) example_host example_score_options tt).

(** An example run with emission switched off, and one on no data. *)
Definition quiet_options : Evaluate.EvaluateOptions unit :=
  {| Evaluate.opt_name := "qa-eval";
     Evaluate.opt_data := Evaluate.Direct example_dataset;
     Evaluate.opt_task := example_task;
     Evaluate.opt_scores := [exact_match; broken_scorer];
     Evaluate.opt_emitScores := Some false |}.

Definition quiet_summary : EvalSummary :=
  Eval vm_compute in
    summary_of (Evaluate.evaluate (engine := example_engine) example_host quiet_options tt).

Definition quiet_trace : list (Event unit) :=
  Eval vm_compute in
    snd (Evaluate.evaluate (engine := example_engine) example_host quiet_options tt).

Definition empty_options : Evaluate.EvaluateOptions unit :=
  {| Evaluate.opt_name := "qa-eval";
     Evaluate.opt_data := Evaluate.Direct [];
     Evaluate.opt_task := example_task;
     Evaluate.opt_scores := [exact_match];
     Evaluate.opt_emitScores := None |}.

(** ** Inputs on which the code leaves the specification *)

(** An object with an own, non-callable [toString]: [{toString: 1}]. *)
Definition unconvertible : value := VObj [("toString", VNum PrimFloat.one)].

(** A task that returns [{toString: 1}]. *)
Definition opaque_task (inputVal : value) (w : unit) : Completion value * unit :=
  (Normal unconvertible, w).

Definition opaque_options : Evaluate.EvaluateOptions unit :=
  {| Evaluate.opt_name := "opaque-eval";
     Evaluate.opt_data := Evaluate.Direct [[("input", VStr "2+2?")]];
     Evaluate.opt_task := opaque_task;
     Evaluate.opt_scores := [exact_match];
     Evaluate.opt_emitScores := None |}.

Definition opaque_summary : EvalSummary :=
  Eval vm_compute in
    summary_of (Evaluate.evaluate (engine := example_engine) example_host opaque_options tt).

Definition opaque_trace : list (Event unit) :=
  Eval vm_compute in
    snd (Evaluate.evaluate (engine := example_engine) example_host opaque_options tt).

(** A scorer named [__proto__] that returns the number 1. *)
Definition proto_scorer : Evaluate.Scorer unit :=
  {| Evaluate.scorer_name := "__proto__";
     Evaluate.scorer_score := fun _ w => (Normal (VNum PrimFloat.one), w) |}.

Definition proto_options : Evaluate.EvaluateOptions unit :=
  {| Evaluate.opt_name := "proto-eval";
     Evaluate.opt_data := Evaluate.Direct [[("input", VStr "2+2?")]];
     Evaluate.opt_task := example_task;
     Evaluate.opt_scores := [proto_scorer];
     Evaluate.opt_emitScores := None |}.

Definition proto_summary : EvalSummary :=
  Eval vm_compute in
    summary_of (Evaluate.evaluate (engine := example_engine) example_host proto_options tt).

Definition proto_trace : list (Event unit) :=
  Eval vm_compute in
    snd (Evaluate.evaluate (engine := example_engine) example_host proto_options tt).

(** A dataset, supplied directly, whose only input is [{toString: 1}]. *)
Definition opaque_input_options : Evaluate.EvaluateOptions unit :=
  {| Evaluate.opt_name := "qa-eval";
     Evaluate.opt_data := Evaluate.Direct [[("input", unconvertible)]];
     Evaluate.opt_task := example_task;
     Evaluate.opt_scores := [exact_match];
     Evaluate.opt_emitScores := None |}.

(** A scorer named [toString] that returns the number 1. *)
Definition toString_scorer : Evaluate.Scorer unit :=
  {| Evaluate.scorer_name := "toString";
     Evaluate.scorer_score := fun _ w => (Normal (VNum PrimFloat.one), w) |}.

Definition toString_options : Evaluate.EvaluateOptions unit :=
  {| Evaluate.opt_name := "qa-eval";
     Evaluate.opt_data := Evaluate.Direct [[("input", VStr "2+2?")]];
     Evaluate.opt_task := example_task;
     Evaluate.opt_scores := [toString_scorer];
     Evaluate.opt_emitScores := None |}.

Definition verbose_trace : list (Event unit) :=
  Eval vm_compute in
    snd (Evaluate.evaluate (engine := example_engine) example_host verbose_options tt).

(** ** Notions used for the tracing wrappers *)

Section WrapperShapes.
Context {engine : Engine} {Span : Type}.

(** What [setInput] and [setOutput] leave on a span: nothing, or one
    string attribute of bounded length. *)
Definition capture_events (span : Span) (key : string) (t : list (Event Span)) : Prop :=
  t = [] \/
  exists s, t = [EvSetAttribute span key (VStr s)] /\
            String.length s <= Decorators.MAX_ATTRIBUTE_LENGTH + 14.

(** The events of a wrapper before it calls the wrapped function. *)
Definition opening_events (span : Span) (spanKind : string) (version : option float)
    (pre : list (Event Span)) : Prop :=
  exists captured,
    capture_events span "gen_ai.entity.input" captured /\
    pre = EvSetAttribute span "gen_ai.operation.name" (VStr spanKind)
          :: match version with
             | Some v => [EvSetAttribute span "gen_ai.entity.version" (VNum v)]
             | None => []
             end ++ captured.

(** How a span is closed for an outcome of the wrapped work, [c] being the
    completion handed on and [post] the events: a value is captured as
    output and handed on; an exception marks the span and is rethrown,
    unless its text cannot be computed, in which case the conversion error
    is thrown in its place and the span is left open. *)
Definition settled (span : Span) (outcome c : Completion value)
    (post : list (Event Span)) : Prop :=
  match outcome with
  | Normal resolved =>
      c = Normal resolved /\
      exists captured,
        capture_events span "gen_ai.entity.output" captured /\
        post = captured ++ [EvSpanEnd span]
  | Throw err =>
      match ToString err with
      | Normal message =>
          c = Throw err /\
          post = [EvSetStatus span message; EvRecordException span err; EvSpanEnd span]
      | Throw conversion =>
          c = Throw conversion /\ post = []
      end
  end.

(** How a wrapper completes, and its events, after the wrapped function has
    completed as [called]: a promise is handed on with the span open. *)
Definition closing (span : Span) (called c : Completion value)
    (post : list (Event Span)) : Prop :=
  match called with
  | Normal VPromise => c = Normal VPromise /\ post = []
  | _ => settled span called c post
  end.

(** Spans a wrapper ends when the outcome [outcome] is handled. *)
Definition ended_on (outcome : Completion value) : nat :=
  match outcome with
  | Normal _ => 1
  | Throw err => if renders err then 1 else 0
  end.

(** Spans a wrapper ends during a call in which the wrapped function
    completes as [called]. *)
Definition ended_in_call (called : Completion value) : nat :=
  match called with
  | Normal VPromise => 0
  | _ => ended_on called
  end.

End WrapperShapes.

(** A serializer for the examples, in the place of [JSON.stringify]:
    [undefined] has no serialization, [null], booleans and strings without
    characters to escape are rendered as JSON, anything else is refused. *)
Definition example_serializer (v : value) : Completion (option string) :=
  match v with
  | VUndefined => Normal None
  | VNull => Normal (Some "null")
  | VBool true => Normal (Some "true")
  | VBool false => Normal (Some "false")
  | VStr s => Normal (Some (String (ascii_of_nat 34) s ++ String (ascii_of_nat 34) EmptyString)%string)
  | _ => Throw (TypeError "Converting circular structure to JSON")
  end.

(** A wrapped function that looks up an answer and fails on ["crash"]. *)
Definition example_lookup (args : list value) : M unit unit value :=
  match args with
  | [VStr "crash"] => lift (Throw (VError "Error" "boom"))
  | _ => ret (VStr "4")
  end.

Definition example_tool : list value -> M unit unit value :=
  Decorators.traceTool (engine := example_engine) example_host example_serializer
    "lookup" example_lookup (Some {| Decorators.version := Some PrimFloat.one |}).

Definition example_workflow : list value -> M unit unit value :=
  Decorators.traceWorkflow (engine := example_engine) example_host example_serializer
    "pipeline" example_tool None.

Definition example_crash_trace : list (Event unit) :=
  Eval vm_compute in snd (example_tool [VStr "crash"] tt).

Definition example_workflow_trace : list (Event unit) :=
  Eval vm_compute in snd (example_workflow [VStr "2+2?"] tt).
(** ** Facts about the built-ins *)

Lemma string_of_uint_head (d : uint) :
  match NilEmpty.string_of_uint d with
  | EmptyString => True
  | String c _ => is_digit c = true
  end.
Proof. destruct d; simpl; auto. Qed.

Lemma nat_to_string_head (n : nat) (c : ascii) (s : string) :
  nat_to_string n = String c s -> is_digit c = true.
Proof.
  unfold nat_to_string. intros E.
  pose proof (string_of_uint_head (Nat.to_uint n)) as Hh.
  rewrite E in Hh. exact Hh.
Qed.

Lemma array_index_nondigit (c : ascii) (s : string) (bound : nat) :
  is_digit c = false -> array_index (String c s) bound = None.
Proof.
  intros Hc. unfold array_index.
  destruct (find _ (seq 0 bound)) as [n|] eqn:F; [|reflexivity].
  apply find_some in F. destruct F as [_ F].
  apply String.eqb_eq in F. apply nat_to_string_head in F. congruence.
Qed.

Lemma substring_length_le (n : nat) (s : string) :
  String.length (String.substring 0 n s) <= n.
Proof.
  revert s. induction n as [|n IH]; intros [|c s]; simpl; try lia.
  specialize (IH s). lia.
Qed.

Lemma js_slice0_bounded (v r : value) (n : nat) :
  js_slice0 v n = Normal r -> exists len, js_length r = Some len /\ len <= n.
Proof.
  destruct v; simpl; intros E; inversion E; subst; simpl; eexists; split;
    try reflexivity.
  - apply substring_length_le.
  - rewrite length_firstn. lia.
Qed.

(** A failed [String(v)] raises the conversion error, and nothing else. *)
Lemma ToString_throw {engine : Engine} :
  forall (v e : value), ToString v = Throw e -> e = cannot_convert.
Proof.
  fix IH 1. intros v e. destruct v as [ | | b | n | s | elems | ps | en msg | ]; cbn;
    try discriminate.
  - destruct b; discriminate.
  - induction elems as [|a rest IHl]; cbn; [discriminate|].
    destruct (match a with VUndefined | VNull => Normal "" | _ => ToString a end)
      as [sa|ea] eqn:Ea; cbn.
    + destruct (sequenceC _) as [parts|e'] eqn:Es; cbn in *; [discriminate|].
      intros E. apply IHl. exact E.
    + intros E. injection E as <-.
      assert (Ha : ToString a = Throw ea) by (destruct a; try discriminate Ea; exact Ea).
      exact (IH a ea Ha).
  - destruct (has_key "toString" ps); [|discriminate]. congruence.
Qed.

Lemma prop_lookup_set_same {A} (k : string) (v : A) (ps : list (string * A)) :
  prop_lookup k (set_prop k v ps) = Some v.
Proof.
  induction ps as [|[k' v'] ps IH]; simpl.
  - now rewrite String.eqb_refl.
  - destruct (String.eqb k k') eqn:E; simpl; rewrite E; auto.
Qed.

Lemma prop_lookup_set_other {A} (k k0 : string) (v : A) (ps : list (string * A)) :
  k0 <> k -> prop_lookup k0 (set_prop k v ps) = prop_lookup k0 ps.
Proof.
  intros Hne. induction ps as [|[k' v'] ps IH]; simpl.
  - destruct (String.eqb k0 k) eqn:E; [apply String.eqb_eq in E; congruence | reflexivity].
  - destruct (String.eqb k k') eqn:E; simpl.
    + apply String.eqb_eq in E. subst k'.
      destruct (String.eqb k0 k) eqn:E0; [|reflexivity].
      apply String.eqb_eq in E0. congruence.
    + now rewrite IH.
Qed.

Lemma keys_set_prop_in {A} (k k0 : string) (v : A) (ps : list (string * A)) :
  In k0 (keys (set_prop k v ps)) <-> k0 = k \/ In k0 (keys ps).
Proof.
  unfold keys. induction ps as [|[k' v'] ps IH]; simpl.
  - intuition congruence.
  - destruct (String.eqb k k') eqn:E; simpl.
    + apply String.eqb_eq in E. subst k'. intuition congruence.
    + rewrite IH. intuition congruence.
Qed.

Lemma NoDup_keys_set_prop {A} (k : string) (v : A) (ps : list (string * A)) :
  NoDup (keys ps) -> NoDup (keys (set_prop k v ps)).
Proof.
  unfold keys. induction ps as [|[k' v'] ps IH]; simpl; intros Hnd.
  - constructor; [intros []|constructor].
  - inversion Hnd as [|? ? Hni Hnd']; subst.
    destruct (String.eqb k k') eqn:E; simpl.
    + constructor; assumption.
    + constructor; [|auto].
      intros Hin. apply (keys_set_prop_in k k' v ps) in Hin.
      destruct Hin as [->|Hin]; [|contradiction].
      rewrite String.eqb_refl in E. discriminate.
Qed.

Lemma prop_lookup_in_keys {A} (k : string) (ps : list (string * A)) :
  In k (keys ps) <-> exists v, prop_lookup k ps = Some v.
Proof.
  unfold keys. induction ps as [|[k' v'] ps IH]; simpl.
  - split; [intros []|intros [v E]; discriminate].
  - destruct (String.eqb k k') eqn:E.
    + apply String.eqb_eq in E. subst. split; eauto.
    + rewrite <- IH. split; [intros [->|]; auto|auto].
      rewrite String.eqb_refl in E. discriminate.
Qed.

(** ** The score-shape adapter *)

Section AdapterFacts.
Context {engine : Engine}.
Import Protocol.

Ltac adapter_cases :=
  repeat (rewrite array_index_nondigit by reflexivity);
  cbn; unfold obj_get;
  repeat match goal with
         | |- context [match prop_lookup ?k ?ps with _ => _ end] =>
             destruct (prop_lookup k ps) eqn:?; cbn
         | |- context [if String.eqb (typeof ?x) ?t then _ else _] =>
             destruct (String.eqb (typeof x) t) eqn:?; cbn
         | |- context [if has_key ?k ?ps then _ else _] =>
             destruct (has_key k ps) eqn:?; cbn
         end.

Lemma isScore_total (v : value) : exists b, isScore v = Normal b.
Proof. unfold isScore. destruct v; cbn; adapter_cases; eauto. Qed.

Lemma isAutoEvalsResult_total (v : value) : exists b, isAutoEvalsResult v = Normal b.
Proof. unfold isAutoEvalsResult. destruct v; cbn; adapter_cases; eauto. Qed.

Lemma isPhoenixEvalsResult_total (v : value) :
  exists b, isPhoenixEvalsResult v = Normal b.
Proof. unfold isPhoenixEvalsResult. destruct v; cbn; adapter_cases; eauto. Qed.

Lemma typeof_string_inv (v : value) :
  String.eqb (typeof v) "string" = true -> exists s, v = VStr s.
Proof. destruct v; cbn; try discriminate. eauto. Qed.

(** The recogniser of the source accepts exactly the canonical shape. *)
Lemma isScore_canonical_shape (v : value) :
  isScore v = Normal true <-> canonical_shape v.
Proof.
  unfold canonical_shape. split.
  - unfold isScore. destruct v; cbn; try discriminate.
    + rewrite array_index_nondigit by reflexivity. cbn. discriminate.
    + unfold obj_get.
      destruct (prop_lookup "name" props0) as [x|] eqn:En; cbn; [|discriminate].
      destruct (String.eqb (typeof x) "string") eqn:Et; cbn; [|discriminate].
      apply typeof_string_inv in Et. destruct Et as [nm ->].
      intros E. exists props0, nm. repeat split; auto.
      destruct (has_key "value" props0); [left; reflexivity | right].
      congruence.
  - intros (ps & nm & -> & En & Hk). unfold isScore. cbn. unfold obj_get.
    rewrite En. cbn.
    destruct Hk as [-> | ->]; [reflexivity|].
    destruct (has_key "value" ps); reflexivity.
Qed.

Lemma adaptScore_isScore (scorerName : string) (v : value) :
  isScore v = Normal true -> adaptScore scorerName v = Normal v.
Proof. intros E. unfold adaptScore. rewrite E. reflexivity. Qed.

(** Outside the last rule the adapter never converts the raw value. *)
Lemma adaptScore_fallback (scorerName : string) (raw : value) :
  String.eqb (typeof raw) "number" || dict_like raw = false ->
  adaptScore scorerName raw
  = match ToString raw with
    | Normal text => Normal (fallbackScore scorerName text)
    | Throw e => Throw e
    end.
Proof.
  unfold dict_like.
  destruct raw as [ | | b | n | s | elems | ps | en msg | ]; cbn; try discriminate;
    intros _; try reflexivity; try (destruct b; reflexivity).
  unfold adaptScore, isScore, isAutoEvalsResult, isPhoenixEvalsResult. cbn.
  repeat (rewrite array_index_nondigit by reflexivity; cbn).
  destruct (sequenceC _); reflexivity.
Qed.

(** Outside rule 1 the adapter builds a fresh object whose first property is
    [name], bound to the scorer's name; only the conversion of the last rule
    can fail. *)
Lemma adaptScore_fresh (scorerName : string) (raw : value) :
  isScore raw = Normal false ->
  (exists rest,
     adaptScore scorerName raw = Normal (VObj (("name", VStr scorerName) :: rest))) \/
  (String.eqb (typeof raw) "number" || dict_like raw = false /\
   ToString raw = Throw cannot_convert /\
   adaptScore scorerName raw = Throw cannot_convert).
Proof.
  intros E.
  destruct (String.eqb (typeof raw) "number" || dict_like raw) eqn:Eg.
  - left. unfold adaptScore. rewrite E. cbn.
    destruct (isAutoEvalsResult_total raw) as [[|] E2]; rewrite E2; cbn.
    + unfold isAutoEvalsResult in E2. destruct raw; cbn in *; try discriminate;
        repeat (rewrite array_index_nondigit by reflexivity); cbn; eauto.
    + destruct (isPhoenixEvalsResult_total raw) as [[|] E3]; rewrite E3; cbn.
      * unfold isPhoenixEvalsResult in E3. destruct raw; cbn in *; try discriminate;
          repeat (rewrite array_index_nondigit by reflexivity); cbn; eauto.
      * unfold dict_like in Eg. destruct raw; cbn in *; try discriminate; eauto.
  - rewrite (adaptScore_fallback scorerName raw Eg).
    destruct (ToString raw) as [text|e] eqn:Et.
    + left. unfold fallbackScore. eauto.
    + right. apply ToString_throw in Et as He. subst e. auto.
Qed.

(** Whatever the adapter returns is an object with a textual [name]. *)
Lemma adaptScore_object (scorerName : string) (raw s : value) :
  adaptScore scorerName raw = Normal s ->
  exists ps nm, s = VObj ps /\ prop_lookup "name" ps = Some (VStr nm).
Proof.
  intros Ea. destruct (isScore_total raw) as [[|] E].
  - pose proof E as Hs. apply isScore_canonical_shape in Hs.
    destruct Hs as (ps & nm & -> & En & _).
    rewrite (adaptScore_isScore scorerName _ E) in Ea. injection Ea as <-.
    exists ps, nm. now split.
  - destruct (adaptScore_fresh scorerName raw E) as [[rest Er]|(_ & _ & Er)];
      rewrite Er in Ea; [|discriminate].
    injection Ea as <-.
    exists (("name", VStr scorerName) :: rest), scorerName. now split.
Qed.

(** The adapter throws only in its last rule, when the raw value cannot be
    rendered. *)
Lemma adaptScore_throw (scorerName : string) (raw e : value) :
  adaptScore scorerName raw = Throw e ->
  e = cannot_convert /\
  String.eqb (typeof raw) "number" || dict_like raw = false /\
  ToString raw = Throw cannot_convert.
Proof.
  intros Ea. destruct (isScore_total raw) as [[|] E].
  - rewrite (adaptScore_isScore scorerName _ E) in Ea. discriminate.
  - destruct (adaptScore_fresh scorerName raw E) as [[rest Er]|(Hg & Ht & Er)];
      rewrite Er in Ea; [discriminate|].
    injection Ea as <-. auto.
Qed.

(** C7. The adapter is idempotent on canonical Scores: a value that has the
    canonical shape (a textual [name] and at least one of the keys [value],
    [label]) is returned unchanged, whatever the scorer name. *)
Theorem adaptScore_canonical_unchanged (scorerName : string) (v : value) :
  canonical_shape v -> adaptScore scorerName v = Normal v.
Proof. intros Hc. apply adaptScore_isScore. now apply isScore_canonical_shape. Qed.

(** C10. Shape recognition tests key presence, not definedness: an object
    with a textual [name] and a [value] (or [label]) key that stores
    [undefined] is returned unchanged although it carries neither a defined
    [value] nor a defined [label]. *)
Theorem adaptScore_undefined_key_unchanged
    (scorerName nm : string) (ps : props) :
  prop_lookup "name" ps = Some (VStr nm) ->
  prop_lookup "value" ps = Some VUndefined \/ prop_lookup "label" ps = Some VUndefined ->
  adaptScore scorerName (VObj ps) = Normal (VObj ps).
Proof.
  intros En Hk. apply adaptScore_isScore, isScore_canonical_shape.
  exists ps, nm. split; [reflexivity|]. split; [assumption|].
  unfold has_key. destruct Hk as [-> | ->]; auto.
Qed.

(** C1 (amended). A raw result that already has the canonical Score shape
    is handed back as is, with whatever name it embeds.  For every other raw
    result, every Score the adapter returns is an object that carries the
    scorer's declared name, and the adapter returns one whenever the raw
    result is a number or a non-array object, or can be rendered as a
    string. *)
Theorem adaptScore_name_when_not_score (scorerName : string) (raw : value) :
  (canonical_shape raw -> adaptScore scorerName raw = Normal raw) /\
  (~ canonical_shape raw ->
   (forall s,
      adaptScore scorerName raw = Normal s ->
      exists ps, s = VObj ps /\ js_get s "name" = Normal (VStr scorerName)) /\
   (String.eqb (typeof raw) "number" || dict_like raw = true \/
    (exists text, ToString raw = Normal text) ->
    exists s, adaptScore scorerName raw = Normal s)).
Proof.
  split.
  - intros Hc. apply adaptScore_isScore. now apply isScore_canonical_shape.
  - intros Hn.
    assert (E : isScore raw = Normal false).
    { destruct (isScore_total raw) as [[|] E]; [|exact E].
      exfalso. apply Hn. now apply isScore_canonical_shape. }
    destruct (adaptScore_fresh scorerName raw E) as [[rest Er]|(Hg & Ht & Er)].
    + split.
      * intros s Es. rewrite Er in Es. injection Es as <-.
        eexists. split; reflexivity.
      * intros _. eauto.
    + split.
      * intros s Es. rewrite Er in Es. discriminate.
      * intros [Hg'|[text Ht']]; [congruence|]. rewrite Ht in Ht'. discriminate.
Qed.

End AdapterFacts.

(** Witnesses and counterexamples for the adapter, on the reference engine. *)

Lemma adaptScore_canonical_unchanged_witness :
  Protocol.adaptScore (engine := example_engine) "exact_match"
    (VObj [("name", VStr "exact_match"); ("value", VNum 1)])
  = Normal (VObj [("name", VStr "exact_match"); ("value", VNum 1)]).
Proof.
  apply (adaptScore_canonical_unchanged (engine := example_engine)).
  exists [("name", VStr "exact_match"); ("value", VNum 1%float)], "exact_match".
  repeat split. left. reflexivity.
Defined.

Lemma adaptScore_undefined_key_unchanged_witness :
  Protocol.adaptScore (engine := example_engine) "s"
    (VObj [("name", VStr "x"); ("value", VUndefined)])
  = Normal (VObj [("name", VStr "x"); ("value", VUndefined)]).
Proof.
  apply (adaptScore_undefined_key_unchanged (engine := example_engine) "s" "x").
  - reflexivity.
  - left. reflexivity.
Defined.

Lemma adaptScore_name_when_not_score_witness :
  exists ps,
    Protocol.adaptScore (engine := example_engine) "quality" (VNum 1) = Normal (VObj ps) /\
    js_get (VObj ps) "name" = Normal (VStr "quality").
Proof.
  destruct (adaptScore_name_when_not_score (engine := example_engine) "quality" (VNum 1))
    as [_ Hn].
  destruct Hn as [Hname Hret].
  { intros (ps & nm & E & _). discriminate E. }
  destruct Hret as [s Es]; [left; reflexivity|].
  destruct (Hname s Es) as (ps & -> & Hnm).
  exists ps. split; [exact Es | exact Hnm].
Defined.

(** C1 as stated fails: a raw result that already has the Score shape keeps
    the name it embeds, here ["other"], not the scorer's ["relevance"]. *)
Lemma adaptScore_embedded_name_wins :
  exists s,
    Protocol.adaptScore (engine := example_engine) "relevance"
      (VObj [("name", VStr "other"); ("value", VNum 1)]) = Normal s /\
    js_get s "name" = Normal (VStr "other") /\
    js_get s "name" <> Normal (VStr "relevance").
Proof.
  eexists. split; [reflexivity|]. split; [reflexivity|]. intros E. cbv in E. discriminate E.
Qed.

(** An array that holds an object with an own [toString] property: a raw
    value that [String()] cannot render. *)
Example unconvertible_array_rendering :
  ToString (engine := example_engine) (VArr [VObj [("toString", VNum 1)]])
  = Throw cannot_convert.
Proof. reflexivity. Qed.

(** C5 fails on the code: for the raw value [[{toString: 1}]] no rule before
    the last applies, and the conversion [String(result)] of the last rule
    throws a [TypeError] out of the adapter. *)
Theorem adaptScore_throws_on_unconvertible :
  Protocol.adaptScore (engine := example_engine) "s" (VArr [VObj [("toString", VNum 1)]])
  = Throw (TypeError "Cannot convert object to primitive value").
Proof. reflexivity. Qed.
(** ** Reasoning rules for computations *)

Section SpecRules.
Context {engine : Engine} {World Span : Type}.
Variable host : Host World Span.

Lemma spec_conseq {A} (c : M World Span A) (Q Q' : A -> list (Event Span) -> Prop)
    (E E' : value -> list (Event Span) -> Prop) :
  spec c Q E ->
  (forall a t, Q a t -> Q' a t) -> (forall e t, E e t -> E' e t) ->
  spec c Q' E'.
Proof.
  intros Hc HQ HE w. specialize (Hc w).
  destruct (c w) as [[[a|e] w1] t]; auto.
Qed.

Lemma spec_and {A} (c : M World Span A) Q1 Q2 E1 E2 :
  spec c Q1 E1 -> spec c Q2 E2 ->
  spec c (fun a t => Q1 a t /\ Q2 a t) (fun e t => E1 e t /\ E2 e t).
Proof.
  intros H1 H2 w. specialize (H1 w). specialize (H2 w).
  destruct (c w) as [[[a|e] w1] t]; now split.
Qed.

Lemma spec_ret {A} (a : A) Q E : Q a [] -> spec (World := World) (Span := Span) (ret a) Q E.
Proof. intros HQ w. exact HQ. Qed.

Lemma spec_lift {A} (c : Completion A) Q E :
  match c with Normal a => Q a [] | Throw e => E e [] end ->
  spec (World := World) (Span := Span) (lift c) Q E.
Proof. intros Hc w. unfold lift. destruct c; exact Hc. Qed.

Lemma spec_bind {A B} (c : M World Span A) (k : A -> M World Span B)
    (P : A -> list (Event Span) -> Prop) Q E :
  spec c P E ->
  (forall a t1, P a t1 ->
     spec (k a) (fun b t2 => Q b (t1 ++ t2)) (fun e t2 => E e (t1 ++ t2))) ->
  spec (bind c k) Q E.
Proof.
  intros Hc Hk w. unfold bind. specialize (Hc w).
  destruct (c w) as [[[a|e] w1] t1]; [|exact Hc].
  specialize (Hk a t1 Hc w1).
  destruct (k a w1) as [[[b|e] w2] t2]; exact Hk.
Qed.

Lemma spec_try_catch {A} (body : M World Span A) (handler : value -> M World Span A)
    (EB : value -> list (Event Span) -> Prop) Q E :
  spec body Q EB ->
  (forall e t1, EB e t1 ->
     spec (handler e) (fun a t2 => Q a (t1 ++ t2)) (fun e' t2 => E e' (t1 ++ t2))) ->
  spec (try_catch body handler) Q E.
Proof.
  intros Hb Hh w. unfold try_catch. specialize (Hb w).
  destruct (body w) as [[[a|e] w1] t1]; [exact Hb|].
  specialize (Hh e t1 Hb w1).
  destruct (handler e w1) as [[[b|e'] w2] t2]; exact Hh.
Qed.

Lemma spec_attempt {A} (body : M World Span A) Q E :
  spec body (fun a t => Q (Normal a) t) (fun e t => Q (Throw e) t) ->
  spec (attempt body) Q E.
Proof.
  intros Hb w. unfold attempt. specialize (Hb w).
  destruct (body w) as [[[a|e] w1] t1]; exact Hb.
Qed.

Lemma spec_startActiveSpan {A} tracer spanName attributes
    (fn : Span -> M World Span A) Q E :
  (forall span,
     spec (fn span)
          (fun a t => Q a (EvStartSpan tracer spanName attributes span :: t))
          (fun e t => E e (EvStartSpan tracer spanName attributes span :: t))) ->
  spec (startActiveSpan host tracer spanName attributes fn) Q E.
Proof.
  intros Hf w. unfold startActiveSpan.
  destruct (startSpan host tracer spanName attributes w) as [span w1].
  specialize (Hf span w1).
  destruct (fn span w1) as [[[a|e] w2] t]; exact Hf.
Qed.

Lemma spec_setAttribute span key v Q E :
  Q tt [EvSetAttribute span key v] -> spec (span_setAttribute host span key v) Q E.
Proof. intros HQ w. exact HQ. Qed.

Lemma spec_setStatus span msg Q E :
  Q tt [EvSetStatus span msg] -> spec (span_setStatus host span msg) Q E.
Proof. intros HQ w. exact HQ. Qed.

Lemma spec_recordException span err Q E :
  Q tt [EvRecordException span err] -> spec (span_recordException host span err) Q E.
Proof. intros HQ w. exact HQ. Qed.

Lemma spec_span_end span Q E :
  Q tt [EvSpanEnd span] -> spec (span_end host span) Q E.
Proof. intros HQ w. exact HQ. Qed.

Lemma spec_spanContext span Q E :
  (forall ctx, Q ctx []) -> spec (span_spanContext host span) Q E.
Proof.
  intros HQ w. unfold span_spanContext.
  destruct (spanContext host span w) as [ctx w1]. apply HQ.
Qed.

Lemma spec_warn msg Q E : Q tt [EvWarn msg] -> spec (warn host msg) Q E.
Proof. intros HQ w. exact HQ. Qed.

Lemma spec_read_env Q E :
  (forall o, Q o []) -> spec (read_env_project host) Q E.
Proof. intros HQ w. apply HQ. Qed.

Lemma spec_bind_ret {A B} (a : A) (k : A -> M World Span B) Q E :
  spec (k a) Q E -> spec (bind (ret a) k) Q E.
Proof.
  intros Hk w. unfold bind, ret. specialize (Hk w).
  destruct (k a w) as [[[b|e] w1] t]; exact Hk.
Qed.

Lemma spec_bind_lift {A B} (c : Completion A) (k : A -> M World Span B) Q E :
  match c with
  | Normal a => spec (k a) Q E
  | Throw e => E e []
  end ->
  spec (bind (lift c) k) Q E.
Proof.
  intros Hk w. unfold bind, lift. destruct c as [a|e]; [|exact Hk].
  specialize (Hk w). destruct (k a w) as [[[b|e] w1] t]; exact Hk.
Qed.

Lemma spec_bind_span_end {B} span (k : unit -> M World Span B) Q E :
  spec (k tt) (fun b t => Q b (EvSpanEnd span :: t))
              (fun e t => E e (EvSpanEnd span :: t)) ->
  spec (bind (span_end host span) k) Q E.
Proof.
  intros Hk w. unfold bind, span_end. specialize (Hk (spanEnd host span w)).
  destruct (k tt (spanEnd host span w)) as [[[b|e] w1] t]; exact Hk.
Qed.

Lemma spec_bind_setAttribute {B} span key v (k : unit -> M World Span B) Q E :
  spec (k tt) (fun b t => Q b (EvSetAttribute span key v :: t))
              (fun e t => E e (EvSetAttribute span key v :: t)) ->
  spec (bind (span_setAttribute host span key v) k) Q E.
Proof.
  intros Hk w. unfold bind, span_setAttribute.
  specialize (Hk (setAttribute host span key v w)).
  destruct (k tt (setAttribute host span key v w)) as [[[b|e] w1] t]; exact Hk.
Qed.

Lemma spec_bind_setStatus {B} span msg (k : unit -> M World Span B) Q E :
  spec (k tt) (fun b t => Q b (EvSetStatus span msg :: t))
              (fun e t => E e (EvSetStatus span msg :: t)) ->
  spec (bind (span_setStatus host span msg) k) Q E.
Proof.
  intros Hk w. unfold bind, span_setStatus.
  specialize (Hk (setStatus host span msg w)).
  destruct (k tt (setStatus host span msg w)) as [[[b|e] w1] t]; exact Hk.
Qed.

Lemma spec_bind_recordException {B} span err (k : unit -> M World Span B) Q E :
  spec (k tt) (fun b t => Q b (EvRecordException span err :: t))
              (fun e t => E e (EvRecordException span err :: t)) ->
  spec (bind (span_recordException host span err) k) Q E.
Proof.
  intros Hk w. unfold bind, span_recordException.
  specialize (Hk (recordException host span err w)).
  destruct (k tt (recordException host span err w)) as [[[b|e] w1] t]; exact Hk.
Qed.

Lemma spec_bind_warn {B} msg (k : unit -> M World Span B) Q E :
  spec (k tt) (fun b t => Q b (EvWarn msg :: t))
              (fun e t => E e (EvWarn msg :: t)) ->
  spec (bind (warn host msg) k) Q E.
Proof.
  intros Hk w. unfold bind, warn.
  specialize (Hk (console_warn host msg w)).
  destruct (k tt (console_warn host msg w)) as [[[b|e] w1] t]; exact Hk.
Qed.

End SpecRules.

(** ** Projections of a trace *)

Section TraceFacts.
Context {Span : Type}.
Implicit Types t : list (Event Span).

Lemma task_outcomes_app q t1 t2 :
  task_outcomes q (t1 ++ t2) = task_outcomes q t1 ++ task_outcomes q t2.
Proof. apply flat_map_app. Qed.

Lemma scorer_calls_app q t1 t2 :
  scorer_calls q (t1 ++ t2) = scorer_calls q t1 ++ scorer_calls q t2.
Proof. apply flat_map_app. Qed.

Lemma scorer_inputs_app q t1 t2 :
  scorer_inputs q (t1 ++ t2) = scorer_inputs q t1 ++ scorer_inputs q t2.
Proof. apply flat_map_app. Qed.

Lemma submitted_app q t1 t2 :
  submitted q (t1 ++ t2) = submitted q t1 ++ submitted q t2.
Proof. apply flat_map_app. Qed.

Lemma started_spans_app t1 t2 :
  started_spans (t1 ++ t2) = started_spans t1 ++ started_spans t2.
Proof. apply flat_map_app. Qed.

Lemma ended_spans_app t1 t2 : ended_spans (t1 ++ t2) = ended_spans t1 + ended_spans t2.
Proof. unfold ended_spans. now rewrite filter_app, length_app. Qed.

(** A span start or end belongs to no item. *)
Lemma proj_start q t tracer spanName attributes (span : Span) :
  task_outcomes q (EvStartSpan tracer spanName attributes span :: t) = task_outcomes q t /\
  scorer_calls q (EvStartSpan tracer spanName attributes span :: t) = scorer_calls q t /\
  scorer_inputs q (EvStartSpan tracer spanName attributes span :: t) = scorer_inputs q t /\
  submitted q (EvStartSpan tracer spanName attributes span :: t) = submitted q t /\
  started_spans (EvStartSpan tracer spanName attributes span :: t)
  = spanName :: started_spans t /\
  ended_spans (EvStartSpan tracer spanName attributes span :: t) = ended_spans t.
Proof. repeat split. Qed.

Lemma task_outcomes_start q tracer spanName attributes (span : Span) t :
  task_outcomes q (EvStartSpan tracer spanName attributes span :: t) = task_outcomes q t.
Proof. reflexivity. Qed.

Lemma scorer_calls_start q tracer spanName attributes (span : Span) t :
  scorer_calls q (EvStartSpan tracer spanName attributes span :: t) = scorer_calls q t.
Proof. reflexivity. Qed.

Lemma scorer_inputs_start q tracer spanName attributes (span : Span) t :
  scorer_inputs q (EvStartSpan tracer spanName attributes span :: t) = scorer_inputs q t.
Proof. reflexivity. Qed.

Lemma submitted_start q tracer spanName attributes (span : Span) t :
  submitted q (EvStartSpan tracer spanName attributes span :: t) = submitted q t.
Proof. reflexivity. Qed.

Lemma started_spans_start tracer spanName attributes (span : Span) t :
  started_spans (EvStartSpan tracer spanName attributes span :: t)
  = spanName :: started_spans t.
Proof. reflexivity. Qed.

Lemma ended_spans_start tracer spanName attributes (span : Span) t :
  ended_spans (EvStartSpan tracer spanName attributes span :: t) = ended_spans t.
Proof. reflexivity. Qed.

Lemma task_outcomes_end q (span : Span) : task_outcomes q [EvSpanEnd span] = [].
Proof. reflexivity. Qed.

Lemma scorer_calls_end q (span : Span) : scorer_calls q [EvSpanEnd span] = [].
Proof. reflexivity. Qed.

Lemma scorer_inputs_end q (span : Span) : scorer_inputs q [EvSpanEnd span] = [].
Proof. reflexivity. Qed.

Lemma submitted_end q (span : Span) : submitted q [EvSpanEnd span] = [].
Proof. reflexivity. Qed.

Lemma started_spans_end (span : Span) : started_spans [EvSpanEnd span] = [].
Proof. reflexivity. Qed.

Lemma ended_spans_end (span : Span) : ended_spans [EvSpanEnd span] = 1.
Proof. reflexivity. Qed.

Lemma no_item_call_app t1 t2 : no_item_call t1 -> no_item_call t2 -> no_item_call (t1 ++ t2).
Proof.
  intros H1 H2 q. rewrite task_outcomes_app, scorer_calls_app, scorer_inputs_app,
    submitted_app.
  destruct (H1 q) as (-> & -> & -> & ->), (H2 q) as (-> & -> & -> & ->). auto.
Qed.

Lemma silent_nil : silent (@nil (Event Span)).
Proof. repeat split. Qed.

Lemma silent_app t1 t2 : silent t1 -> silent t2 -> silent (t1 ++ t2).
Proof.
  intros (H1 & Hs1 & He1) (H2 & Hs2 & He2). split; [now apply no_item_call_app|].
  rewrite started_spans_app, ended_spans_app, Hs1, Hs2, He1, He2. now split.
Qed.

Lemma silent_attribute (span : Span) key v : silent [EvSetAttribute span key v].
Proof. repeat split. Qed.

Lemma silent_status (span : Span) msg : silent [EvSetStatus span msg].
Proof. repeat split. Qed.

Lemma silent_exception (span : Span) err : silent [EvRecordException span err].
Proof. repeat split. Qed.

Lemma silent_warn msg : silent [@EvWarn Span msg].
Proof. repeat split. Qed.

Lemma silent_cons (ev : Event Span) t : silent [ev] -> silent t -> silent (ev :: t).
Proof. intros H1 H2. change (ev :: t) with ([ev] ++ t). now apply silent_app. Qed.

End TraceFacts.

Create HintDb silent.
Create Rewrite HintDb proj.
#[local] Hint Rewrite @task_outcomes_app @scorer_calls_app @scorer_inputs_app
  @submitted_app @started_spans_app @ended_spans_app
  @task_outcomes_start @scorer_calls_start @scorer_inputs_start @submitted_start
  @started_spans_start @ended_spans_start
  @task_outcomes_end @scorer_calls_end @scorer_inputs_end @submitted_end
  @started_spans_end @ended_spans_end : proj.
#[local] Hint Resolve silent_nil silent_app silent_attribute silent_status
  silent_exception silent_warn silent_cons : silent.

(** ** Recording scores *)

Lemma js_assign_cases {A} (k : string) (v : A) (ps : list (string * A)) :
  js_assign k v ps = ps \/ js_assign k v ps = set_prop k v ps.
Proof. unfold js_assign. destruct (_ && _); auto. Qed.

Lemma js_assign_plain {A} (k : string) (v : A) (ps : list (string * A)) :
  String.eqb k "__proto__" = false -> js_assign k v ps = set_prop k v ps.
Proof. intros E. unfold js_assign. now rewrite E. Qed.

Lemma has_key_in_keys {A} (k : string) (ps : list (string * A)) :
  has_key k ps = true <-> In k (keys ps).
Proof.
  unfold has_key. rewrite prop_lookup_in_keys.
  destruct (prop_lookup k ps); split; eauto; try discriminate. intros [v E]. discriminate.
Qed.

Lemma member_not_proto (k : string) :
  includes Object_prototype_members k = false -> String.eqb k "__proto__" = false.
Proof.
  destruct (String.eqb_spec k "__proto__") as [->|]; [discriminate | reflexivity].
Qed.

Lemma record_call_cases {engine : Engine} (scores : props)
    (call : string * Completion value) :
  record_call scores call = scores \/
  exists raw scoreObj,
    snd call = Normal raw /\
    Protocol.adaptScore (fst call) raw = Normal scoreObj /\
    record_call scores call = set_prop (fst call) scoreObj scores.
Proof.
  destruct call as [k [raw|e]]; unfold record_call; cbn; [|now left].
  destruct (Protocol.adaptScore k raw) as [scoreObj|e] eqn:Ea; [|now left].
  destruct (js_assign_cases k scoreObj scores) as [->| ->]; [now left|].
  right. exists raw, scoreObj. auto.
Qed.

Lemma record_call_wf {engine : Engine} (scores : props)
    (call : string * Completion value) :
  scores_wf scores -> scores_wf (record_call scores call).
Proof.
  intros [Hnd Hobj].
  destruct (record_call_cases scores call) as [->|(raw & scoreObj & _ & Ea & ->)];
    [now split|].
  split; [now apply NoDup_keys_set_prop|].
  destruct (adaptScore_object _ _ _ Ea) as (ps & nm & -> & _). clear Hnd Ea.
  induction scores as [|[k' v'] rest IH]; cbn.
  - constructor; [cbn; eauto | constructor].
  - inversion Hobj as [|? ? Hv Hrest]; subst.
    destruct (String.eqb (fst call) k'); constructor; cbn; eauto.
Qed.

Lemma fold_record_call_wf {engine : Engine}
    (calls : list (string * Completion value)) (scores : props) :
  scores_wf scores -> scores_wf (fold_left record_call calls scores).
Proof.
  revert scores. induction calls as [|c calls IH]; cbn; intros scores Hwf; auto.
  apply IH. now apply record_call_wf.
Qed.

(** Every recorded key is the name of an invocation that returned. *)
Lemma fold_record_call_keys {engine : Engine}
    (calls : list (string * Completion value)) (acc : props) (k : string) :
  In k (keys (fold_left record_call calls acc)) ->
  In k (keys acc) \/ exists raw, In (k, Normal raw) calls.
Proof.
  revert acc. induction calls as [|call calls IH]; intros acc; cbn [fold_left].
  - auto.
  - intros Hk. apply IH in Hk. destruct Hk as [Hk|[raw Hk]]; [|right; exists raw; now right].
    destruct (record_call_cases acc call) as [E|(raw & scoreObj & Ec & _ & E)];
      rewrite E in Hk; [now left|].
    apply keys_set_prop_in in Hk. destruct Hk as [->|Hk]; [|now left].
    right. exists raw. left. destruct call as [k' c]. cbn in *. now subst.
Qed.

(** An assignment to [__proto__] never becomes a key. *)
Lemma fold_record_call_no_proto {engine : Engine}
    (calls : list (string * Completion value)) (acc : props) :
  ~ In "__proto__" (keys acc) ->
  ~ In "__proto__" (keys (fold_left record_call calls acc)).
Proof.
  revert acc. induction calls as [|[k c] calls IH]; intros acc Hn; cbn [fold_left];
    [exact Hn|].
  apply IH. unfold record_call. cbn [fst snd].
  destruct c as [raw|e]; [|exact Hn].
  destruct (Protocol.adaptScore k raw) as [scoreObj|e]; [|exact Hn].
  unfold js_assign. destruct (String.eqb_spec k "__proto__") as [->|Hne]; cbn [andb].
  - destruct (has_key "__proto__" acc) eqn:Eh; cbn [negb]; [|exact Hn].
    apply has_key_in_keys in Eh. contradiction.
  - intros Hin. apply keys_set_prop_in in Hin. destruct Hin as [Hin|Hin]; congruence.
Qed.

(** ** The averaging pass *)

Section Averages.
Context {engine : Engine}.
Import Evaluate.

Lemma ToPrimitive_throw (v e : value) : ToPrimitive v = Throw e -> e = cannot_convert.
Proof.
  unfold ToPrimitive.
  destruct v; try discriminate;
    match goal with
    | |- context [ToString ?x] =>
        destruct (ToString x) eqn:Et; cbn [bindC]; [discriminate|];
        intros E; injection E as <-; exact (ToString_throw _ _ Et)
    end.
Qed.

Lemma ToPrimitive_primitive (v p : value) :
  ToPrimitive v = Normal p ->
  match p with
  | VArr _ | VObj _ | VError _ _ | VPromise => False
  | _ => True
  end.
Proof.
  unfold ToPrimitive.
  destruct v as [ | | b | n | s | elems | ps | en msg | ];
    try (intros E; injection E as <-; exact I).
  - destruct (ToString (VArr elems)); cbn [bindC]; [|discriminate].
    intros E; injection E as <-. exact I.
  - destruct (ToString (VObj ps)); cbn [bindC]; [|discriminate].
    intros E; injection E as <-. exact I.
Qed.

Lemma ToNumber_throw (v e : value) : ToNumber v = Throw e -> e = cannot_convert.
Proof.
  unfold ToNumber. destruct (ToPrimitive v) eqn:Ep; cbn; [discriminate|].
  intros E; injection E as <-. exact (ToPrimitive_throw _ _ Ep).
Qed.

Lemma js_add_throw (a b e : value) : js_add a b = Throw e -> e = cannot_convert.
Proof.
  unfold js_add.
  destruct (ToPrimitive a) as [pa|ea] eqn:Ea; cbn [bindC];
    [|intros E; injection E as <-; exact (ToPrimitive_throw _ _ Ea)].
  destruct (ToPrimitive b) as [pb|eb] eqn:Eb; cbn [bindC];
    [|intros E; injection E as <-; exact (ToPrimitive_throw _ _ Eb)].
  apply ToPrimitive_primitive in Ea, Eb.
  destruct pa; try contradiction; destruct pb; try contradiction; cbn;
    try discriminate;
    repeat match goal with
           | |- context [if ?b then _ else _] => destruct b; cbn
           end; discriminate.
Qed.

Lemma js_div_throw (a b e : value) : js_div a b = Throw e -> e = cannot_convert.
Proof.
  unfold js_div.
  destruct (ToNumber a) as [na|ea] eqn:Ea; cbn;
    [|intros E; injection E as <-; exact (ToNumber_throw _ _ Ea)].
  destruct (ToNumber b) as [nb|eb] eqn:Eb; cbn; [discriminate|].
  intros E; injection E as <-; exact (ToNumber_throw _ _ Eb).
Qed.

Lemma reduce_add_throw (values : list value) :
  forall acc e, reduce_add values acc = Throw e -> e = cannot_convert.
Proof.
  induction values as [|b rest IH]; intros acc e; cbn; [discriminate|].
  destruct (js_add acc b) as [acc'|e'] eqn:Ea; cbn.
  - apply IH.
  - intros E; injection E as <-. exact (js_add_throw _ _ _ Ea).
Qed.

Lemma average_throw (values : list value) (e : value) :
  average values = Throw e -> e = cannot_convert.
Proof.
  unfold average. destruct (reduce_add values _) as [sum|e'] eqn:Er; cbn.
  - apply js_div_throw.
  - intros E; injection E as <-. exact (reduce_add_throw _ _ _ Er).
Qed.

Lemma group_get_set_same (totals : list (string * list value)) (k : string)
    (vs : list value) :
  group_get (set_prop k vs totals) k = vs.
Proof. unfold group_get. now rewrite prop_lookup_set_same. Qed.

Lemma group_get_set_other (totals : list (string * list value)) (k s : string)
    (vs : list value) :
  k <> s -> group_get (set_prop k vs totals) s = group_get totals s.
Proof.
  intros Hne. unfold group_get. rewrite prop_lookup_set_other by congruence. reflexivity.
Qed.

(** One [push]: the value joins its group, or the read finds an inherited
    member and the call of its [push] raises. *)
Lemma push_total_spec (totals : list (string * list value)) (k : string) (v : value) :
  totals_ok totals ->
  match push_total totals k v with
  | Normal totals' =>
      totals_ok totals' /\
      forall s, group_get totals' s
                = if String.eqb k s then group_get totals k ++ [v] else group_get totals s
  | Throw e => exists msg, e = TypeError msg
  end.
Proof.
  intros (Hnd & Hmem & Hne). unfold push_total, totals_read.
  destruct (prop_lookup k totals) as [vs|] eqn:El.
  - rewrite El. split.
    + split; [now apply NoDup_keys_set_prop|]. split.
      * intros s Hs. apply keys_set_prop_in in Hs. destruct Hs as [->|Hs]; [|auto].
        apply Hmem. apply (prop_lookup_in_keys k totals). eauto.
      * intros s Hs. destruct (String.eqb_spec s k) as [->|Hsk].
        -- rewrite prop_lookup_set_same in Hs. destruct vs; discriminate.
        -- rewrite prop_lookup_set_other in Hs by assumption. now apply (Hne s).
    + intros s. destruct (String.eqb_spec k s) as [<-|Hks].
      * rewrite group_get_set_same. unfold group_get. now rewrite El.
      * now apply group_get_set_other.
  - destruct (includes Object_prototype_members k) eqn:Em.
    + rewrite El. eauto.
    + rewrite (js_assign_plain k [] totals (member_not_proto k Em)).
      rewrite prop_lookup_set_same. split.
      * split; [now repeat apply NoDup_keys_set_prop|]. split.
        -- intros s Hs. apply keys_set_prop_in in Hs. destruct Hs as [->|Hs]; [exact Em|].
           apply keys_set_prop_in in Hs. destruct Hs as [->|Hs]; [exact Em|auto].
        -- intros s Hs. destruct (String.eqb_spec s k) as [->|Hsk].
           ++ rewrite prop_lookup_set_same in Hs. discriminate.
           ++ rewrite !prop_lookup_set_other in Hs by assumption. now apply (Hne s).
      * intros s. destruct (String.eqb_spec k s) as [<-|Hks].
        -- rewrite group_get_set_same. unfold group_get. now rewrite El.
        -- rewrite !group_get_set_other by assumption. reflexivity.
Qed.

Lemma collect_scores_spec (entries : props) :
  Forall (fun kv => exists ps, snd kv = VObj ps) entries ->
  forall totals, totals_ok totals ->
  match collect_scores entries totals with
  | Normal totals' =>
      totals_ok totals' /\
      forall s, group_get totals' s = group_get totals s ++ entry_values s entries
  | Throw e => exists msg, e = TypeError msg
  end.
Proof.
  induction 1 as [|[k v] rest [ps Eps] Hrest IH]; intros totals Hok; cbn.
  - split; [exact Hok|]. intros s. now rewrite app_nil_r.
  - cbn in Eps. subst v. cbn.
    destruct (is_undefined (obj_get ps "value")) eqn:Eu; cbn.
    + specialize (IH totals Hok).
      destruct (collect_scores rest totals) as [totals'|e]; [|exact IH].
      destruct IH as [Hok' Hg]. split; [exact Hok'|].
      intros s. rewrite Hg. now destruct (String.eqb k s).
    + pose proof (push_total_spec totals k (obj_get ps "value") Hok) as Hp.
      destruct (push_total totals k (obj_get ps "value")) as [totals1|e]; cbn; [|exact Hp].
      destruct Hp as [Hok1 Hg1]. specialize (IH totals1 Hok1).
      destruct (collect_scores rest totals1) as [totals'|e]; [|exact IH].
      destruct IH as [Hok' Hg]. split; [exact Hok'|].
      intros s. rewrite Hg, Hg1.
      destruct (String.eqb_spec k s) as [<-|Hne].
      * now rewrite <- app_assoc.
      * reflexivity.
Qed.

Lemma entry_values_lookup (s : string) (entries : props) :
  NoDup (keys entries) ->
  entry_values s entries
  = match prop_lookup s entries with
    | Some scoreObj => defined_value scoreObj
    | None => []
    end.
Proof.
  unfold keys. induction entries as [|[k v] rest IH]; cbn; intros Hnd; [reflexivity|].
  inversion Hnd as [|? ? Hni Hnd']; subst.
  rewrite (String.eqb_sym s k).
  destruct (String.eqb_spec k s) as [<-|Hne].
  - assert (Hr : entry_values k rest = []).
    { rewrite IH by assumption.
      destruct (prop_lookup k rest) as [x|] eqn:El; [|reflexivity].
      exfalso. apply Hni. apply (prop_lookup_in_keys k rest). eauto. }
    unfold entry_values in Hr. rewrite Hr. now rewrite app_nil_r.
  - now apply IH.
Qed.

Lemma collect_totals_spec (rs : list EvalResult) :
  Forall (fun r => scores_wf (scores r)) rs ->
  forall totals, totals_ok totals ->
  match collect_totals rs totals with
  | Normal totals' =>
      totals_ok totals' /\
      forall s, group_get totals' s = group_get totals s ++ values_under s rs
  | Throw e => exists msg, e = TypeError msg
  end.
Proof.
  induction 1 as [|r rest [Hnd Hobj] Hrest IH]; intros totals Hok; cbn.
  - split; [exact Hok|]. intros s. now rewrite app_nil_r.
  - pose proof (collect_scores_spec (scores r) Hobj totals Hok) as H1.
    destruct (collect_scores (scores r) totals) as [t1|e]; cbn; [|exact H1].
    destruct H1 as [Hok1 Hg1]. specialize (IH t1 Hok1).
    destruct (collect_totals rest t1) as [t2|e]; [|exact IH].
    destruct IH as [Hok2 Hg2]. split; [exact Hok2|].
    intros s. rewrite Hg2, Hg1, <- app_assoc. f_equal. f_equal.
    now apply entry_values_lookup.
Qed.

(** The numeric case of [average]: the mean in double arithmetic. *)
Lemma reduce_add_numbers (ns : list float) (acc : float) :
  reduce_add (map VNum ns) (VNum acc) = Normal (VNum (fold_left PrimFloat.add ns acc)).
Proof. revert acc. induction ns as [|n ns IH]; intros acc; cbn; [reflexivity|apply IH]. Qed.

Lemma average_numbers (ns : list float) : average (map VNum ns) = Normal (mean ns).
Proof.
  unfold average, mean. rewrite reduce_add_numbers, length_map. reflexivity.
Qed.

End Averages.

(** ** The orchestrator, step by step *)

Section EvaluateFacts.
Context {engine : Engine} {World Span : Type}.
Variable host : Host World Span.
Variable submitScore : ScoreOptions -> M World Span unit.
Import Evaluate.

Lemma type_error_of_conversion (v e : value) (t : list (Event Span)) :
  ToString v = Throw e -> type_error e t.
Proof. intros E. apply ToString_throw in E. subst e. unfold type_error, cannot_convert. eauto. Qed.

(** The [catch] block of the task span. *)
Lemma task_failed_spec (taskSpan : Span) (evalResult : EvalResult) (errs : nat)
    (err : value) :
  spec (task_failed host taskSpan evalResult errs err)
    (fun res t =>
       silent t /\
       exists text, ToString err = Normal text /\
                    res = (with_error evalResult text, S errs))
    type_error.
Proof.
  unfold task_failed. apply spec_bind_lift.
  destruct (ToString err) as [text|e] eqn:Et;
    [|exact (type_error_of_conversion err e [] Et)].
  apply spec_bind_lift. cbn [List.app].
  apply spec_bind_setStatus, spec_bind_recordException, spec_ret.
  split; [auto with silent | eauto].
Qed.

(** The task span makes exactly one task call, for item [i]; the item fails
    when the task throws or its output cannot be rendered. *)
Lemma eval_task_spec task (i : nat) (inputVal : value) (evalResult : EvalResult)
    (errs : nat) :
  spec (eval_task host task i inputVal evalResult errs)
    (fun res t =>
       let '(out, failed, ev', errs') := res in
       (forall q, scorer_calls q t = [] /\ scorer_inputs q t = [] /\ submitted q t = []) /\
       started_spans t = ["eval_task"] /\ ended_spans t = 1 /\
       exists c,
         (forall q, task_outcomes q t = if Nat.eqb i q then [c] else []) /\
         match c with
         | Normal o =>
             match ToString o with
             | Normal _ =>
                 failed = false /\ out = o /\
                 ev' = with_output evalResult o /\ errs' = errs
             | Throw e =>
                 failed = true /\
                 exists text, ToString e = Normal text /\
                   ev' = with_error (with_output evalResult o) text /\ errs' = S errs
             end
         | Throw e =>
             failed = true /\
             exists text, ToString e = Normal text /\
               ev' = with_error evalResult text /\ errs' = S errs
         end)
    type_error.
Proof.
  unfold eval_task. apply spec_startActiveSpan. intros taskSpan.
  eapply spec_bind with
    (P := fun called t =>
            (forall q, scorer_calls q t = [] /\ scorer_inputs q t = [] /\ submitted q t = []) /\
            started_spans t = [] /\ ended_spans t = 0 /\
            (forall q, task_outcomes q t = if Nat.eqb i q then [called] else [])).
  { intros w. unfold attempt, bind, call_task, warn, ret.
    destruct (task inputVal w) as [[o|e] w1]; cbn.
    - destruct (is_Promise o); cbn; repeat split;
        intros q; cbn; destruct (Nat.eqb i q); reflexivity.
    - repeat split; intros q; cbn; destruct (Nat.eqb i q); reflexivity. }
  intros called t1 (Hq1 & Hs1 & He1 & Ht1).
  assert (Hfinish : forall (r : value * bool * EvalResult * nat) t2,
            silent t2 ->
            (let '(out, failed, ev', errs') := r in
             match called with
             | Normal o =>
                 match ToString o with
                 | Normal _ =>
                     failed = false /\ out = o /\
                     ev' = with_output evalResult o /\ errs' = errs
                 | Throw e =>
                     failed = true /\
                     exists text, ToString e = Normal text /\
                       ev' = with_error (with_output evalResult o) text /\ errs' = S errs
                 end
             | Throw e =>
                 failed = true /\
                 exists text, ToString e = Normal text /\
                   ev' = with_error evalResult text /\ errs' = S errs
             end) ->
            let '(out, failed, ev', errs') := r in
            (forall q,
               scorer_calls q
                 (EvStartSpan TRACER_NAME "eval_task" [] taskSpan
                  :: t1 ++ t2 ++ [EvSpanEnd taskSpan]) = [] /\
               scorer_inputs q
                 (EvStartSpan TRACER_NAME "eval_task" [] taskSpan
                  :: t1 ++ t2 ++ [EvSpanEnd taskSpan]) = [] /\
               submitted q
                 (EvStartSpan TRACER_NAME "eval_task" [] taskSpan
                  :: t1 ++ t2 ++ [EvSpanEnd taskSpan]) = []) /\
            started_spans
              (EvStartSpan TRACER_NAME "eval_task" [] taskSpan
               :: t1 ++ t2 ++ [EvSpanEnd taskSpan]) = ["eval_task"] /\
            ended_spans
              (EvStartSpan TRACER_NAME "eval_task" [] taskSpan
               :: t1 ++ t2 ++ [EvSpanEnd taskSpan]) = 1 /\
            exists c,
              (forall q,
                 task_outcomes q
                   (EvStartSpan TRACER_NAME "eval_task" [] taskSpan
                    :: t1 ++ t2 ++ [EvSpanEnd taskSpan])
                 = if Nat.eqb i q then [c] else []) /\
              match c with
              | Normal o =>
                  match ToString o with
                  | Normal _ =>
                      failed = false /\ out = o /\
                      ev' = with_output evalResult o /\ errs' = errs
                  | Throw e =>
                      failed = true /\
                      exists text, ToString e = Normal text /\
                        ev' = with_error (with_output evalResult o) text /\
                        errs' = S errs
                  end
              | Throw e =>
                  failed = true /\
                  exists text, ToString e = Normal text /\
                    ev' = with_error evalResult text /\ errs' = S errs
              end).
  { intros [[[out failed] ev'] errs'] t2 (Hn2 & Hs2 & He2) Hcase.
    split; [|split; [|split]].
    - intros q.
      destruct (proj_start q (t1 ++ t2 ++ [EvSpanEnd taskSpan]) TRACER_NAME "eval_task"
                  [] taskSpan) as (_ & -> & -> & -> & _).
      rewrite !scorer_calls_app, !scorer_inputs_app, !submitted_app.
      destruct (Hq1 q) as (-> & -> & ->), (Hn2 q) as (_ & -> & -> & ->). auto.
    - destruct (proj_start 0 (t1 ++ t2 ++ [EvSpanEnd taskSpan]) TRACER_NAME "eval_task"
                  [] taskSpan) as (_ & _ & _ & _ & -> & _).
      rewrite !started_spans_app, Hs1, Hs2. reflexivity.
    - destruct (proj_start 0 (t1 ++ t2 ++ [EvSpanEnd taskSpan]) TRACER_NAME "eval_task"
                  [] taskSpan) as (_ & _ & _ & _ & _ & ->).
      rewrite !ended_spans_app, He1, He2. reflexivity.
    - exists called. split; [|exact Hcase].
      intros q.
      destruct (proj_start q (t1 ++ t2 ++ [EvSpanEnd taskSpan]) TRACER_NAME "eval_task"
                  [] taskSpan) as (-> & _).
      rewrite !task_outcomes_app, Ht1. destruct (Hn2 q) as (-> & _). cbn.
      now rewrite app_nil_r. }
  destruct called as [output|err].
  - eapply spec_bind with
      (P := fun r t2 =>
              silent t2 /\
              let '(out, failed, ev', errs') := r in
              match ToString output with
              | Normal _ =>
                  failed = false /\ out = output /\
                  ev' = with_output evalResult output /\ errs' = errs
              | Throw e =>
                  failed = true /\
                  exists text, ToString e = Normal text /\
                    ev' = with_error (with_output evalResult output) text /\
                    errs' = S errs
              end).
    + eapply spec_try_catch with
        (EB := fun e t => t = [] /\ ToString output = Throw e).
      * apply spec_bind_lift. destruct (ToString output) as [text|e] eqn:Eo; [|auto].
        apply spec_bind_setAttribute, spec_ret. split; [auto with silent|]. auto.
      * intros e t0 [-> Eo]. cbn [List.app].
        eapply spec_bind; [apply task_failed_spec|].
        intros [ev' errs'] t2 (Hsil & text & Et & Eres). injection Eres as -> ->.
        apply spec_ret. rewrite app_nil_r. split; [exact Hsil|].
        rewrite Eo. eauto.
    + intros r t2 [Hsil Hcase]. apply spec_bind_span_end, spec_ret.
      specialize (Hfinish r t2 Hsil).
      destruct r as [[[out failed] ev'] errs']. apply Hfinish. exact Hcase.
  - eapply spec_bind with
      (P := fun r t2 =>
              silent t2 /\
              let '(out, failed, ev', errs') := r in
              failed = true /\
              exists text, ToString err = Normal text /\
                ev' = with_error evalResult text /\ errs' = S errs).
    + eapply spec_bind; [apply task_failed_spec|].
      intros [ev' errs'] t2 (Hsil & text & Et & Eres). injection Eres as -> ->.
      apply spec_ret. rewrite app_nil_r. split; [exact Hsil|]. eauto.
    + intros r t2 [Hsil Hcase]. apply spec_bind_span_end, spec_ret.
      specialize (Hfinish r t2 Hsil).
      destruct r as [[[out failed] ev'] errs']. apply Hfinish. exact Hcase.
Qed.


(** The [catch] block of a scorer span. *)
Lemma scorer_failed_spec (scoreSpan : Span) (scorerName : string) (i : nat)
    (err : value) :
  spec (scorer_failed host scoreSpan scorerName i err) (fun _ t => silent t) type_error.
Proof.
  unfold scorer_failed. apply spec_bind_lift.
  destruct (ToString err) as [text|e] eqn:Et;
    [|exact (type_error_of_conversion err e [] Et)].
  apply spec_bind_warn, spec_bind_lift. cbn [List.app].
  apply spec_bind_setStatus, spec_recordException. auto with silent.
Qed.

(** The attributes of a scorer span: whether they are all set or the
    rationale cannot be cut, no call is made on behalf of an item. *)
Lemma score_attributes_spec (scoreSpan : Span) (ps : props) :
  spec (score_attributes host scoreSpan (VObj ps))
    (fun _ t => silent t) (fun _ t => silent t).
Proof.
  intros w. unfold score_attributes, bind, lift, span_setAttribute, ret. cbn.
  destruct (is_undefined (obj_get ps "value")); cbn;
    destruct (ToBoolean (obj_get ps "label")); cbn;
    destruct (ToBoolean (obj_get ps "rationale")); cbn;
    try destruct (js_slice0 (obj_get ps "rationale") 500); cbn;
    auto 10 with silent.
Qed.

(** The invocation of a scorer: its argument is built from the renderings
    of the input, the output and the expected value, and the scorer is
    called once, unless the expected value cannot be rendered. *)
Lemma invoke_scorer_spec (i : nat) (inputVal out expectedVal : value)
    (scorer : Scorer World) (tin tout : string) :
  ToString inputVal = Normal tin -> ToString out = Normal tout ->
  spec (World := World) (Span := Span)
    (attempt (invoke_scorer i inputVal out expectedVal scorer))
    (fun adapted t =>
       if is_undefined expectedVal || renders expectedVal then
         exists a c,
           scorer_args_of inputVal out expectedVal a /\
           t = [EvScorer i (scorer_name scorer) a c] /\
           adapted = match c with
                     | Normal raw => Protocol.adaptScore (scorer_name scorer) raw
                     | Throw e => Throw e
                     end
       else t = [] /\ exists e, adapted = Throw e)
    no_throw.
Proof.
  intros Hin Hout w. unfold attempt, invoke_scorer, bind, lift, call_scorer, ret.
  rewrite Hin, Hout. unfold renders.
  destruct (is_undefined expectedVal) eqn:Eu; cbn.
  - match goal with
    | |- context [scorer_score scorer ?a w] =>
        destruct (scorer_score scorer a w) as [[raw|e] w1]; cbn;
          [exists a, (Normal raw) | exists a, (Throw e)]
    end; (split; [|split; reflexivity]);
      unfold scorer_args_of; cbn; rewrite Eu; auto.
  - destruct (ToString expectedVal) as [texp|e] eqn:Ee; cbn; [|eauto].
    match goal with
    | |- context [scorer_score scorer ?a w] =>
        destruct (scorer_score scorer a w) as [[raw|e] w1]; cbn;
          [exists a, (Normal raw) | exists a, (Throw e)]
    end; (split; [|split; reflexivity]);
      unfold scorer_args_of; cbn; rewrite Eu; eauto.
Qed.

(** The part of a scorer span that follows the invocation. *)
Lemma record_adapted_spec (scoreSpan : Span) (scorerName : string) (i : nat)
    (adapted : Completion value) (scores : props) :
  (forall scoreObj, adapted = Normal scoreObj -> exists ps, scoreObj = VObj ps) ->
  spec (match adapted with
        | Normal scoreObj =>
            bind (try_catch (score_attributes host scoreSpan scoreObj)
                            (scorer_failed host scoreSpan scorerName i))
                 (fun _ => ret (js_assign scorerName scoreObj scores))
        | Throw err =>
            bind (scorer_failed host scoreSpan scorerName i err) (fun _ => ret scores)
        end)
    (fun scores' t =>
       silent t /\
       scores' = match adapted with
                 | Normal scoreObj => js_assign scorerName scoreObj scores
                 | Throw _ => scores
                 end)
    type_error.
Proof.
  intros Hobj. destruct adapted as [scoreObj|err].
  - destruct (Hobj scoreObj eq_refl) as [ps ->].
    eapply spec_bind with (P := fun _ t => silent t).
    + eapply spec_try_catch; [apply score_attributes_spec|].
      intros e t1 Hs1. cbn beta.
      eapply spec_conseq; [apply scorer_failed_spec | | ].
      * intros u t2 Hs2. now apply silent_app.
      * intros e' t2 He. exact He.
    + intros u t1 Hs1. apply spec_ret. rewrite app_nil_r. now split.
  - eapply spec_bind; [apply scorer_failed_spec|].
    intros u t1 Hs1. apply spec_ret. rewrite app_nil_r. now split.
Qed.

(** A scorer span makes at most one scorer invocation, for item [i], and
    records its adapted result unless the invocation or the adapter
    threw. *)
Lemma eval_score_spec (i : nat) (inputVal out expectedVal : value)
    (scorer : Scorer World) (scores : props) (tin tout : string) :
  ToString inputVal = Normal tin -> ToString out = Normal tout ->
  spec (eval_score host i inputVal out expectedVal scorer scores)
    (fun scores' t =>
       (forall q, task_outcomes q t = [] /\ submitted q t = []) /\
       started_spans t = [("eval_score." ++ scorer_name scorer)%string] /\
       ended_spans t = 1 /\
       exists calls inputs,
         (forall q, scorer_calls q t = if Nat.eqb i q then calls else []) /\
         (forall q, scorer_inputs q t = if Nat.eqb i q then inputs else []) /\
         Forall (scorer_args_of inputVal out expectedVal) inputs /\
         calls_follow [scorer_name scorer] expectedVal calls /\
         scores' = fold_left record_call calls scores)
    type_error.
Proof.
  intros Hin Hout. unfold eval_score. apply spec_startActiveSpan. intros scoreSpan.
  eapply spec_bind;
    [eapply spec_conseq;
       [apply (invoke_scorer_spec i inputVal out expectedVal scorer tin tout Hin Hout)
       | intros a t H; exact H | intros e t []]|].
  intros adapted t1 Hinv. cbn beta.
  assert (Hobj : forall scoreObj, adapted = Normal scoreObj -> exists ps, scoreObj = VObj ps).
  { intros scoreObj ->. unfold calls_follow in *.
    destruct (is_undefined expectedVal || renders expectedVal).
    - destruct Hinv as (a & c & _ & _ & Ea). destruct c as [raw|e]; [|discriminate].
      symmetry in Ea. destruct (adaptScore_object _ _ _ Ea) as (ps & nm & -> & _). eauto.
    - destruct Hinv as (_ & e & Ee). discriminate. }
  eapply spec_bind; [apply (record_adapted_spec scoreSpan _ i adapted scores Hobj)|].
  intros scores' t2 [(Hn2 & Hs2 & He2) ->].
  apply spec_bind_span_end, spec_ret.
  autorewrite with proj. rewrite Hs2, He2.
  unfold calls_follow.
  destruct (is_undefined expectedVal || renders expectedVal).
  - destruct Hinv as (a & c & Ha & -> & ->).
    split; [|split; [|split]].
    + intros q. autorewrite with proj. destruct (Hn2 q) as (-> & _ & _ & ->). auto.
    + reflexivity.
    + reflexivity.
    + exists [(scorer_name scorer, c)], [a]. split; [|split; [|split; [|split]]].
      * intros q. autorewrite with proj. destruct (Hn2 q) as (_ & -> & _). cbn.
        destruct (Nat.eqb i q); reflexivity.
      * intros q. autorewrite with proj. destruct (Hn2 q) as (_ & _ & -> & _). cbn.
        destruct (Nat.eqb i q); reflexivity.
      * constructor; [exact Ha | constructor].
      * reflexivity.
      * unfold record_call. cbn. destruct c as [raw|e]; reflexivity.
  - destruct Hinv as (-> & e & ->).
    split; [|split; [|split]].
    + intros q. autorewrite with proj. destruct (Hn2 q) as (-> & _ & _ & ->). auto.
    + reflexivity.
    + reflexivity.
    + exists [], []. split; [|split; [|split; [|split]]].
      * intros q. autorewrite with proj. destruct (Hn2 q) as (_ & -> & _). cbn.
        destruct (Nat.eqb i q); reflexivity.
      * intros q. autorewrite with proj. destruct (Hn2 q) as (_ & _ & -> & _). cbn.
        destruct (Nat.eqb i q); reflexivity.
      * constructor.
      * reflexivity.
      * reflexivity.
Qed.


Lemma eval_scorers_spec (i : nat) (inputVal out expectedVal : value)
    (scorers : list (Scorer World)) (tin tout : string) :
  ToString inputVal = Normal tin -> ToString out = Normal tout ->
  forall scores,
  spec (eval_scorers host i inputVal out expectedVal scorers scores)
    (fun scores' t =>
       (forall q, task_outcomes q t = [] /\ submitted q t = []) /\
       started_spans t
       = map (fun nm : string => ("eval_score." ++ nm)%string)
             (map (@scorer_name World) scorers) /\
       ended_spans t = List.length scorers /\
       exists calls inputs,
         (forall q, scorer_calls q t = if Nat.eqb i q then calls else []) /\
         (forall q, scorer_inputs q t = if Nat.eqb i q then inputs else []) /\
         Forall (scorer_args_of inputVal out expectedVal) inputs /\
         calls_follow (map (@scorer_name World) scorers) expectedVal calls /\
         scores' = fold_left record_call calls scores)
    type_error.
Proof.
  intros Hin Hout.
  induction scorers as [|scorer rest IH]; intros scores; cbn [eval_scorers].
  - apply spec_ret. split; [auto|]. split; [reflexivity|]. split; [reflexivity|].
    exists [], []. split; [intros q; now destruct (Nat.eqb i q)|].
    split; [intros q; now destruct (Nat.eqb i q)|]. split; [constructor|].
    split; [|reflexivity]. unfold calls_follow. now destruct (_ || _).
  - eapply spec_bind; [apply (eval_score_spec i _ _ _ scorer scores tin tout Hin Hout)|].
    intros scores1 t1 (Hq1 & Hs1 & He1 & calls1 & inputs1 & Hc1 & Hi1 & Ha1 & Hf1 & ->).
    eapply spec_conseq; [apply IH | | intros e t He; exact He].
    intros scores2 t2 (Hq2 & Hs2 & He2 & calls2 & inputs2 & Hc2 & Hi2 & Ha2 & Hf2 & ->).
    split; [|split; [|split]].
    + intros q. autorewrite with proj.
      destruct (Hq1 q) as [-> ->], (Hq2 q) as [-> ->]. auto.
    + autorewrite with proj. rewrite Hs1, Hs2. reflexivity.
    + autorewrite with proj. rewrite He1, He2. reflexivity.
    + exists (calls1 ++ calls2), (inputs1 ++ inputs2).
      split; [|split; [|split; [|split]]].
      * intros q. autorewrite with proj. rewrite Hc1, Hc2. now destruct (Nat.eqb i q).
      * intros q. autorewrite with proj. rewrite Hi1, Hi2. now destruct (Nat.eqb i q).
      * apply Forall_app. now split.
      * unfold calls_follow in *. cbn [map].
        destruct (is_undefined expectedVal || renders expectedVal).
        -- rewrite map_app, Hf1, Hf2. reflexivity.
        -- subst calls1 calls2. reflexivity.
      * now rewrite fold_left_app.
Qed.

(** One emission: the recorded Score is handed over once, whatever the
    primitive does with it. *)
Lemma emit_score_spec (name : string) (i : nat) (traceId spanId : string)
    (k : string) (ps : props) :
  spec (emit_score host submitScore name i traceId spanId (k, VObj ps))
    (fun _ t =>
       (forall q, task_outcomes q t = [] /\ scorer_calls q t = [] /\
                  scorer_inputs q t = []) /\
       started_spans t = [] /\ ended_spans t = 0 /\
       forall q, submitted q t
                 = if Nat.eqb i q
                   then [emitted_options name i traceId spanId (k, VObj ps)] else [])
    type_error.
Proof.
  intros w. unfold emit_score, try_catch, bind, lift, call_submitScore, warn. cbn.
  match goal with
  | |- context [submitScore ?o w] =>
      destruct (submitScore o w) as [[[[]|e] w1] t1]; cbn
  end.
  - repeat split; intros q; cbn; destruct (Nat.eqb i q); reflexivity.
  - destruct (ToString e) as [text|e'] eqn:Et; cbn.
    + repeat split; intros q; cbn; destruct (Nat.eqb i q); reflexivity.
    + exact (type_error_of_conversion e e' _ Et).
Qed.

(** The emission block hands each recorded Score, in order, to the
    score-emission primitive. *)
Lemma emit_scores_spec (name : string) (i : nat) (itemSpan : Span) (scores : props) :
  Forall (fun kv => exists ps, snd kv = VObj ps) scores ->
  spec (emit_scores host submitScore name i itemSpan scores)
    (fun _ t =>
       (forall q, task_outcomes q t = [] /\ scorer_calls q t = [] /\
                  scorer_inputs q t = []) /\
       started_spans t = [] /\ ended_spans t = 0 /\
       exists traceId spanId,
         forall q, submitted q t
                   = if Nat.eqb i q
                     then map (emitted_options name i traceId spanId) scores else [])
    type_error.
Proof.
  intros Hobj. unfold emit_scores.
  eapply spec_bind with (P := fun _ t => t = []);
    [apply spec_spanContext; reflexivity|].
  intros ctx t0 ->. cbn [List.app Object_entries].
  generalize (formatTraceId (fst ctx)) (formatSpanId (snd ctx)). intros tid sid.
  eapply spec_conseq with
    (Q := fun _ t =>
            (forall q, task_outcomes q t = [] /\ scorer_calls q t = [] /\
                       scorer_inputs q t = []) /\
            started_spans t = [] /\ ended_spans t = 0 /\
            forall q, submitted q t
                      = if Nat.eqb i q
                        then map (emitted_options name i tid sid) scores else []);
    [| intros u t (H1 & H2 & H3 & H4); eauto 10 | intros e t He; exact He].
  induction Hobj as [|[k v] rest [ps Eps] Hrest IH]; cbn [for_each].
  - apply spec_ret. repeat split. intros q. now destruct (Nat.eqb i q).
  - cbn in Eps. subst v.
    eapply spec_bind; [apply emit_score_spec|].
    intros u t1 (Hq1 & Hs1 & He1 & Hm1).
    eapply spec_conseq; [apply IH | | intros e t He; exact He].
    intros u2 t2 (Hq2 & Hs2 & He2 & Hm2). cbn beta.
    split; [|split; [|split]].
    + intros q. autorewrite with proj.
      destruct (Hq1 q) as (-> & -> & ->), (Hq2 q) as (-> & -> & ->). auto.
    + autorewrite with proj. now rewrite Hs1, Hs2.
    + autorewrite with proj. now rewrite He1, He2.
    + intros q. autorewrite with proj. rewrite Hm1, Hm2. cbn [map].
      now destruct (Nat.eqb i q).
Qed.

(** The optional emission block. *)
Lemma maybe_emit_spec (emitScores : bool) (name : string) (i : nat) (itemSpan : Span)
    (scores : props) :
  Forall (fun kv => exists ps, snd kv = VObj ps) scores ->
  spec (if emitScores then emit_scores host submitScore name i itemSpan scores
        else ret tt)
    (fun _ t =>
       (forall q, task_outcomes q t = [] /\ scorer_calls q t = [] /\
                  scorer_inputs q t = []) /\
       started_spans t = [] /\ ended_spans t = 0 /\
       exists traceId spanId,
         forall q, submitted q t
                   = if Nat.eqb i q
                     then (if emitScores
                           then map (emitted_options name i traceId spanId) scores
                           else [])
                     else [])
    type_error.
Proof.
  intros Hobj. destruct emitScores; [now apply emit_scores_spec|].
  apply spec_ret. split; [auto|]. split; [reflexivity|]. split; [reflexivity|].
  exists "", "". intros q. now destruct (Nat.eqb i q).
Qed.


(** One iteration of the dataset loop. *)
Lemma eval_item_spec (name : string) task (scorers : list (Scorer World))
    (emitScores : bool) (i : nat) (datum : EvalDatum) (errs : nat) :
  spec (eval_item host submitScore name task scorers emitScores i datum errs)
    (fun res t =>
       (forall q, q <> i ->
          task_outcomes q t = [] /\ scorer_calls q t = [] /\
          scorer_inputs q t = [] /\ submitted q t = []) /\
       item_facts (map (@scorer_name World) scorers) emitScores name i datum (fst res)
         (task_outcomes i t) (scorer_calls i t) (scorer_inputs i t) (submitted i t) /\
       snd res = errs + (if has_error (fst res) then 1 else 0) /\
       started_spans t = item_spans (map (@scorer_name World) scorers) (fst res) /\
       ended_spans t
       = List.length (item_spans (map (@scorer_name World) scorers) (fst res)))
    type_error.
Proof.
  unfold eval_item. apply spec_bind_lift.
  destruct (ToString (obj_get datum "input")) as [tin|e] eqn:Ein;
    [|exact (type_error_of_conversion _ e [] Ein)].
  apply spec_startActiveSpan. intros itemSpan.
  eapply spec_bind; [apply eval_task_spec|].
  intros [[[out failed] ev'] errs'] t1 (Hq1 & Hs1 & He1 & c & Ht1 & Hc).
  (* an item that failed: no scorer is run *)
  assert (Hfailed : forall text,
            ev' = with_error
                    {| input := obj_get datum "input"; output := output ev';
                       expected := obj_get datum "expected"; scores := [];
                       error := None |} text ->
            errs' = S errs ->
            match c with
            | Throw e => output ev' = None /\ ToString e = Normal text
            | Normal o =>
                output ev' = Some o /\
                exists e, ToString o = Throw e /\ ToString e = Normal text
            end ->
            spec (bind (ret ev') (fun evalResult =>
                    bind (span_end host itemSpan) (fun _ => ret (evalResult, errs'))))
              (fun res t2 =>
                 (fun res t =>
                    (forall q, q <> i ->
                       task_outcomes q t = [] /\ scorer_calls q t = [] /\
                       scorer_inputs q t = [] /\ submitted q t = []) /\
                    item_facts (map (@scorer_name World) scorers) emitScores name i datum
                      (fst res) (task_outcomes i t) (scorer_calls i t)
                      (scorer_inputs i t) (submitted i t) /\
                    snd res = errs + (if has_error (fst res) then 1 else 0) /\
                    started_spans t
                    = item_spans (map (@scorer_name World) scorers) (fst res) /\
                    ended_spans t
                    = List.length (item_spans (map (@scorer_name World) scorers) (fst res)))
                   res
                   (EvStartSpan TRACER_NAME "eval_item"
                      [("eval.item.index", VNum (number_of_nat i));
                       ("eval.item.input", VStr (String.substring 0 1000 tin))]
                      itemSpan :: t1 ++ t2))
              (fun e t2 =>
                 type_error e
                   (EvStartSpan TRACER_NAME "eval_item"
                      [("eval.item.index", VNum (number_of_nat i));
                       ("eval.item.input", VStr (String.substring 0 1000 tin))]
                      itemSpan :: t1 ++ t2))).
  { intros text Hev Herrs Hcase.
    apply spec_bind_ret, spec_bind_span_end, spec_ret. cbn [fst snd].
    assert (Herr : has_error ev' = true) by (rewrite Hev; reflexivity).
    split; [|split; [|split; [|split]]].
    - intros q Hne. autorewrite with proj. rewrite Ht1.
      destruct (Hq1 q) as (-> & -> & ->).
      destruct (Nat.eqb_spec i q); [congruence | auto].
    - autorewrite with proj. rewrite Ht1, Nat.eqb_refl.
      destruct (Hq1 i) as (-> & -> & ->). cbn [List.app].
      unfold item_facts. rewrite Herr, andb_false_r.
      rewrite Hev at 1 2 3 4. cbn [input expected scores with_error].
      split; [reflexivity|]. split; [reflexivity|].
      split; [unfold renders; now rewrite Ein|].
      split; [split; constructor|]. split; [constructor|].
      split; [exists "", ""; reflexivity|].
      exists c. split; [reflexivity|].
      assert (Hsc : scores ev' = []) by (rewrite Hev; reflexivity).
      assert (Her : error ev' = Some text) by (rewrite Hev; reflexivity).
      destruct c as [o|e].
      + destruct Hcase as (Ho & e & Eo & Et). rewrite Eo.
        split; [exact Ho|]. split; [exists text; now split|]. now split.
      + destruct Hcase as (Ho & Et).
        split; [exact Ho|]. split; [exists text; now split|]. now split.
    - rewrite Herr, Herrs. lia.
    - autorewrite with proj. rewrite Hs1. unfold item_spans. rewrite Herr. reflexivity.
    - autorewrite with proj. rewrite He1. unfold item_spans. rewrite Herr. reflexivity. }
  destruct c as [o|e].
  - destruct (ToString o) as [tout|e] eqn:Eo.
    + (* the task succeeded *)
      destruct Hc as (-> & -> & -> & ->). cbn [negb with_output scores].
      eapply spec_bind with
        (P := fun r t =>
                exists calls inputs traceId spanId,
                  r = with_scores
                        (with_output
                           {| input := obj_get datum "input"; output := None;
                              expected := obj_get datum "expected";
                              scores := []; error := None |} o)
                        (fold_left record_call calls []) /\
                  Forall (scorer_args_of (obj_get datum "input") o
                            (obj_get datum "expected")) inputs /\
                  calls_follow (map (@scorer_name World) scorers)
                    (obj_get datum "expected") calls /\
                  started_spans t
                  = map (fun nm : string => ("eval_score." ++ nm)%string)
                        (map (@scorer_name World) scorers) /\
                  ended_spans t = List.length scorers /\
                  forall q,
                    task_outcomes q t = [] /\
                    scorer_calls q t = (if Nat.eqb i q then calls else []) /\
                    scorer_inputs q t = (if Nat.eqb i q then inputs else []) /\
                    submitted q t
                    = (if Nat.eqb i q
                       then (if emitScores
                             then map (emitted_options name i traceId spanId)
                                      (fold_left record_call calls [])
                             else [])
                       else [])).
      { eapply spec_bind;
          [apply (eval_scorers_spec i _ _ _ scorers tin tout Ein Eo [])|].
        intros scores' t2 (Hq2 & Hs2 & He2 & calls & inputs & Hc2 & Hi2 & Ha2 & Hf2 & ->).
        assert (Hwf : scores_wf (fold_left record_call calls [])).
        { apply fold_record_call_wf. split; constructor. }
        eapply spec_bind; [apply maybe_emit_spec, Hwf|].
        intros u t3 (Hq3 & Hs3 & He3 & tid & sid & Hm3).
        apply spec_ret. rewrite app_nil_r.
        exists calls, inputs, tid, sid.
        split; [reflexivity|]. split; [exact Ha2|]. split; [exact Hf2|].
        split; [autorewrite with proj; now rewrite Hs2, Hs3, app_nil_r|].
        split; [autorewrite with proj; rewrite He2, He3; lia|].
        intros q. autorewrite with proj.
        destruct (Hq2 q) as [-> ->], (Hq3 q) as (-> & -> & ->).
        rewrite Hc2, Hi2, Hm3, !app_nil_r. auto. }
      intros r t2 (calls & inputs & tid & sid & -> & Ha2 & Hf2 & Hs2 & He2 & Hq2).
      assert (Hwf : scores_wf (fold_left record_call calls [])).
      { apply fold_record_call_wf. split; constructor. }
      apply spec_bind_span_end, spec_ret. cbn [fst snd].
      split; [|split; [|split; [|split]]].
      * intros q Hne. autorewrite with proj. rewrite Ht1.
        destruct (Hq1 q) as (-> & -> & ->), (Hq2 q) as (-> & -> & -> & ->).
        destruct (Nat.eqb_spec i q); [congruence | auto].
      * autorewrite with proj. rewrite Ht1.
        destruct (Hq1 i) as (-> & -> & ->), (Hq2 i) as (-> & -> & -> & ->).
        rewrite Nat.eqb_refl, !app_nil_r. cbn [List.app].
        unfold item_facts.
        cbn [input output expected scores error with_scores with_output has_error].
        rewrite andb_true_r.
        split; [reflexivity|]. split; [reflexivity|].
        split; [unfold renders; now rewrite Ein|].
        split; [exact Hwf|]. split.
        { eapply Forall_impl; [|exact Ha2]. intros a Ha. exists o. now split. }
        split; [exists tid, sid; reflexivity|].
        exists (Normal o). split; [reflexivity|]. rewrite Eo.
        split; [reflexivity|]. split; [reflexivity|]. split; [reflexivity|exact Hf2].
      * cbn. lia.
      * autorewrite with proj. rewrite Hs1, Hs2, app_nil_r. reflexivity.
      * autorewrite with proj. rewrite He1, He2. unfold item_spans.
        cbn [has_error error with_scores with_output List.length].
        rewrite !length_map. cbn. lia.
    + (* the output cannot be rendered *)
      destruct Hc as (-> & text & Et & -> & ->). cbn [negb].
      apply (Hfailed text); [reflexivity | reflexivity |].
      split; [reflexivity|]. exists e. now split.
  - (* the task threw *)
    destruct Hc as (-> & text & Et & -> & ->). cbn [negb].
    apply (Hfailed text); [reflexivity | reflexivity |]. now split.
Qed.

(** The dataset loop. *)
Lemma eval_items_spec (name : string) task (scorers : list (Scorer World))
    (emitScores : bool) (ds : list EvalDatum) :
  forall (i0 : nat) (acc : list EvalResult) (errs : nat),
  spec (eval_items host submitScore name task scorers emitScores i0 ds acc errs)
    (fun res t =>
       exists new,
         fst res = acc ++ new /\
         run_facts (map (@scorer_name World) scorers) emitScores name i0 ds new t /\
         snd res = errs + List.length (filter has_error new) /\
         started_spans t = flat_map (item_spans (map (@scorer_name World) scorers)) new /\
         ended_spans t = List.length (started_spans t))
    type_error.
Proof.
  induction ds as [|datum rest IH]; intros i0 acc errs; cbn [eval_items].
  - apply spec_ret. exists []. cbn. rewrite app_nil_r. split; [reflexivity|].
    split; [|split; [lia|split; reflexivity]]. split; [reflexivity|]. split; [|auto].
    intros [|j] d r Hd; discriminate.
  - eapply spec_bind; [apply eval_item_spec|].
    intros [r errs1] t1 (Hf1 & Hitem & Herr1 & Hs1 & He1). cbn [fst snd] in *.
    eapply spec_conseq; [apply IH | | intros e t He; exact He].
    intros [rs errs2] t2 (new & Hrs & (Hlen & Hitems & Hf2) & Herr2 & Hs2 & He2).
    cbn [fst snd] in *. exists (r :: new). split; [|split; [|split; [|split]]].
    + rewrite Hrs, <- app_assoc. reflexivity.
    + split; [cbn; now rewrite Hlen|]. split.
      * intros [|j] d r' Hd Hr'; cbn in Hd, Hr'.
        -- injection Hd as <-. injection Hr' as <-.
           rewrite Nat.add_0_r. autorewrite with proj.
           destruct (Hf2 i0) as (-> & -> & -> & ->); [left; lia|].
           now rewrite !app_nil_r.
        -- autorewrite with proj.
           destruct (Hf1 (i0 + S j)) as (-> & -> & -> & ->); [lia|].
           cbn [List.app]. replace (i0 + S j) with (S i0 + j) by lia.
           now apply Hitems.
      * intros q Hq. autorewrite with proj. cbn [List.length] in Hq.
        destruct (Hf1 q) as (-> & -> & -> & ->); [lia|].
        destruct (Hf2 q) as (-> & -> & -> & ->); [lia|]. auto.
    + rewrite Herr2, Herr1. cbn [filter]. destruct (has_error r); cbn; lia.
    + autorewrite with proj. rewrite Hs1, Hs2. reflexivity.
    + autorewrite with proj. rewrite He1, He2, Hs1, Hs2, length_app. reflexivity.
Qed.


(** The loop that writes the averages touches no item. *)
Lemma write_averages_spec (evalSpan : Span) (entries : list (string * list value)) :
  NoDup (keys entries) ->
  (forall s, In s (keys entries) -> includes Object_prototype_members s = false) ->
  forall avgs,
  spec (write_averages host evalSpan entries avgs)
    (fun avgs' t =>
       silent t /\
       forall s, match prop_lookup s entries with
                 | Some values =>
                     exists avg, average values = Normal avg /\
                                 prop_lookup s avgs' = Some avg
                 | None => prop_lookup s avgs' = prop_lookup s avgs
                 end)
    type_error.
Proof.
  unfold keys.
  induction entries as [|[k vs] rest IH]; cbn [write_averages]; intros Hnd Hmem avgs.
  - apply spec_ret. split; [auto with silent|]. reflexivity.
  - inversion Hnd as [|? ? Hni Hnd']; subst.
    apply spec_bind_lift. destruct (average vs) as [avg|e] eqn:Ea.
    + apply spec_bind_setAttribute.
      eapply spec_conseq;
        [apply (IH Hnd' (fun s Hs => Hmem s (or_intror Hs))) | | intros e t He; exact He].
      intros avgs' t (Hsil & Hl). split; [auto with silent|].
      intros s. specialize (Hl s). cbn [prop_lookup].
      destruct (String.eqb_spec s k) as [->|Hne].
      * destruct (prop_lookup k rest) as [x|] eqn:El.
        -- exfalso. apply Hni. apply (prop_lookup_in_keys k rest). eauto.
        -- exists avg. split; [exact Ea|]. rewrite Hl.
           rewrite js_assign_plain
             by (apply member_not_proto, Hmem; now left).
           apply prop_lookup_set_same.
      * destruct (prop_lookup s rest); [exact Hl|].
        rewrite Hl.
        rewrite js_assign_plain by (apply member_not_proto, Hmem; now left).
        now apply prop_lookup_set_other.
    + apply average_throw in Ea. subst e. unfold type_error, cannot_convert. eauto.
Qed.

Lemma run_facts_results_wf scorers emitScores runName i0 ds new (t : list (Event Span)) :
  run_facts scorers emitScores runName i0 ds new t ->
  Forall (fun r => scores_wf (scores r)) new.
Proof.
  intros (Hlen & Hitems & _). apply Forall_forall. intros r Hin.
  apply In_nth_error in Hin. destruct Hin as [j Hj].
  assert (Hlt : j < List.length ds).
  { rewrite <- Hlen. apply nth_error_Some. congruence. }
  destruct (nth_error ds j) as [d|] eqn:Ed; [|apply nth_error_None in Ed; lia].
  destruct (Hitems j d r Ed Hj) as (_ & _ & _ & Hwf & _). exact Hwf.
Qed.

Lemma run_facts_ext scorers emitScores runName i0 ds new (t t' : list (Event Span)) :
  (forall q, task_outcomes q t' = task_outcomes q t /\
             scorer_calls q t' = scorer_calls q t /\
             scorer_inputs q t' = scorer_inputs q t /\
             submitted q t' = submitted q t) ->
  run_facts scorers emitScores runName i0 ds new t ->
  run_facts scorers emitScores runName i0 ds new t'.
Proof.
  intros Hext (Hlen & Hitems & Hf). split; [exact Hlen|]. split.
  - intros j d r Hd Hr. destruct (Hext (i0 + j)) as (-> & -> & -> & ->). now apply Hitems.
  - intros q Hq. destruct (Hext q) as (-> & -> & -> & ->). now apply Hf.
Qed.

(** The run span on a resolved dataset: its summary and trace are related
    as follows, and it throws nothing but a [TypeError]. *)
Lemma evaluate_dataset_spec (runName : string) task (scorers : list (Scorer World))
    (emitScores : bool) (ds : list EvalDatum) :
  spec (evaluate_dataset host submitScore runName task scorers emitScores ds)
    (summary_facts (map (@scorer_name World) scorers) emitScores runName ds)
    type_error.
Proof.
  unfold evaluate_dataset, summary_facts. apply spec_startActiveSpan. intros evalSpan.
  eapply spec_bind; [apply eval_items_spec|].
  intros [rs errs] t1 (new & Hrs & Hrun & Herr & Hs1 & He1).
  cbn [fst snd List.app] in *. subst rs.
  pose proof (run_facts_results_wf _ _ _ _ _ _ _ Hrun) as Hwf.
  assert (Hok0 : totals_ok []).
  { split; [constructor|]. split; [intros s []|]. intros s. cbn. discriminate. }
  pose proof (collect_totals_spec new Hwf [] Hok0) as Htot.
  apply spec_bind_lift.
  destruct (collect_totals new []) as [totals|e]; [|exact Htot].
  destruct Htot as [(Hnd & Hmem & Hne) Hg].
  eapply spec_bind; [apply (write_averages_spec evalSpan totals Hnd Hmem [])|].
  intros avgs t2 ((Hn2 & Hs2 & He2) & Hl).
  apply spec_bind_setAttribute, spec_bind_span_end, spec_ret.
  cbn [name total results errors averages].
  split; [reflexivity|]. split; [reflexivity|]. split; [|split; [|split; [|split]]].
  - eapply run_facts_ext; [|exact Hrun].
    intros q. autorewrite with proj.
    destruct (Hn2 q) as (-> & -> & -> & ->). cbn. rewrite !app_nil_r. auto.
  - autorewrite with proj. rewrite Hs1, Hs2. cbn. now rewrite app_nil_r.
  - autorewrite with proj. rewrite He1, He2, Hs1, Hs2. cbn.
    rewrite app_nil_r. cbn. lia.
  - exact Herr.
  - intros s. specialize (Hl s). specialize (Hg s). unfold group_get in Hg. cbn in Hg.
    destruct (prop_lookup s totals) as [vs|] eqn:El.
    + rewrite <- Hg. destruct vs; [exfalso; now apply (Hne s)|exact Hl].
    + rewrite <- Hg. exact Hl.
Qed.

Lemma resolve_data_trace (data : DataSource World) (w w0 : World)
    (r : Completion (list EvalDatum)) (t0 : list (Event Span)) :
  resolve_data data w = (r, w0, t0) -> t0 = [].
Proof.
  unfold resolve_data, ret. destruct data as [ds|produce].
  - intros E. now inversion E.
  - destruct (produce w) as [r' w1]. intros E. now inversion E.
Qed.

(** A run that returns has resolved its dataset and established the facts
    of the run span. *)
Lemma evaluate_with_inv (options : EvaluateOptions World) (w w' : World)
    (summary : EvalSummary) (t : list (Event Span)) :
  evaluate_with host submitScore options w = (Normal summary, w', t) ->
  exists ds w0,
    resolve_data (Span := Span) (opt_data options) w = (Normal ds, w0, []) /\
    summary_facts (map (@scorer_name World) (opt_scores options))
      (emit_flag options) (opt_name options) ds summary t.
Proof.
  unfold evaluate_with, bind. intros E.
  destruct (resolve_data (Span := Span) (opt_data options) w) as [[[ds|e] w0] t0] eqn:Er;
    [|discriminate E].
  rewrite (resolve_data_trace _ _ _ _ _ Er) in *.
  pose proof (evaluate_dataset_spec (opt_name options) (opt_task options)
                (opt_scores options) (emit_flag options) ds w0) as Hs.
  unfold emit_flag in *.
  destruct (evaluate_dataset host submitScore (opt_name options) (opt_task options)
              (opt_scores options) _ ds w0) as [[[summary'|e] w1] t1]; [|discriminate E].
  cbn [List.app] in E. inversion E; subst. eauto.
Qed.

(** A run that throws has failed in the dataset producer, or throws a
    [TypeError]. *)
Lemma evaluate_with_throw (options : EvaluateOptions World) (w w' : World)
    (e : value) (t : list (Event Span)) :
  evaluate_with host submitScore options w = (Throw e, w', t) ->
  (resolve_data (Span := Span) (opt_data options) w = (Throw e, w', []) /\ t = []) \/
  ((exists ds w0,
      resolve_data (Span := Span) (opt_data options) w = (Normal ds, w0, [])) /\
   exists msg, e = TypeError msg).
Proof.
  unfold evaluate_with, bind. intros E.
  destruct (resolve_data (Span := Span) (opt_data options) w) as [[[ds|e0] w0] t0] eqn:Er.
  - rewrite (resolve_data_trace _ _ _ _ _ Er) in *. right. split; [eauto|].
    pose proof (evaluate_dataset_spec (opt_name options) (opt_task options)
                  (opt_scores options) (emit_flag options) ds w0) as Hs.
    unfold emit_flag in *.
    destruct (evaluate_dataset host submitScore (opt_name options) (opt_task options)
                (opt_scores options) _ ds w0) as [[[summary'|e1] w1] t1];
      [discriminate E|].
    inversion E; subst. exact Hs.
  - rewrite (resolve_data_trace _ _ _ _ _ Er) in *. inversion E; subst. now left.
Qed.

End EvaluateFacts.

(** ** Properties of a run *)

Lemma fold_record_call_filter {engine : Engine}
    (calls : list (string * Completion value)) (acc : props) :
  fold_left record_call calls acc
  = fold_left record_call (filter (fun call => negb (is_throw (snd call))) calls) acc.
Proof.
  revert acc. induction calls as [|[k c] calls IH]; intros acc; cbn; [reflexivity|].
  destruct c as [raw|e]; cbn; apply IH.
Qed.

(** A recorded key stays recorded. *)
Lemma fold_record_call_keeps {engine : Engine}
    (calls : list (string * Completion value)) (acc : props) (k : string) :
  In k (keys acc) -> In k (keys (fold_left record_call calls acc)).
Proof.
  revert acc. induction calls as [|call calls IH]; intros acc Hk; cbn [fold_left];
    [exact Hk|].
  apply IH.
  destruct (record_call_cases acc call) as [->|(raw & scoreObj & _ & _ & ->)];
    [exact Hk|].
  apply keys_set_prop_in. now right.
Qed.

(** The recorded keys: the names, other than [__proto__], of the
    invocations whose result the adapter accepted. *)
Lemma fold_record_call_keys_iff {engine : Engine}
    (calls : list (string * Completion value)) (k : string) :
  In k (keys (fold_left record_call calls [])) <->
  k <> "__proto__" /\
  exists raw scoreObj,
    In (k, Normal raw) calls /\ Protocol.adaptScore k raw = Normal scoreObj.
Proof.
  split.
  - intros Hk. split.
    + intros ->. revert Hk. apply fold_record_call_no_proto. intros [].
    + assert (H : forall acc,
                In k (keys (fold_left record_call calls acc)) ->
                In k (keys acc) \/
                exists raw scoreObj,
                  In (k, Normal raw) calls /\
                  Protocol.adaptScore k raw = Normal scoreObj).
      { clear Hk. induction calls as [|call calls IH]; intros acc Hk;
          cbn [fold_left] in Hk; [now left|].
        apply IH in Hk. destruct Hk as [Hk|(raw & s & Hin & Ha)];
          [|right; exists raw, s; split; [now right | exact Ha]].
        destruct (record_call_cases acc call) as [E|(raw & scoreObj & Ec & Ea & E)];
          rewrite E in Hk; [now left|].
        apply keys_set_prop_in in Hk. destruct Hk as [->|Hk]; [|now left].
        right. exists raw, scoreObj. split; [|exact Ea].
        left. destruct call as [k' c]. cbn in *. now subst. }
      destruct (H [] Hk) as [[]|Hex]. exact Hex.
  - intros (Hne & raw & scoreObj & Hin & Ha).
    assert (H : forall acc, In k (keys (fold_left record_call calls acc))).
    { induction calls as [|call calls IH]; intros acc; [destruct Hin|].
      cbn [fold_left]. destruct Hin as [->|Hin]; [|now apply IH].
      apply fold_record_call_keeps. unfold record_call. cbn [fst snd]. rewrite Ha.
      rewrite js_assign_plain by (now apply String.eqb_neq).
      apply keys_set_prop_in. now left. }
    apply H.
Qed.

Section RunProperties.
Context {engine : Engine} {World Span : Type}.
Variable host : Host World Span.
Import Evaluate.

Lemma dataset_of_resolve (data : DataSource World) (w : World) (ds : list EvalDatum) :
  dataset_of data w ds <->
  exists w0, resolve_data (Span := Span) data w = (Normal ds, w0, []).
Proof.
  unfold dataset_of, resolve_data, ret. destruct data as [d|produce].
  - split; [intros ->; eauto | intros [w0 E]; now inversion E].
  - split.
    + intros [w0 E]. rewrite E. eauto.
    + intros [w0 E]. destruct (produce w) as [r w1]. inversion E; subst. eauto.
Qed.

(** The facts of the item behind a result. *)
Lemma run_facts_at scorers emitScores runName ds rs (t : list (Event Span))
    (i : nat) (r : EvalResult) :
  run_facts scorers emitScores runName 0 ds rs t ->
  nth_error rs i = Some r ->
  exists datum,
    nth_error ds i = Some datum /\
    item_facts scorers emitScores runName i datum r
      (task_outcomes i t) (scorer_calls i t) (scorer_inputs i t) (submitted i t).
Proof.
  intros (Hlen & Hitems & _) Hr.
  assert (Hlt : i < List.length ds).
  { rewrite <- Hlen. apply nth_error_Some. congruence. }
  destruct (nth_error ds i) as [d|] eqn:Ed; [|apply nth_error_None in Ed; lia].
  exists d. split; [reflexivity|]. exact (Hitems i d r Ed Hr).
Qed.

Lemma run_facts_result scorers emitScores runName ds rs (t : list (Event Span))
    (r : EvalResult) :
  run_facts scorers emitScores runName 0 ds rs t ->
  In r rs ->
  exists i datum,
    nth_error rs i = Some r /\ nth_error ds i = Some datum /\
    item_facts scorers emitScores runName i datum r
      (task_outcomes i t) (scorer_calls i t) (scorer_inputs i t) (submitted i t).
Proof.
  intros Hrun Hin. apply In_nth_error in Hin. destruct Hin as [i Hi].
  destruct (run_facts_at _ _ _ _ _ _ i r Hrun Hi) as (d & Hd & Hitem).
  exists i, d. auto.
Qed.

(** Calls are made only for the items of the dataset. *)
Lemma run_facts_outside scorers emitScores runName ds rs (t : list (Event Span))
    (i : nat) :
  run_facts scorers emitScores runName 0 ds rs t ->
  nth_error rs i = None ->
  task_outcomes i t = [] /\ scorer_calls i t = [] /\
  scorer_inputs i t = [] /\ submitted i t = [].
Proof.
  intros (Hlen & _ & Hf) Hn. apply nth_error_None in Hn.
  apply Hf. right. cbn. lia.
Qed.

(** An item without error: its task returned an output that can be
    rendered. *)
Lemma item_facts_ok scorers emitScores runName i datum r tasks calls inputs emitted :
  item_facts scorers emitScores runName i datum r tasks calls inputs emitted ->
  has_error r = false ->
  exists out text,
    tasks = [Normal out] /\ output r = Some out /\ ToString out = Normal text /\
    scores r = fold_left record_call calls [] /\
    calls_follow scorers (expected r) calls.
Proof.
  intros (_ & _ & _ & _ & _ & _ & c & -> & Hc) Herr. unfold has_error in Herr.
  destruct c as [out|e].
  - destruct Hc as (Ho & Hc). destruct (ToString out) as [text|e] eqn:Et.
    + destruct Hc as (_ & Hs & Hf). exists out, text. auto.
    + destruct Hc as ((text & _ & He) & _). rewrite He in Herr. discriminate.
  - destruct Hc as (_ & (text & _ & He) & _). rewrite He in Herr. discriminate.
Qed.

(** An item with an error: no scorer was invoked and nothing was
    recorded. *)
Lemma item_facts_failed scorers emitScores runName i datum r tasks calls inputs emitted :
  item_facts scorers emitScores runName i datum r tasks calls inputs emitted ->
  has_error r = true ->
  scores r = [] /\ calls = [] /\ emitted = [] /\
  exists c, tasks = [c] /\
    match c with
    | Throw e => output r = None /\ failed_with r e
    | Normal out =>
        output r = Some out /\ exists e, ToString out = Throw e /\ failed_with r e
    end.
Proof.
  intros (_ & _ & _ & _ & _ & (tid & sid & Hem) & c & -> & Hc) Herr.
  rewrite Herr, andb_false_r in Hem.
  unfold has_error in Herr.
  destruct c as [out|e].
  - destruct Hc as (Ho & Hc). destruct (ToString out) as [text|e] eqn:Et.
    + destruct Hc as (He & _). rewrite He in Herr. discriminate.
    + destruct Hc as (Hf & Hs & Hcalls). repeat split; auto.
      exists (Normal out). split; [reflexivity|]. split; [exact Ho|]. rewrite Et. eauto.
  - destruct Hc as (Ho & Hf & Hs & Hcalls). repeat split; auto.
    exists (Throw e). auto.
Qed.

(** X21. Whenever [evaluate] returns a summary, [summary.total] is the
    length of the dataset it iterated over, [summary.results] has [total]
    elements in dataset order, and [results[i]] carries the [input] and the
    [expected] value of [dataset[i]]. *)
Theorem evaluate_results_follow_dataset
    (options : EvaluateOptions World) (w w' : World) (ds : list EvalDatum)
    (summary : EvalSummary) (t : list (Event Span)) :
  dataset_of (opt_data options) w ds ->
  evaluate host options w = (Normal summary, w', t) ->
  total summary = List.length ds /\
  List.length (results summary) = total summary /\
  forall i datum,
    nth_error ds i = Some datum ->
    exists r, nth_error (results summary) i = Some r /\
              input r = obj_get datum "input" /\
              expected r = obj_get datum "expected".
Proof.
  intros Hds E. apply (dataset_of_resolve (opt_data options) w ds) in Hds.
  destruct Hds as [w0 Er].
  apply evaluate_with_inv in E. destruct E as (ds' & w0' & Er' & Hf).
  rewrite Er in Er'. injection Er' as <- <-.
  destruct Hf as (_ & Htot & (Hlen & Hitems & _) & _).
  split; [exact Htot|]. split; [congruence|].
  intros i datum Hd.
  destruct (nth_error (results summary) i) as [r|] eqn:Hr.
  - exists r. split; [reflexivity|].
    destruct (Hitems i datum r Hd Hr) as (Hin & Hex & _). now split.
  - apply nth_error_None in Hr.
    assert (i < List.length ds) by (apply nth_error_Some; congruence). lia.
Qed.

(** X22. In a run that returns, for every item whose task throws,
    [results[i].error] is the text of the exception, [results[i]] has no
    output and no scores, no scorer is invoked and no score is emitted for
    the item; every item gets one task call and one result;
    [summary.errors] is the number of results with an error, and a result
    has an error exactly when its task threw or returned an output that
    [String()] cannot render. *)
Theorem evaluate_task_failure
    (options : EvaluateOptions World) (w w' : World) (summary : EvalSummary)
    (t : list (Event Span)) :
  evaluate host options w = (Normal summary, w', t) ->
  (forall i e,
     In (Throw e) (task_outcomes i t) ->
     exists r text,
       nth_error (results summary) i = Some r /\
       ToString e = Normal text /\
       error r = Some text /\
       output r = None /\
       scores r = [] /\
       scorer_calls i t = [] /\
       submitted i t = []) /\
  List.length (results summary) = total summary /\
  (forall i, i < total summary -> exists c, task_outcomes i t = [c]) /\
  errors summary = List.length (filter has_error (results summary)) /\
  (forall i r c,
     nth_error (results summary) i = Some r ->
     task_outcomes i t = [c] ->
     has_error r = match c with
                   | Throw _ => true
                   | Normal out => negb (renders out)
                   end).
Proof.
  intros E. apply evaluate_with_inv in E. destruct E as (ds & w0 & _ & Hf).
  destruct Hf as (_ & Htot & Hrun & _ & _ & Herr & _).
  split; [|split; [|split; [|split]]].
  - intros i e Hin.
    destruct (nth_error (results summary) i) as [r|] eqn:Hr.
    + destruct (run_facts_at _ _ _ _ _ _ i r Hrun Hr) as (d & _ & Hitem).
      pose proof Hitem as (_ & _ & _ & _ & _ & _ & c & Hc & Hcase).
      rewrite Hc in Hin. destruct Hin as [->|[]].
      destruct Hcase as (Ho & (text & Et & He) & Hs & Hcalls).
      assert (Hh : has_error r = true) by (unfold has_error; now rewrite He).
      destruct (item_facts_failed _ _ _ _ _ _ _ _ _ _ Hitem Hh) as (_ & _ & Hem & _).
      exists r, text. repeat split; assumption.
    + destruct (run_facts_outside _ _ _ _ _ _ i Hrun Hr) as (Hn & _).
      rewrite Hn in Hin. destruct Hin.
  - destruct Hrun as (Hlen & _). congruence.
  - intros i Hi. pose proof Hrun as (Hlen & _). rewrite Htot in Hi.
    destruct (nth_error (results summary) i) as [r|] eqn:Hr;
      [|apply nth_error_None in Hr; lia].
    destruct (run_facts_at _ _ _ _ _ _ i r Hrun Hr)
      as (d & _ & _ & _ & _ & _ & _ & _ & c & Hc & _).
    exists c. exact Hc.
  - exact Herr.
  - intros i r c Hr Hc.
    destruct (run_facts_at _ _ _ _ _ _ i r Hrun Hr) as (d & _ & Hitem).
    destruct (has_error r) eqn:Hh.
    + destruct (item_facts_failed _ _ _ _ _ _ _ _ _ _ Hitem Hh)
        as (_ & _ & _ & c' & Hc' & Hcase).
      rewrite Hc in Hc'. injection Hc' as <-.
      destruct c as [out|e]; [|reflexivity].
      destruct Hcase as (_ & e & Et & _). unfold renders. now rewrite Et.
    + destruct (item_facts_ok _ _ _ _ _ _ _ _ _ _ Hitem Hh)
        as (out & text & Hc' & _ & Et & _).
      rewrite Hc in Hc'. injection Hc' as ->. unfold renders. now rewrite Et.
Qed.


(** X24. In a run that returns, a scorer name is absent from
    [summary.averages] exactly when no Score recorded under it has a
    [value] other than [undefined]; and when all these values are numbers,
    [summary.averages[s]] is their arithmetic mean in double arithmetic. *)
Theorem evaluate_averages
    (options : EvaluateOptions World) (w w' : World) (summary : EvalSummary)
    (t : list (Event Span)) :
  evaluate host options w = (Normal summary, w', t) ->
  forall s,
    (prop_lookup s (averages summary) = None <->
     values_under s (results summary) = []) /\
    forall ns,
      values_under s (results summary) = map VNum ns ->
      prop_lookup s (averages summary)
      = match ns with [] => None | _ :: _ => Some (mean ns) end.
Proof.
  intros E s. apply evaluate_with_inv in E. destruct E as (ds & w0 & _ & Hf).
  destruct Hf as (_ & _ & _ & _ & _ & _ & Havg). specialize (Havg s). split.
  - destruct (values_under s (results summary)) as [|v vs].
    + now split.
    + destruct Havg as (avg & _ & ->). split; discriminate.
  - intros ns Hns. rewrite Hns in Havg. destruct ns as [|n ns]; [exact Havg|].
    destruct Havg as (avg & Ea & ->).
    change (VNum n :: map VNum ns) with (map VNum (n :: ns)) in Ea.
    rewrite average_numbers in Ea. congruence.
Qed.

(** X25. When [evaluate] throws, either the dataset producer threw that
    exception, before any span was started, or the dataset was resolved
    and the exception is a [TypeError]: the one raised by a conversion to a
    string or by the averaging pass.  A throwing producer always makes
    [evaluate] throw its exception, before any span is started. *)
Theorem evaluate_throws_own_errors
    (options : EvaluateOptions World) (w : World) :
  (forall e w' t,
     evaluate host options w = (Throw e, w', t) ->
     (exists produce,
        opt_data options = Producer produce /\
        produce w = (Throw e, w') /\ t = []) \/
     ((exists ds, dataset_of (opt_data options) w ds) /\
      exists msg, e = TypeError msg)) /\
  (forall produce e w',
     opt_data options = Producer produce ->
     produce w = (Throw e, w') ->
     evaluate host options w = (Throw e, w', [])).
Proof.
  split.
  - intros e w' t E. apply evaluate_with_throw in E.
    destruct E as [[Er ->]|[(ds & w0 & Er) Hmsg]].
    + left. unfold resolve_data, ret in Er.
      destruct (opt_data options) as [ds|produce]; [discriminate Er|].
      exists produce. split; [reflexivity|].
      destruct (produce w) as [r w1]. inversion Er; subst. auto.
    + right. split; [|exact Hmsg]. exists ds.
      apply (dataset_of_resolve (opt_data options) w ds). eauto.
  - intros produce e w' Hd Hp. unfold evaluate, evaluate_with, bind, resolve_data.
    rewrite Hd, Hp. reflexivity.
Qed.

Lemma submitted_In (i : nat) (o : ScoreOptions) (oc : Completion unit)
    (during t : list (Event Span)) :
  In (EvSubmit i o oc during) t -> In o (submitted i t).
Proof.
  intros Hin. unfold submitted. apply in_flat_map.
  exists (EvSubmit i o oc during). split; [exact Hin|].
  rewrite Nat.eqb_refl. now left.
Qed.

Lemma scorer_inputs_In (i : nat) (nm : string) (args : ScorerArgs)
    (oc : Completion value) (t : list (Event Span)) :
  In (EvScorer i nm args oc) t -> In args (scorer_inputs i t).
Proof.
  intros Hin. unfold scorer_inputs. apply in_flat_map.
  exists (EvScorer i nm args oc). split; [exact Hin|].
  rewrite Nat.eqb_refl. now left.
Qed.

(** X9. With [emitScores: false] no score is handed to the score-emission
    primitive, for any item and whatever the task and the scorers do. *)
Theorem evaluate_no_emission_when_disabled
    (options : EvaluateOptions World) (w w' : World) (summary : EvalSummary)
    (t : list (Event Span)) :
  opt_emitScores options = Some false ->
  evaluate host options w = (Normal summary, w', t) ->
  forall i o oc during, ~ In (EvSubmit i o oc during) t.
Proof.
  intros Hoff E i o oc during Hin. apply submitted_In in Hin.
  apply evaluate_with_inv in E. destruct E as (ds & w0 & _ & Hf).
  destruct Hf as (_ & _ & Hrun & _). unfold emit_flag in Hrun. rewrite Hoff in Hrun.
  destruct (nth_error (results summary) i) as [r|] eqn:Hr.
  - destruct (run_facts_at _ _ _ _ _ _ i r Hrun Hr)
      as (d & _ & _ & _ & _ & _ & _ & (tid & sid & Hem) & _).
    cbn in Hem. rewrite Hem in Hin. destruct Hin.
  - destruct (run_facts_outside _ _ _ _ _ _ i Hrun Hr) as (_ & _ & _ & Hs).
    rewrite Hs in Hin. destruct Hin.
Qed.

(** X10. In every result of a run that returns, either there is an error
    text and no score, or there is no error and there is an output, one
    that can be rendered as a string; and [summary.errors] never exceeds
    [summary.total]. *)
Theorem evaluate_error_excludes_scores
    (options : EvaluateOptions World) (w w' : World) (summary : EvalSummary)
    (t : list (Event Span)) :
  evaluate host options w = (Normal summary, w', t) ->
  (forall r, In r (results summary) ->
     (exists msg, error r = Some msg /\ scores r = []) \/
     (error r = None /\ exists out, output r = Some out /\ renders out = true)) /\
  errors summary <= total summary.
Proof.
  intros E. apply evaluate_with_inv in E. destruct E as (ds & w0 & _ & Hf).
  destruct Hf as (_ & Htot & Hrun & _ & _ & Herr & _). split.
  - intros r Hin.
    destruct (run_facts_result _ _ _ _ _ _ r Hrun Hin) as (j & d & _ & _ & Hitem).
    destruct (has_error r) eqn:Hh.
    + left. destruct (item_facts_failed _ _ _ _ _ _ _ _ _ _ Hitem Hh) as (Hs & _).
      unfold has_error in Hh. destruct (error r) as [msg|]; [eauto|discriminate].
    + right. destruct (item_facts_ok _ _ _ _ _ _ _ _ _ _ Hitem Hh)
        as (out & text & _ & Ho & Et & _).
      unfold has_error in Hh. destruct (error r); [discriminate|].
      split; [reflexivity|]. exists out. split; [exact Ho|].
      unfold renders. now rewrite Et.
  - rewrite Herr, Htot. destruct Hrun as (<- & _). apply filter_length_le.
Qed.

(** X11. Scores and averages are keyed by scorer names only: every key of
    [results[i].scores] and every key of [summary.averages] is the name of
    a scorer of the supplied list. *)
Theorem evaluate_keys_are_scorer_names
    (options : EvaluateOptions World) (w w' : World) (summary : EvalSummary)
    (t : list (Event Span)) :
  evaluate host options w = (Normal summary, w', t) ->
  (forall r k, In r (results summary) -> In k (keys (scores r)) ->
     In k (map (@scorer_name World) (opt_scores options))) /\
  (forall k, In k (keys (averages summary)) ->
     In k (map (@scorer_name World) (opt_scores options))).
Proof.
  intros E. apply evaluate_with_inv in E. destruct E as (ds & w0 & _ & Hf).
  destruct Hf as (_ & _ & Hrun & _ & _ & _ & Havg).
  assert (Hres : forall r k, In r (results summary) -> In k (keys (scores r)) ->
                   In k (map (@scorer_name World) (opt_scores options))).
  { intros r k Hin Hk.
    destruct (run_facts_result _ _ _ _ _ _ r Hrun Hin) as (j & d & _ & _ & Hitem).
    destruct (has_error r) eqn:Hh.
    - destruct (item_facts_failed _ _ _ _ _ _ _ _ _ _ Hitem Hh) as (Hs & _).
      rewrite Hs in Hk. destruct Hk.
    - destruct (item_facts_ok _ _ _ _ _ _ _ _ _ _ Hitem Hh)
        as (out & text & _ & _ & _ & Hs & Hf).
      rewrite Hs in Hk. apply fold_record_call_keys in Hk.
      destruct Hk as [[]|[raw Hraw]]. unfold calls_follow in Hf.
      destruct (is_undefined (expected r) || renders (expected r)).
      + rewrite <- Hf. apply in_map_iff. exists (k, Normal raw). now split.
      + rewrite Hf in Hraw. destruct Hraw. }
  split; [exact Hres|].
  intros k Hk. apply (prop_lookup_in_keys k (averages summary)) in Hk.
  destruct Hk as [a Ha]. specialize (Havg k).
  destruct (values_under k (results summary)) as [|v vs] eqn:Ev; [congruence|].
  assert (Hv : In v (values_under k (results summary))) by (rewrite Ev; now left).
  unfold values_under in Hv. apply in_flat_map in Hv. destruct Hv as (r & Hin & Hv).
  destruct (prop_lookup k (scores r)) as [scoreObj|] eqn:El; [|destruct Hv].
  apply (Hres r k Hin). apply (prop_lookup_in_keys k (scores r)). eauto.
Qed.


(** X13. What a scorer receives: every scorer invocation made for item [i]
    gets the string rendering of [results[i].input] as [input], the string
    rendering of the task's output as [output], and as [expected] the
    string rendering of [results[i].expected], left out when that is
    [undefined]. *)
Theorem evaluate_scorer_arguments
    (options : EvaluateOptions World) (w w' : World) (summary : EvalSummary)
    (t : list (Event Span)) :
  evaluate host options w = (Normal summary, w', t) ->
  forall i nm args oc,
    In (EvScorer i nm args oc) t ->
    exists r out,
      nth_error (results summary) i = Some r /\
      output r = Some out /\
      ToString (input r) = Normal (arg_input args) /\
      ToString out = Normal (arg_output args) /\
      (if is_undefined (expected r) then arg_expected args = None
       else exists text,
              ToString (expected r) = Normal text /\ arg_expected args = Some text).
Proof.
  intros E i nm args oc Hin. apply scorer_inputs_In in Hin.
  apply evaluate_with_inv in E. destruct E as (ds & w0 & _ & Hf).
  destruct Hf as (_ & _ & Hrun & _).
  destruct (nth_error (results summary) i) as [r|] eqn:Hr.
  - destruct (run_facts_at _ _ _ _ _ _ i r Hrun Hr)
      as (d & _ & _ & _ & _ & _ & Hall & _).
    rewrite Forall_forall in Hall.
    destruct (Hall args Hin) as (out & Ho & Hi & Hou & He).
    exists r, out. auto.
  - destruct (run_facts_outside _ _ _ _ _ _ i Hrun Hr) as (_ & _ & Hn & _).
    rewrite Hn in Hin. destruct Hin.
Qed.

(** X14. What is emitted: for every item, the scores handed to the
    score-emission primitive are exactly the Scores recorded in
    [results[i].scores], once each and in order, when emission is on and the
    task succeeded, and none otherwise; each carries the key as its name,
    the Score's [value], [label] and [rationale], the source [eval], the
    metadata [{eval_name, item_index}] and the item span's identifiers. *)
Theorem evaluate_emits_recorded_scores
    (options : EvaluateOptions World) (w w' : World) (summary : EvalSummary)
    (t : list (Event Span)) :
  evaluate host options w = (Normal summary, w', t) ->
  forall i r,
    nth_error (results summary) i = Some r ->
    exists traceId spanId,
      submitted i t
      = (if emit_flag options && negb (has_error r)
         then map (emitted_options (opt_name options) i traceId spanId) (scores r)
         else []).
Proof.
  intros E i r Hr. apply evaluate_with_inv in E. destruct E as (ds & w0 & _ & Hf).
  destruct Hf as (_ & _ & Hrun & _).
  destruct (run_facts_at _ _ _ _ _ _ i r Hrun Hr)
    as (d & _ & _ & _ & _ & _ & _ & Hem & _).
  exact Hem.
Qed.

(** X15. The span tree of a run: [evaluate] starts the run span, then for
    each result in order an [eval_item] span, an [eval_task] span and, when
    the task succeeded, one [eval_score.<name>] span per scorer of the list;
    it starts no other span itself and ends as many spans as it starts. *)
Theorem evaluate_span_structure
    (options : EvaluateOptions World) (w w' : World) (summary : EvalSummary)
    (t : list (Event Span)) :
  evaluate host options w = (Normal summary, w', t) ->
  started_spans t
  = "evaluate" :: flat_map (item_spans (map (@scorer_name World) (opt_scores options)))
                           (results summary) /\
  ended_spans t = List.length (started_spans t).
Proof.
  intros E. apply evaluate_with_inv in E. destruct E as (ds & w0 & _ & Hf).
  destruct Hf as (_ & _ & _ & Hs & He & _). now split.
Qed.

End RunProperties.

(** ** Example runs *)

Lemma example_run :
  Evaluate.evaluate (engine := example_engine) example_host example_options tt
  = (Normal example_summary, tt, example_trace).
Proof. vm_compute. reflexivity. Defined.

Lemma quiet_run :
  Evaluate.evaluate (engine := example_engine) example_host quiet_options tt
  = (Normal quiet_summary, tt, quiet_trace).
Proof. vm_compute. reflexivity. Defined.

Lemma opaque_run :
  Evaluate.evaluate (engine := example_engine) example_host opaque_options tt
  = (Normal opaque_summary, tt, opaque_trace).
Proof. vm_compute. reflexivity. Defined.

(** ** The runs on which the specification and the code part *)

(** C2: the code averages every [value] other than [undefined], numeric or
    not.  The scorer [passed] returns the Score [{name: "passed", value:
    true}]; no Score recorded under [passed] has a numeric value, yet
    [averages.passed] is present: it is [(0 + true) / 1 = 1]. *)
Theorem averages_include_non_numeric_values :
  Evaluate.evaluate (engine := example_engine) example_host passed_options tt
  = (Normal passed_summary, tt, passed_trace) /\
  values_under "passed" (results passed_summary) = [VBool true] /\
  numeric_values_under "passed" (results passed_summary) = [] /\
  prop_lookup "passed" (averages passed_summary) = Some PrimFloat.one.
Proof. repeat split. Qed.

(** C3: the run counts an error for an item whose task did not throw.  The
    task of [opaque_options] returns [{toString: 1}]; rendering this output
    for the task span raises inside the guarded block, so the result gets
    an error text next to its output and [summary.errors] is 1, although
    the only task call of the run returned. *)
Theorem evaluate_counts_unrenderable_output :
  Evaluate.evaluate (engine := example_engine) example_host opaque_options tt
  = (Normal opaque_summary, tt, opaque_trace) /\
  all_task_outcomes opaque_trace = [Normal unconvertible] /\
  errors opaque_summary = 1 /\
  map output (results opaque_summary) = [Some unconvertible] /\
  map error (results opaque_summary)
  = [Some "TypeError: Cannot convert object to primitive value"].
Proof. repeat split. Qed.

(** C4: a scorer that returns contributes no entry when its name is
    [__proto__].  In the run of [proto_options] the task succeeds and the
    only scorer returns the number 1, yet [results[0].scores] is empty. *)
Theorem evaluate_drops_proto_scorer :
  Evaluate.evaluate (engine := example_engine) example_host proto_options tt
  = (Normal proto_summary, tt, proto_trace) /\
  all_task_outcomes proto_trace = [Normal (VStr "4")] /\
  scorer_calls 0 proto_trace = [("__proto__", Normal (VNum PrimFloat.one))] /\
  map error (results proto_summary) = [None] /\
  map scores (results proto_summary) = [[]].
Proof. repeat split. Qed.

(** C6: with a dataset supplied directly whose only input is
    [{toString: 1}], [evaluate] returns no summary: rendering the input for
    the item span raises outside every guarded block, after the run span
    alone was started, and before the task is called. *)
Theorem evaluate_throws_on_unrenderable_input :
  dataset_of (Evaluate.opt_data opaque_input_options) tt [[("input", unconvertible)]] /\
  fst (fst (Evaluate.evaluate (engine := example_engine) example_host
              opaque_input_options tt))
  = Throw (TypeError "Cannot convert object to primitive value") /\
  started_spans (snd (Evaluate.evaluate (engine := example_engine) example_host
                        opaque_input_options tt)) = ["evaluate"] /\
  all_task_outcomes (snd (Evaluate.evaluate (engine := example_engine) example_host
                            opaque_input_options tt)) = [].
Proof. repeat split. Qed.

(** C9: [evaluate] throws on a directly supplied dataset although neither
    the task nor the scorer throws.  The only scorer of [toString_options]
    is named [toString] and returns the number 1; the averaging pass finds
    the member that every object inherits under this name instead of a
    list, and calling [push] on it raises a [TypeError]. *)
Theorem evaluate_throws_on_inherited_name :
  Evaluate.opt_data toString_options = Evaluate.Direct [[("input", VStr "2+2?")]] /\
  fst (fst (Evaluate.evaluate (engine := example_engine) example_host toString_options tt))
  = Throw (TypeError "scoreTotals[scorerName].push is not a function") /\
  all_task_outcomes (snd (Evaluate.evaluate (engine := example_engine) example_host
                            toString_options tt)) = [Normal (VStr "4")] /\
  scorer_calls 0 (snd (Evaluate.evaluate (engine := example_engine) example_host
                         toString_options tt))
  = [("toString", Normal (VNum PrimFloat.one))].
Proof. repeat split. Qed.

(** ** The properties of a run, on the example runs *)

Lemma evaluate_results_follow_dataset_witness :
  dataset_of (Evaluate.opt_data example_options) tt example_dataset /\
  total example_summary = List.length example_dataset /\
  List.length (results example_summary) = total example_summary /\
  forall i datum,
    nth_error example_dataset i = Some datum ->
    exists r, nth_error (results example_summary) i = Some r /\
              input r = obj_get datum "input" /\
              expected r = obj_get datum "expected".
Proof.
  split; [reflexivity|].
  exact (evaluate_results_follow_dataset (engine := example_engine) example_host
           example_options tt tt example_dataset example_summary example_trace
           eq_refl example_run).
Defined.

Lemma evaluate_task_failure_witness :
  In (Throw (VError "Error" "boom")) (task_outcomes 1 example_trace) /\
  exists r text,
    nth_error (results example_summary) 1 = Some r /\
    ToString (engine := example_engine) (VError "Error" "boom") = Normal text /\
    error r = Some text /\
    output r = None /\
    scores r = [] /\
    scorer_calls 1 example_trace = [] /\
    submitted 1 example_trace = [].
Proof.
  split; [left; reflexivity|].
  apply (proj1 (evaluate_task_failure (engine := example_engine) example_host
                  example_options tt tt example_summary example_trace example_run)).
  left. reflexivity.
Defined.


Lemma evaluate_averages_witness :
  values_under "exact_match" (results example_summary) = map VNum [PrimFloat.one] /\
  prop_lookup "exact_match" (averages example_summary) = Some (mean [PrimFloat.one]) /\
  (prop_lookup "broken" (averages example_summary) = None <->
   values_under "broken" (results example_summary) = []).
Proof.
  split; [reflexivity|]. split.
  - exact (proj2 (evaluate_averages (engine := example_engine) example_host
                    example_options tt tt example_summary example_trace example_run
                    "exact_match") [PrimFloat.one] eq_refl).
  - exact (proj1 (evaluate_averages (engine := example_engine) example_host
                    example_options tt tt example_summary example_trace example_run
                    "broken")).
Defined.

Lemma evaluate_throws_own_errors_witness :
  Evaluate.evaluate (engine := example_engine) example_host failing_producer_options tt
  = (Throw (VError "Error" "no data"), tt, []).
Proof.
  exact (proj2 (evaluate_throws_own_errors (engine := example_engine) example_host
                  failing_producer_options tt)
           (fun w => (Throw (VError "Error" "no data"), w))
           (VError "Error" "no data") tt eq_refl eq_refl).
Defined.

Lemma evaluate_no_emission_when_disabled_witness :
  Evaluate.opt_emitScores quiet_options = Some false /\
  forall i o oc during, ~ In (EvSubmit i o oc during) quiet_trace.
Proof.
  split; [reflexivity|].
  exact (evaluate_no_emission_when_disabled (engine := example_engine) example_host
           quiet_options tt tt quiet_summary quiet_trace eq_refl quiet_run).
Defined.

Lemma evaluate_error_excludes_scores_witness :
  (forall r, In r (results opaque_summary) ->
     (exists msg, error r = Some msg /\ scores r = []) \/
     (error r = None /\
      exists out, output r = Some out /\ renders (engine := example_engine) out = true)) /\
  errors opaque_summary <= total opaque_summary.
Proof.
  exact (evaluate_error_excludes_scores (engine := example_engine) example_host
           opaque_options tt tt opaque_summary opaque_trace opaque_run).
Defined.

Lemma evaluate_keys_are_scorer_names_witness :
  (forall r k, In r (results example_summary) -> In k (keys (scores r)) ->
     In k (map (@Evaluate.scorer_name unit) (Evaluate.opt_scores example_options))) /\
  (forall k, In k (keys (averages example_summary)) ->
     In k (map (@Evaluate.scorer_name unit) (Evaluate.opt_scores example_options))).
Proof.
  exact (evaluate_keys_are_scorer_names (engine := example_engine) example_host
           example_options tt tt example_summary example_trace example_run).
Defined.


Lemma evaluate_scorer_arguments_witness :
  Evaluate.evaluate (engine := example_engine) example_host example_options tt
  = (Normal example_summary, tt, example_trace) /\
  forall i nm args oc,
    In (EvScorer i nm args oc) example_trace ->
    exists r out,
      nth_error (results example_summary) i = Some r /\
      output r = Some out /\
      ToString (engine := example_engine) (input r) = Normal (arg_input args) /\
      ToString (engine := example_engine) out = Normal (arg_output args) /\
      (if is_undefined (expected r) then arg_expected args = None
       else exists text,
              ToString (engine := example_engine) (expected r) = Normal text /\
              arg_expected args = Some text).
Proof.
  split; [exact example_run|].
  exact (evaluate_scorer_arguments (engine := example_engine) example_host
           example_options tt tt example_summary example_trace example_run).
Defined.

Lemma evaluate_emits_recorded_scores_witness :
  exists r traceId spanId,
    nth_error (results example_summary) 0 = Some r /\
    submitted 0 example_trace
    = map (emitted_options "qa-eval" 0 traceId spanId) (scores r).
Proof.
  destruct (nth_error (results example_summary) 0) as [r|] eqn:Er; [|discriminate Er].
  destruct (evaluate_emits_recorded_scores (engine := example_engine) example_host
              example_options tt tt example_summary example_trace example_run 0 r Er)
    as (traceId & spanId & Hem).
  exists r, traceId, spanId. split; [reflexivity|].
  vm_compute in Er. injection Er as <-. exact Hem.
Defined.

Lemma evaluate_span_structure_witness :
  started_spans example_trace
  = "evaluate"
    :: flat_map (item_spans (map (@Evaluate.scorer_name unit)
                                 (Evaluate.opt_scores example_options)))
                (results example_summary) /\
  ended_spans example_trace = List.length (started_spans example_trace).
Proof.
  exact (evaluate_span_structure (engine := example_engine) example_host
           example_options tt tt example_summary example_trace example_run).
Defined.

(** The scenarios of the specification. *)

(** Scenario C: a plain number becomes the Score's [value]. *)
Example scenario_plain_number (scorerName : string) (n : float) :
  Protocol.adaptScore (engine := example_engine) scorerName (VNum n)
  = Normal (VObj [("name", VStr scorerName); ("value", VNum n)]).
Proof. reflexivity. Qed.

(** Scenario D: a result with a numeric [score] field. *)
Example scenario_score_field (scorerName : string) :
  Protocol.adaptScore (engine := example_engine) scorerName
    (VObj [("score", VNum 0.5); ("choice", VStr "B"); ("rationale", VStr "because")])
  = Normal (VObj [("name", VStr scorerName); ("value", VNum 0.5); ("label", VStr "B");
                  ("rationale", VStr "because"); ("metadata", VObj [])]).
Proof. reflexivity. Qed.

(** Scenarios A, B and E on the example run: item 0 succeeds and is scored
    by [exact_match] alone ([broken] throws), item 1 fails in its task. *)
Example scenario_example_run :
  total example_summary = 2 /\
  errors example_summary = 1 /\
  averages example_summary = [("exact_match", PrimFloat.one)] /\
  map (fun r => keys (scores r)) (results example_summary) = [["exact_match"]; []] /\
  map error (results example_summary) = [None; Some "Error: boom"] /\
  map so_name (submitted 0 example_trace) = ["exact_match"] /\
  submitted 1 example_trace = [].
Proof. repeat split. Qed.

(** A producer that throws makes [evaluate] throw, before any span. *)
Example scenario_failing_producer :
  Evaluate.evaluate (engine := example_engine) example_host failing_producer_options tt
  = (Throw (VError "Error" "no data"), tt, []).
Proof. reflexivity. Qed.

(** ** The score-emission primitive *)

Section ScoreFacts.
Context {engine : Engine} {World Span : Type}.
Variable host : Host World Span.

(** [score] computes its attributes, then starts and ends one span; an
    exception raised while computing them leaves before any span. *)
Lemma score_cases (options : ScoreOptions) (w : World) :
  match Score.score host options w with
  | (Throw e, w', t) =>
      w' = w /\ t = [] /\
      score_span_attributes (env_OPENSEARCH_PROJECT host w) options = Throw e
  | (Normal _, _, t) =>
      exists attrs span,
        score_span_attributes (env_OPENSEARCH_PROJECT host w) options = Normal attrs /\
        t = [EvStartSpan Score.TRACER_NAME ("score." ++ so_name options)%string attrs span;
             EvSpanEnd span]
  end.
Proof.
  unfold Score.score, score_span_attributes, score_base_attributes,
    bind, read_env_project, startActiveSpan, span_end, lift, ret.
  cbn zeta.
  destruct (ToBoolean (so_rationale options)).
  - destruct (js_slice0 (so_rationale options) 500) as [sliced|e]; cbn; [|auto].
    destruct (so_metadata options) as [md|]; cbn.
    + destruct (Score.metadata_attributes md _) as [attrs|e]; cbn; [|auto].
      destruct (startSpan host _ _ _ w) as [span w1]. cbn. eauto.
    + destruct (startSpan host _ _ _ w) as [span w1]. cbn. eauto.
  - cbn. destruct (so_metadata options) as [md|]; cbn.
    + destruct (Score.metadata_attributes md _) as [attrs|e]; cbn; [|auto].
      destruct (startSpan host _ _ _ w) as [span w1]. cbn. eauto.
    + destruct (startSpan host _ _ _ w) as [span w1]. cbn. eauto.
Qed.

Lemma js_slice0_throw_length (v e : value) (n : nat) :
  js_slice0 v n = Throw e -> js_length v = None.
Proof. destruct v; cbn; intros E; try discriminate E; reflexivity. Qed.

Lemma js_slice0_normal_length (v r : value) (n : nat) :
  js_slice0 v n = Normal r -> js_length v <> None.
Proof. destruct v; cbn; intros E; try discriminate E; discriminate. Qed.

Lemma lookup_set_if_truthy (k key : string) (o : option string) (attrs : props) :
  k <> key ->
  prop_lookup k (Score.set_if_truthy key o attrs) = prop_lookup k attrs.
Proof.
  intros Hne. unfold Score.set_if_truthy. destruct o as [s|]; [|reflexivity].
  destruct (ToBoolean (VStr s)); [|reflexivity]. now apply prop_lookup_set_other.
Qed.

Lemma lookup_set_if (b : bool) (k key : string) (v : value) (attrs : props) :
  k <> key ->
  prop_lookup k (if b then set_prop key v attrs else attrs) = prop_lookup k attrs.
Proof. intros Hne. destruct b; [|reflexivity]. now apply prop_lookup_set_other. Qed.

Lemma lookup_set_if_truthy_same (key : string) (o : option string) (attrs : props) :
  prop_lookup key attrs = None ->
  prop_lookup key (Score.set_if_truthy key o attrs) = truthy_string o.
Proof.
  intros Hn. unfold Score.set_if_truthy, truthy_string. destruct o as [s|]; [|exact Hn].
  cbn. destruct (String.eqb s ""); cbn; [exact Hn | apply prop_lookup_set_same].
Qed.

(** The metadata loop fails at the first value that cannot be rendered. *)
Lemma metadata_attributes_cases (md attrs : props) :
  match find (fun v => negb (renders v)) (map snd md) with
  | Some v => exists e, ToString v = Throw e /\ Score.metadata_attributes md attrs = Throw e
  | None => exists attrs', Score.metadata_attributes md attrs = Normal attrs'
  end.
Proof.
  revert attrs. induction md as [|[k v] rest IH]; intros attrs; cbn.
  - eauto.
  - unfold renders at 1. destruct (ToString v) as [text|e] eqn:Et; cbn.
    + apply IH.
    + eauto.
Qed.

Lemma lookup_metadata_other (k : string) (md attrs attrs' : props) :
  (forall k', k <> ("score.metadata." ++ k')%string) ->
  Score.metadata_attributes md attrs = Normal attrs' ->
  prop_lookup k attrs' = prop_lookup k attrs.
Proof.
  intros Hk. revert attrs. induction md as [|[k0 v0] rest IH]; intros attrs; cbn.
  - intros E. now inversion E.
  - destruct (ToString v0) as [text|e]; cbn; [|discriminate].
    intros E. rewrite (IH _ E). apply prop_lookup_set_other. apply Hk.
Qed.

Lemma lookup_metadata_entry (k : string) (md attrs attrs' : props) :
  NoDup (keys md) ->
  Score.metadata_attributes md attrs = Normal attrs' ->
  match prop_lookup k md with
  | Some v =>
      exists s, ToString v = Normal s /\
                prop_lookup ("score.metadata." ++ k)%string attrs' = Some (VStr s)
  | None =>
      prop_lookup ("score.metadata." ++ k)%string attrs'
      = prop_lookup ("score.metadata." ++ k)%string attrs
  end.
Proof.
  unfold keys. revert attrs. induction md as [|[k0 v0] rest IH]; intros attrs Hnd; cbn.
  - intros E. now inversion E.
  - inversion Hnd as [|? ? Hni Hnd']; subst.
    destruct (ToString v0) as [text|e] eqn:Et; cbn; [|discriminate].
    intros E. specialize (IH _ Hnd' E). cbn in IH.
    destruct (String.eqb_spec k k0) as [->|Hne].
    + destruct (prop_lookup k0 rest) as [x|] eqn:El.
      * exfalso. apply Hni. apply (prop_lookup_in_keys k0 rest). eauto.
      * exists text. split; [exact Et|]. rewrite IH. apply prop_lookup_set_same.
    + destruct (prop_lookup k rest); [exact IH|].
      rewrite IH. apply prop_lookup_set_other. cbn. intros E'. apply Hne.
      now repeat (injection E' as E').
Qed.

(** The attributes of a score that was submitted: the base attributes,
    then the cut rationale, then the metadata. *)
Lemma score_span_attributes_inv (env : option string) (options : ScoreOptions)
    (attrs : props) :
  score_span_attributes env options = Normal attrs ->
  exists attrs1,
    attrs1
    = (if ToBoolean (so_rationale options) then
         match js_slice0 (so_rationale options) 500 with
         | Normal sliced =>
             set_prop "score.rationale" sliced (score_base_attributes env options)
         | Throw _ => score_base_attributes env options
         end
       else score_base_attributes env options) /\
    (ToBoolean (so_rationale options) = true ->
     exists sliced, js_slice0 (so_rationale options) 500 = Normal sliced) /\
    match so_metadata options with
    | Some md => Score.metadata_attributes md attrs1 = Normal attrs
    | None => attrs = attrs1
    end.
Proof.
  unfold score_span_attributes. cbn zeta.
  destruct (ToBoolean (so_rationale options)).
  - destruct (js_slice0 (so_rationale options) 500) as [sliced|e]; cbn; [|discriminate].
    intros E. eexists. split; [reflexivity|]. split; [eauto|].
    destruct (so_metadata options); [exact E | now inversion E].
  - cbn. intros E. eexists. split; [reflexivity|]. split; [discriminate|].
    destruct (so_metadata options); [exact E | now inversion E].
Qed.

(** A lookup that the rationale and the metadata leave alone. *)
Lemma lookup_base (env : option string) (options : ScoreOptions) (attrs : props)
    (k : string) :
  score_span_attributes env options = Normal attrs ->
  k <> "score.rationale" ->
  (forall k', k <> ("score.metadata." ++ k')%string) ->
  prop_lookup k attrs = prop_lookup k (score_base_attributes env options).
Proof.
  intros E Hr Hm. apply score_span_attributes_inv in E.
  destruct E as (attrs1 & Ha & _ & Hmd).
  assert (H1 : prop_lookup k attrs1 = prop_lookup k (score_base_attributes env options)).
  { rewrite Ha. destruct (ToBoolean (so_rationale options)); [|reflexivity].
    destruct (js_slice0 (so_rationale options) 500); [|reflexivity].
    now apply prop_lookup_set_other. }
  destruct (so_metadata options) as [md|].
  - rewrite (lookup_metadata_other k md attrs1 attrs Hm Hmd). exact H1.
  - now subst attrs.
Qed.

Lemma lookup_rationale (env : option string) (options : ScoreOptions) (attrs : props) :
  score_span_attributes env options = Normal attrs ->
  match prop_lookup "score.rationale" attrs with
  | Some sliced =>
      ToBoolean (so_rationale options) = true /\
      js_slice0 (so_rationale options) 500 = Normal sliced
  | None => ToBoolean (so_rationale options) = false
  end.
Proof.
  intros E. apply score_span_attributes_inv in E.
  destruct E as (attrs1 & Ha & Hs & Hmd).
  assert (Hb : prop_lookup "score.rationale" (score_base_attributes env options) = None).
  { unfold score_base_attributes. cbn zeta.
    rewrite lookup_set_if_truthy by discriminate.
    rewrite lookup_set_if by discriminate.
    rewrite !lookup_set_if_truthy by discriminate.
    rewrite lookup_set_if by discriminate. reflexivity. }
  assert (H1 : prop_lookup "score.rationale" attrs = prop_lookup "score.rationale" attrs1).
  { destruct (so_metadata options) as [md|]; [|now subst attrs].
    apply (lookup_metadata_other _ md); [intros k'; discriminate | exact Hmd]. }
  rewrite H1, Ha. destruct (ToBoolean (so_rationale options)) eqn:Et.
  - destruct (Hs eq_refl) as [sliced Es]. rewrite Es, prop_lookup_set_same. now split.
  - now rewrite Hb.
Qed.

Ltac base_lookup :=
  unfold score_base_attributes; cbn zeta;
  repeat first [ rewrite lookup_set_if_truthy by discriminate
               | rewrite lookup_set_if by discriminate ].

(** X5. [score] throws in two cases only, and then before any span is
    started: when the rationale is truthy and is neither a string nor an
    array (it has no [slice]), or else when a metadata value cannot be
    rendered by [String()], the exception being that of the first such
    value.  Otherwise it starts one span named [score.<name>] on its
    tracer, ends that span and returns. *)
Theorem score_throws_before_any_span (options : ScoreOptions) (w : World) :
  match Score.score host options w with
  | (Throw e, w', t) =>
      w' = w /\ t = [] /\
      ((ToBoolean (so_rationale options) = true /\
        js_length (so_rationale options) = None /\
        js_slice0 (so_rationale options) 500 = Throw e) \/
       ((ToBoolean (so_rationale options) = true ->
         js_length (so_rationale options) <> None) /\
        exists v, unrendered_metadata (so_metadata options) = Some v /\
                  ToString v = Throw e))
  | (Normal _, _, t) =>
      (ToBoolean (so_rationale options) = true ->
       js_length (so_rationale options) <> None) /\
      unrendered_metadata (so_metadata options) = None /\
      exists attrs span,
        t = [EvStartSpan Score.TRACER_NAME ("score." ++ so_name options)%string attrs span;
             EvSpanEnd span]
  end.
Proof.
  pose proof (score_cases options w) as Hc.
  destruct (Score.score host options w) as [[[u|e] w'] t].
  - destruct Hc as (attrs & span & Ea & ->).
    unfold score_span_attributes in Ea. cbn zeta in Ea.
    assert (Hmd : forall attrs1,
              match so_metadata options with
              | Some metadata => Score.metadata_attributes metadata attrs1
              | None => Normal attrs1
              end = Normal attrs ->
              unrendered_metadata (so_metadata options) = None).
    { intros attrs1 E. unfold unrendered_metadata.
      destruct (so_metadata options) as [md|]; [|reflexivity].
      pose proof (metadata_attributes_cases md attrs1) as Hm.
      destruct (find _ (map snd md)); [|reflexivity].
      destruct Hm as (e & _ & Hm). congruence. }
    destruct (ToBoolean (so_rationale options)).
    + destruct (js_slice0 (so_rationale options) 500) as [sliced|e] eqn:Es;
        [|discriminate Ea].
      split; [intros _; exact (js_slice0_normal_length _ _ _ Es)|].
      split; [exact (Hmd _ Ea) | eauto].
    + split; [discriminate|]. split; [exact (Hmd _ Ea) | eauto].
  - destruct Hc as (-> & -> & Ea). split; [reflexivity|]. split; [reflexivity|].
    unfold score_span_attributes in Ea. cbn zeta in Ea.
    assert (Hmd : forall attrs1,
              match so_metadata options with
              | Some metadata => Score.metadata_attributes metadata attrs1
              | None => Normal attrs1
              end = Throw e ->
              exists v, unrendered_metadata (so_metadata options) = Some v /\
                        ToString v = Throw e).
    { intros attrs1 E. unfold unrendered_metadata.
      destruct (so_metadata options) as [md|]; [|discriminate E].
      pose proof (metadata_attributes_cases md attrs1) as Hm.
      destruct (find _ (map snd md)) as [v|].
      - destruct Hm as (e' & Hv & Hm). exists v. split; [reflexivity|]. congruence.
      - destruct Hm as (attrs' & Hm). congruence. }
    destruct (ToBoolean (so_rationale options)).
    + destruct (js_slice0 (so_rationale options) 500) as [sliced|e'] eqn:Es.
      * right. split; [intros _; exact (js_slice0_normal_length _ _ _ Es)|].
        exact (Hmd _ Ea).
      * left. cbn in Ea. injection Ea as ->.
        split; [reflexivity|]. split; [exact (js_slice0_throw_length _ _ _ Es) | reflexivity].
    + right. split; [discriminate | exact (Hmd _ Ea)].
Qed.

Lemma score_normal_inv (options : ScoreOptions) (w w' : World) (t : list (Event Span)) :
  Score.score host options w = (Normal tt, w', t) ->
  exists attrs span,
    score_span_attributes (env_OPENSEARCH_PROJECT host w) options = Normal attrs /\
    t = [EvStartSpan Score.TRACER_NAME ("score." ++ so_name options)%string attrs span;
         EvSpanEnd span].
Proof.
  intros E. pose proof (score_cases options w) as Hc. rewrite E in Hc. exact Hc.
Qed.

(** X6. The identifying attributes of a score cannot be displaced: the span
    carries [opensearch.score = true], the score's name, and the data type,
    source and project with their defaults ([NUMERIC], [sdk], the
    [OPENSEARCH_PROJECT] variable or [default]), whatever the value, the
    rationale and the metadata are. *)
Theorem score_core_attributes (options : ScoreOptions) (w w' : World)
    (t : list (Event Span)) :
  Score.score host options w = (Normal tt, w', t) ->
  exists attrs span,
    t = [EvStartSpan Score.TRACER_NAME ("score." ++ so_name options)%string attrs span;
         EvSpanEnd span] /\
    prop_lookup "opensearch.score" attrs = Some (VBool true) /\
    prop_lookup "score.name" attrs = Some (VStr (so_name options)) /\
    prop_lookup "score.data_type" attrs
    = Some (VStr (match so_dataType options with Some d => d | None => "NUMERIC" end)) /\
    prop_lookup "score.source" attrs
    = Some (VStr (match so_source options with Some s => s | None => "sdk" end)) /\
    prop_lookup "score.project" attrs
    = Some (VStr (match so_project options, env_OPENSEARCH_PROJECT host w with
                  | Some p, _ => p
                  | None, Some p => p
                  | None, None => "default"
                  end)).
Proof.
  intros E. apply score_normal_inv in E. destruct E as (attrs & span & Ea & ->).
  exists attrs, span. split; [reflexivity|].
  repeat split;
    (rewrite (lookup_base _ _ _ _ Ea) by (try intros k'; discriminate));
    base_lookup; unfold Score.default_to;
    destruct (so_dataType options), (so_source options), (so_project options),
      (env_OPENSEARCH_PROJECT host w); reflexivity.
Qed.

(** X7. Which optional attributes a score span carries: [score.value]
    whenever the value is not [undefined] (zero and [null] are kept);
    [score.trace_id], [score.span_id] and [score.comment] only for a
    non-empty string; [score.label] only for a truthy label;
    [score.rationale], cut to 500, only for a truthy rationale. *)
Theorem score_optional_attributes (options : ScoreOptions) (w w' : World)
    (t : list (Event Span)) :
  Score.score host options w = (Normal tt, w', t) ->
  exists attrs span,
    t = [EvStartSpan Score.TRACER_NAME ("score." ++ so_name options)%string attrs span;
         EvSpanEnd span] /\
    prop_lookup "score.value" attrs
    = (if is_undefined (so_value options) then None else Some (so_value options)) /\
    prop_lookup "score.trace_id" attrs = truthy_string (so_traceId options) /\
    prop_lookup "score.span_id" attrs = truthy_string (so_spanId options) /\
    prop_lookup "score.comment" attrs = truthy_string (so_comment options) /\
    prop_lookup "score.label" attrs
    = (if ToBoolean (so_label options) then Some (so_label options) else None) /\
    match prop_lookup "score.rationale" attrs with
    | Some sliced =>
        ToBoolean (so_rationale options) = true /\
        js_slice0 (so_rationale options) 500 = Normal sliced
    | None => ToBoolean (so_rationale options) = false
    end.
Proof.
  intros E. apply score_normal_inv in E. destruct E as (attrs & span & Ea & ->).
  exists attrs, span. split; [reflexivity|].
  repeat split.
  - rewrite (lookup_base _ _ _ _ Ea) by (try intros k'; discriminate). base_lookup.
    destruct (is_undefined (so_value options)); [reflexivity|].
    apply prop_lookup_set_same.
  - rewrite (lookup_base _ _ _ _ Ea) by (try intros k'; discriminate). base_lookup.
    apply lookup_set_if_truthy_same.
    rewrite lookup_set_if by discriminate. reflexivity.
  - rewrite (lookup_base _ _ _ _ Ea) by (try intros k'; discriminate). base_lookup.
    apply lookup_set_if_truthy_same.
    rewrite lookup_set_if_truthy by discriminate.
    rewrite lookup_set_if by discriminate. reflexivity.
  - rewrite (lookup_base _ _ _ _ Ea) by (try intros k'; discriminate).
    unfold score_base_attributes. cbn zeta.
    apply lookup_set_if_truthy_same.
    rewrite lookup_set_if by discriminate.
    rewrite !lookup_set_if_truthy by discriminate.
    rewrite lookup_set_if by discriminate. reflexivity.
  - rewrite (lookup_base _ _ _ _ Ea) by (try intros k'; discriminate). base_lookup.
    destruct (ToBoolean (so_label options)).
    + apply prop_lookup_set_same.
    + rewrite !lookup_set_if_truthy by discriminate.
      rewrite lookup_set_if by discriminate. reflexivity.
  - exact (lookup_rationale _ _ _ Ea).
Qed.

(** X8. Metadata is flattened, not nested: for metadata with distinct keys,
    the span carries under [score.metadata.<k>] the string rendering of the
    metadata value of [k], and no such attribute for an absent [k]. *)
Theorem score_metadata_flattened (options : ScoreOptions) (md : props) (w w' : World)
    (t : list (Event Span)) :
  so_metadata options = Some md ->
  NoDup (keys md) ->
  Score.score host options w = (Normal tt, w', t) ->
  exists attrs span,
    t = [EvStartSpan Score.TRACER_NAME ("score." ++ so_name options)%string attrs span;
         EvSpanEnd span] /\
    forall k,
      match prop_lookup k md with
      | Some v =>
          exists text,
            ToString v = Normal text /\
            prop_lookup ("score.metadata." ++ k)%string attrs = Some (VStr text)
      | None => prop_lookup ("score.metadata." ++ k)%string attrs = None
      end.
Proof.
  intros Hm Hnd E. apply score_normal_inv in E. destruct E as (attrs & span & Ea & ->).
  exists attrs, span. split; [reflexivity|]. intros k.
  apply score_span_attributes_inv in Ea. destruct Ea as (attrs1 & Ha & _ & Hmd).
  rewrite Hm in Hmd.
  pose proof (lookup_metadata_entry k md attrs1 attrs Hnd Hmd) as Hk.
  destruct (prop_lookup k md); [exact Hk|]. rewrite Hk.
  assert (Hb : prop_lookup ("score.metadata." ++ k)%string
                 (score_base_attributes (env_OPENSEARCH_PROJECT host w) options) = None).
  { unfold score_base_attributes. cbn zeta.
    repeat first [ rewrite lookup_set_if_truthy by (cbn; discriminate)
                 | rewrite lookup_set_if by (cbn; discriminate) ].
    reflexivity. }
  rewrite Ha. destruct (ToBoolean (so_rationale options)); [|exact Hb].
  destruct (js_slice0 (so_rationale options) 500); [|exact Hb].
  rewrite prop_lookup_set_other by (cbn; discriminate). exact Hb.
Qed.

(** The span of a score carries, as [score.rationale], the rationale it was
    given cut to 500, or nothing. *)
Lemma score_cuts_rationale (options : ScoreOptions) :
  maintains (score_span_ok options) (Score.score host options).
Proof.
  intros w. pose proof (score_cases options w) as Hc.
  destruct (Score.score host options w) as [[[u|e] w'] t].
  - destruct Hc as (attrs & span & Ea & ->).
    intros tracer spanName attributes span' v Hin Hv.
    destruct Hin as [E|[E|[]]]; [|discriminate E]. inversion E; subst.
    pose proof (lookup_rationale _ _ _ Ea) as Hr. rewrite Hv in Hr. exact Hr.
  - destruct Hc as (_ & -> & _). intros tracer spanName attributes span v [].
Qed.

End ScoreFacts.

Lemma example_score_run :
  Score.score (engine := example_engine) example_host example_score_options tt
  = (Normal tt, tt, example_score_trace).
Proof. vm_compute. reflexivity. Defined.

Lemma score_core_attributes_witness :
  exists attrs span,
    example_score_trace
    = [EvStartSpan Score.TRACER_NAME "score.relevance" attrs span; EvSpanEnd span] /\
    prop_lookup "opensearch.score" attrs = Some (VBool true) /\
    prop_lookup "score.name" attrs = Some (VStr "relevance") /\
    prop_lookup "score.data_type" attrs = Some (VStr "NUMERIC") /\
    prop_lookup "score.source" attrs = Some (VStr "llm-judge") /\
    prop_lookup "score.project" attrs = Some (VStr "default").
Proof.
  exact (score_core_attributes (engine := example_engine) example_host
           example_score_options tt tt example_score_trace example_score_run).
Defined.

Lemma score_optional_attributes_witness :
  exists attrs span,
    example_score_trace
    = [EvStartSpan Score.TRACER_NAME "score.relevance" attrs span; EvSpanEnd span] /\
    prop_lookup "score.value" attrs = Some (VNum PrimFloat.zero) /\
    prop_lookup "score.trace_id" attrs = Some (VStr "0af7651916cd43dd8448eb211c80319c") /\
    prop_lookup "score.span_id" attrs = None /\
    prop_lookup "score.comment" attrs = None /\
    prop_lookup "score.label" attrs = None /\
    match prop_lookup "score.rationale" attrs with
    | Some sliced =>
        ToBoolean (VStr "addresses the question") = true /\
        js_slice0 (VStr "addresses the question") 500 = Normal sliced
    | None => ToBoolean (VStr "addresses the question") = false
    end.
Proof.
  exact (score_optional_attributes (engine := example_engine) example_host
           example_score_options tt tt example_score_trace example_score_run).
Defined.

Lemma score_metadata_flattened_witness :
  exists attrs span,
    example_score_trace
    = [EvStartSpan Score.TRACER_NAME "score.relevance" attrs span; EvSpanEnd span] /\
    forall k,
      match prop_lookup k [("model", VStr "judge-a"); ("score.name", VStr "spoof")] with
      | Some v =>
          exists text,
            ToString (engine := example_engine) v = Normal text /\
            prop_lookup ("score.metadata." ++ k)%string attrs = Some (VStr text)
      | None => prop_lookup ("score.metadata." ++ k)%string attrs = None
      end.
Proof.
  apply (score_metadata_flattened (engine := example_engine) example_host
           example_score_options
           [("model", VStr "judge-a"); ("score.name", VStr "spoof")] tt tt
           example_score_trace).
  - reflexivity.
  - repeat constructor; cbn; intuition discriminate.
  - exact example_score_run.
Defined.

(** A score whose metadata holds [{toString: 1}] is not submitted: the
    rendering of the metadata value raises before the span is started. *)
Example score_unrendered_metadata :
  Score.score (engine := example_engine) example_host
    {| so_name := "relevance"; so_value := VNum PrimFloat.one;
       so_traceId := None; so_spanId := None; so_label := VUndefined;
       so_dataType := None; so_source := None; so_comment := None;
       so_rationale := VUndefined;
       so_metadata := Some [("k", unconvertible)];
       so_project := None |} tt
  = (Throw (TypeError "Cannot convert object to primitive value"), tt, []).
Proof. reflexivity. Qed.

(** ** Where rationales go *)

Section RationaleFacts.
Context {engine : Engine} {Span : Type}.
Implicit Types ctx t : list (Event Span).

Lemma adapted_in_incl ctx ctx' (scoreObj : value) :
  incl ctx ctx' -> adapted_in ctx scoreObj -> adapted_in ctx' scoreObj.
Proof.
  intros Hi (i & nm & args & raw & Hin & Ha). exists i, nm, args, raw. auto.
Qed.

Lemma rationale_event_ok_incl ctx ctx' (ev : Event Span) :
  incl ctx ctx' -> rationale_event_ok ctx ev -> rationale_event_ok ctx' ev.
Proof.
  intros Hi. destruct ev; cbn; auto.
  - intros H Hk. destruct (H Hk) as (s & Hs & Hv). exists s.
    split; [exact (adapted_in_incl _ _ _ Hi Hs) | exact Hv].
  - intros [(s & Hs & Hv) Hd]. split; [|exact Hd]. exists s.
    split; [exact (adapted_in_incl _ _ _ Hi Hs) | exact Hv].
Qed.

Lemma rationales_cut_incl ctx ctx' t :
  incl ctx ctx' -> rationales_cut ctx t -> rationales_cut ctx' t.
Proof.
  intros Hi. unfold rationales_cut. apply Forall_impl.
  intros ev. exact (rationale_event_ok_incl _ _ ev Hi).
Qed.

Lemma rationales_cut_app ctx t1 t2 :
  rationales_cut ctx t1 -> rationales_cut ctx t2 -> rationales_cut ctx (t1 ++ t2).
Proof. intros H1 H2. apply Forall_app. now split. Qed.

Lemma rationales_cut_cons ctx (ev : Event Span) t :
  rationale_event_ok ctx ev -> rationales_cut ctx t -> rationales_cut ctx (ev :: t).
Proof. intros H1 H2. now constructor. Qed.

Lemma no_rationale_nil : no_rationale (@nil (Event Span)).
Proof. intros ctx. constructor. Qed.

Lemma no_rationale_app t1 t2 :
  no_rationale t1 -> no_rationale t2 -> no_rationale (t1 ++ t2).
Proof. intros H1 H2 ctx. apply rationales_cut_app; auto. Qed.

Lemma no_rationale_cons (ev : Event Span) t :
  (forall ctx, rationale_event_ok ctx ev) -> no_rationale t -> no_rationale (ev :: t).
Proof. intros H1 H2 ctx. apply rationales_cut_cons; auto. Qed.

(** Two traces that keep to their own scorer invocations do so together. *)
Lemma rationales_cut_join t1 t2 :
  rationales_cut t1 t1 -> rationales_cut t2 t2 -> rationales_cut (t1 ++ t2) (t1 ++ t2).
Proof.
  intros H1 H2. apply rationales_cut_app.
  - apply (rationales_cut_incl t1); [apply incl_appl, incl_refl | exact H1].
  - apply (rationales_cut_incl t2); [apply incl_appr, incl_refl | exact H2].
Qed.

Lemma other_attribute_ok ctx (span : Span) (key : string) (v : value) :
  key <> "eval.score.rationale" -> rationale_event_ok ctx (EvSetAttribute span key v).
Proof. intros Hne Hk. contradiction. Qed.

Lemma entry_of_set_prop {A} (k : string) (v : A) (ps : list (string * A))
    (entry : string * A) :
  In entry (set_prop k v ps) -> entry = (k, v) \/ In entry ps.
Proof.
  induction ps as [|[k' v'] ps IH]; cbn.
  - intros [<-|[]]. now left.
  - destruct (String.eqb k k') eqn:E; cbn.
    + apply String.eqb_eq in E. subst k'. intros [<-|Hin]; auto.
    + intros [<-|Hin]; auto. destruct (IH Hin); auto.
Qed.

Lemma entry_of_js_assign {A} (k : string) (v : A) (ps : list (string * A))
    (entry : string * A) :
  In entry (js_assign k v ps) -> entry = (k, v) \/ In entry ps.
Proof.
  destruct (js_assign_cases k v ps) as [->| ->]; [now right|].
  apply entry_of_set_prop.
Qed.

End RationaleFacts.

Section RationaleWalk.
Context {engine : Engine} {World Span : Type}.
Variable host : Host World Span.
Variable submitScore : ScoreOptions -> M World Span unit.
Hypothesis submitScore_cuts :
  forall o, maintains (score_span_ok o) (submitScore o).
Import Evaluate.
Local Open Scope eff_scope.

(** *** Rules for a property of traces that composes *)

Section Maintains.
Variable R : list (Event Span) -> Prop.
Hypothesis R_nil : R [].
Hypothesis R_app : forall t1 t2, R t1 -> R t2 -> R (t1 ++ t2).

Lemma maintains_ret {A} (a : A) : maintains (World := World) R (ret a).
Proof. intros w. exact R_nil. Qed.

Lemma maintains_lift {A} (c : Completion A) : maintains (World := World) R (lift c).
Proof. intros w. unfold lift. destruct c; exact R_nil. Qed.

Lemma maintains_bind {A B} (c : M World Span A) (k : A -> M World Span B) :
  maintains R c -> (forall a, maintains R (k a)) -> maintains R (bind c k).
Proof.
  intros Hc Hk w. unfold bind. specialize (Hc w).
  destruct (c w) as [[[a|e] w1] t1]; [|exact Hc].
  specialize (Hk a w1). destruct (k a w1) as [[[b|e] w2] t2]; now apply R_app.
Qed.

Lemma maintains_try_catch {A} (body : M World Span A) (handler : value -> M World Span A) :
  maintains R body -> (forall e, maintains R (handler e)) ->
  maintains R (try_catch body handler).
Proof.
  intros Hb Hh w. unfold try_catch. specialize (Hb w).
  destruct (body w) as [[[a|e] w1] t1]; [exact Hb|].
  specialize (Hh e w1). destruct (handler e w1) as [[[b|e'] w2] t2]; now apply R_app.
Qed.

Lemma maintains_attempt {A} (body : M World Span A) :
  maintains R body -> maintains R (attempt body).
Proof.
  intros Hb w. unfold attempt. specialize (Hb w).
  destruct (body w) as [[[a|e] w1] t1]; exact Hb.
Qed.

Lemma maintains_startActiveSpan {A} tracer spanName attributes
    (fn : Span -> M World Span A) :
  (forall span, R [EvStartSpan tracer spanName attributes span]) ->
  (forall span, maintains R (fn span)) ->
  maintains R (startActiveSpan host tracer spanName attributes fn).
Proof.
  intros Hs Hf w. unfold startActiveSpan.
  destruct (startSpan host tracer spanName attributes w) as [span w1].
  specialize (Hf span w1).
  destruct (fn span w1) as [[[a|e] w2] t];
    exact (R_app [EvStartSpan tracer spanName attributes span] t (Hs span) Hf).
Qed.

Lemma maintains_for_each {A} (body : A -> M World Span unit) (l : list A) :
  (forall x, In x l -> maintains R (body x)) -> maintains R (for_each body l).
Proof.
  induction l as [|x l IH]; intros Hb; cbn [for_each].
  - apply maintains_ret.
  - apply maintains_bind; [apply Hb; now left|].
    intros _. apply IH. intros y Hy. apply Hb. now right.
Qed.

End Maintains.

Lemma maintains_impl {A} (R R' : list (Event Span) -> Prop) (c : M World Span A) :
  (forall t, R t -> R' t) -> maintains R c -> maintains R' c.
Proof.
  intros Hi Hc w. specialize (Hc w). destruct (c w) as [[[a|e] w1] t]; now apply Hi.
Qed.


Lemma maintains_bind_lift {A B} (R : list (Event Span) -> Prop)
    (c : Completion A) (k : A -> M World Span B) :
  R [] -> (forall a, c = Normal a -> maintains R (k a)) ->
  maintains R (bind (lift c) k).
Proof.
  intros Hnil Hk w. unfold bind, lift. destruct c as [a|e]; [|exact Hnil].
  specialize (Hk a eq_refl w). destruct (k a w) as [[[b|e] w1] t]; exact Hk.
Qed.

Lemma no_rationale_one (ev : Event Span) :
  (forall ctx, rationale_event_ok ctx ev) -> no_rationale [ev].
Proof. intros H. apply no_rationale_cons; [exact H | apply no_rationale_nil]. Qed.

Lemma self_cut_nil : rationales_cut (@nil (Event Span)) [].
Proof. constructor. Qed.

Lemma self_cut_start tracer spanName attributes (span : Span) :
  prop_lookup "score.rationale" attributes = None ->
  rationales_cut [EvStartSpan tracer spanName attributes span]
                 [EvStartSpan tracer spanName attributes span].
Proof. intros H. constructor; [exact H | constructor]. Qed.

Lemma incl_inside (ev : Event Span) (t1 t2 : list (Event Span)) :
  incl t1 (ev :: t1 ++ t2).
Proof. apply incl_tl, incl_appl, incl_refl. Qed.

Ltac plain_events :=
  repeat first
    [ apply no_rationale_nil
    | apply no_rationale_cons;
      [intros ?; first [exact I | apply other_attribute_ok; discriminate | reflexivity]|] ].

Ltac quiet_step :=
  first
    [ apply (maintains_bind no_rationale no_rationale_app); [|intros ?]
    | apply (maintains_try_catch no_rationale no_rationale_app); [|intros ?]
    | apply (maintains_attempt no_rationale)
    | apply (maintains_ret no_rationale no_rationale_nil)
    | apply (maintains_lift no_rationale no_rationale_nil)
    | match goal with
      | |- maintains _ (let '(_, _) := ?x in _) => destruct x
      | |- maintains _ (if ?b then _ else _) => destruct b
      end
    | (intros ?; cbn; plain_events; fail) ].

Ltac quiet := unfold writes_no_rationale; repeat quiet_step.

Lemma call_task_no_rationale (task : value -> World -> Completion value * World)
    (i : nat) (inputVal : value) :
  writes_no_rationale (call_task (Span := Span) task i inputVal).
Proof.
  intros w. unfold call_task. destruct (task inputVal w) as [[o|e] w1]; plain_events.
Qed.

Lemma task_failed_no_rationale (taskSpan : Span) (evalResult : EvalResult) (errs : nat)
    (err : value) :
  writes_no_rationale (task_failed host taskSpan evalResult errs err).
Proof. unfold task_failed. quiet. Qed.

Lemma eval_task_no_rationale task (i : nat) (inputVal : value) (evalResult : EvalResult)
    (errs : nat) :
  writes_no_rationale (eval_task host task i inputVal evalResult errs).
Proof.
  unfold eval_task.
  apply (maintains_startActiveSpan no_rationale no_rationale_app);
    [intros span; apply no_rationale_one; intros ?; reflexivity|].
  intros taskSpan.
  apply (maintains_bind no_rationale no_rationale_app).
  { apply (maintains_attempt no_rationale).
    apply (maintains_bind no_rationale no_rationale_app);
      [apply call_task_no_rationale|]. intros result. quiet. }
  intros called. apply (maintains_bind no_rationale no_rationale_app); [|intros r; quiet].
  destruct called as [o|err].
  - apply (maintains_try_catch no_rationale no_rationale_app); [quiet|].
    intros e. apply (maintains_bind no_rationale no_rationale_app);
      [apply task_failed_no_rationale|]. intros [ev' errs']. quiet.
  - apply (maintains_bind no_rationale no_rationale_app);
      [apply task_failed_no_rationale|]. intros [ev' errs']. quiet.
Qed.

(** The task span leaves the scores of the result as they were. *)
Lemma eval_task_scores task (i : nat) (inputVal : value) (evalResult : EvalResult)
    (errs : nat) :
  spec (eval_task host task i inputVal evalResult errs)
    (fun res _ => let '(_, _, ev', _) := res in scores ev' = scores evalResult)
    (fun _ _ => True).
Proof.
  eapply spec_conseq; [apply eval_task_spec| |auto].
  intros [[[out failed] ev'] errs'] t (_ & _ & _ & c & _ & Hc).
  destruct c as [o|e].
  - destruct (ToString o).
    + destruct Hc as (_ & _ & -> & _). reflexivity.
    + destruct Hc as (_ & text & _ & -> & _). reflexivity.
  - destruct Hc as (_ & text & _ & -> & _). reflexivity.
Qed.

Lemma scorer_failed_no_rationale (scoreSpan : Span) (scorerName : string) (i : nat)
    (err : value) :
  writes_no_rationale (scorer_failed host scoreSpan scorerName i err).
Proof. unfold scorer_failed. quiet. Qed.

(** The attributes of a scorer span carry the Score's rationale cut to
    500. *)
Lemma score_attributes_cut (scoreSpan : Span) (scoreObj : value)
    (ctx : list (Event Span)) :
  adapted_in ctx scoreObj ->
  maintains (rationales_cut ctx) (score_attributes host scoreSpan scoreObj).
Proof.
  intros Hctx.
  assert (Hplain : forall A (c : M World Span A),
            maintains no_rationale c -> maintains (rationales_cut ctx) c).
  { intros A c. apply maintains_impl. intros t Ht. apply Ht. }
  unfold score_attributes.
  apply maintains_bind_lift; [constructor|]. intros v _.
  apply (maintains_bind _ (rationales_cut_app ctx)); [apply Hplain; quiet|]. intros _.
  apply maintains_bind_lift; [constructor|]. intros label _.
  apply (maintains_bind _ (rationales_cut_app ctx)); [apply Hplain; quiet|]. intros _.
  apply maintains_bind_lift; [constructor|]. intros rationale Er.
  destruct (ToBoolean rationale) eqn:Eb; [|apply Hplain; quiet].
  apply maintains_bind_lift; [constructor|]. intros sliced Es.
  intros w. cbn. constructor; [|constructor].
  intros _. exists scoreObj. split; [exact Hctx|]. exists rationale. auto.
Qed.

(** A scorer invocation that ends normally leaves the scorer call whose
    result was adapted in the trace. *)
Lemma invoke_scorer_adapted (i : nat) (inputVal out expectedVal : value)
    (scorer : Scorer World) :
  spec (World := World) (Span := Span)
    (attempt (invoke_scorer i inputVal out expectedVal scorer))
    (fun adapted t =>
       no_rationale t /\
       match adapted with
       | Normal scoreObj => adapted_in t scoreObj
       | Throw _ => True
       end)
    no_throw.
Proof.
  apply spec_attempt. unfold invoke_scorer.
  apply spec_bind_lift. destruct (ToString inputVal) as [inputText|e];
    [|split; [plain_events | exact I]].
  apply spec_bind_lift. destruct (ToString out) as [outText|e];
    [|split; [plain_events | exact I]].
  eapply spec_bind with (P := fun _ t => t = []).
  { destruct (negb (is_undefined expectedVal)).
    - apply spec_bind_lift. destruct (ToString expectedVal);
        [apply spec_ret; reflexivity | split; [plain_events | exact I]].
    - apply spec_ret. reflexivity. }
  intros expected t0 ->. cbn [List.app].
  intros w. unfold bind, call_scorer, lift.
  destruct (scorer_score scorer _ w) as [[raw|e] w1]; cbn.
  - destruct (Protocol.adaptScore (scorer_name scorer) raw) as [scoreObj|e] eqn:Ea;
      cbn; (split; [plain_events|]); [|exact I].
    do 4 eexists. split; [left; reflexivity | exact Ea].
  - split; [plain_events | exact I].
Qed.

(** One scorer span: what it adds to the recorded Scores was adapted from
    its own scorer call. *)
Lemma eval_score_cut (i : nat) (inputVal out expectedVal : value)
    (scorer : Scorer World) (scores0 : props) :
  spec (eval_score host i inputVal out expectedVal scorer scores0)
    (fun scores' t =>
       rationales_cut t t /\
       forall entry, In entry scores' -> In entry scores0 \/ adapted_in t (snd entry))
    (fun _ t => rationales_cut t t).
Proof.
  unfold eval_score. apply spec_startActiveSpan. intros scoreSpan.
  set (first := EvStartSpan TRACER_NAME ("eval_score." ++ scorer_name scorer)%string
                  [("eval.scorer.name", VStr (scorer_name scorer))] scoreSpan).
  assert (Hfirst : forall ctx, rationale_event_ok ctx first) by (intros ?; reflexivity).
  eapply spec_bind.
  { eapply spec_conseq; [apply invoke_scorer_adapted | intros a t H; exact H |].
    intros e t []. }
  intros adapted t1 [H1 Had].
  assert (Hassemble : forall t2,
            rationales_cut t1 t2 ->
            rationales_cut (first :: t1 ++ t2) (first :: t1 ++ t2)).
  { intros t2 H2. apply rationales_cut_cons; [apply Hfirst|].
    apply rationales_cut_app; [apply H1|].
    apply (rationales_cut_incl t1); [apply incl_inside | exact H2]. }
  assert (Hplain : forall A (c : M World Span A),
            maintains no_rationale c -> maintains (rationales_cut t1) c).
  { intros A c. apply maintains_impl. intros t Ht. apply Ht. }
  eapply spec_bind with
    (P := fun scores' t2 =>
            rationales_cut t1 t2 /\
            forall entry, In entry scores' ->
                          In entry scores0 \/ adapted_in t1 (snd entry)).
  - destruct adapted as [scoreObj|err].
    + eapply spec_bind with (P := fun _ t2 => rationales_cut t1 t2).
      * eapply spec_conseq.
        -- apply (maintains_try_catch _ (rationales_cut_app t1)).
           ++ apply score_attributes_cut. exact Had.
           ++ intros e. apply Hplain, scorer_failed_no_rationale.
        -- intros a t H. exact H.
        -- intros e t H. apply Hassemble. exact H.
      * intros u t2 H2. apply spec_ret. rewrite app_nil_r. split; [exact H2|].
        intros entry Hin. apply entry_of_js_assign in Hin.
        destruct Hin as [->|Hin]; [right; exact Had | now left].
    + eapply spec_bind with (P := fun _ t2 => rationales_cut t1 t2).
      * eapply spec_conseq.
        -- apply Hplain, scorer_failed_no_rationale.
        -- intros a t H. exact H.
        -- intros e t H. apply Hassemble. exact H.
      * intros u t2 H2. apply spec_ret. rewrite app_nil_r. split; [exact H2|].
        intros entry Hin. now left.
  - intros scores' t2 [H2 He]. apply spec_bind_span_end, spec_ret.
    split.
    + apply Hassemble. apply rationales_cut_app; [exact H2|].
      constructor; [exact I | constructor].
    + intros entry Hin. destruct (He entry Hin) as [Hl|Hr]; [now left|].
      right. apply (adapted_in_incl t1); [apply incl_inside | exact Hr].
Qed.

Lemma eval_scorers_cut (i : nat) (inputVal out expectedVal : value)
    (scorers : list (Scorer World)) (scores0 : props) :
  spec (eval_scorers host i inputVal out expectedVal scorers scores0)
    (fun scores' t =>
       rationales_cut t t /\
       forall entry, In entry scores' -> In entry scores0 \/ adapted_in t (snd entry))
    (fun _ t => rationales_cut t t).
Proof.
  revert scores0. induction scorers as [|scorer rest IH]; intros scores0;
    cbn [eval_scorers].
  - apply spec_ret. split; [constructor | now left].
  - eapply spec_bind; [apply eval_score_cut|].
    intros scores1 t1 [H1 He1].
    eapply spec_conseq; [apply (IH scores1)| |].
    + intros scores' t2 [H2 He2]. split; [now apply rationales_cut_join|].
      intros entry Hin. destruct (He2 entry Hin) as [Hl|Hr].
      * destruct (He1 entry Hl) as [Hl'|Hr']; [now left|].
        right. apply (adapted_in_incl t1); [apply incl_appl, incl_refl | exact Hr'].
      * right. apply (adapted_in_incl t2); [apply incl_appr, incl_refl | exact Hr].
    + intros e t2 H2. now apply rationales_cut_join.
Qed.

(** A recorded Score is handed to the emission primitive with its
    rationale as it is. *)
Lemma emit_score_cut (runName : string) (i : nat) (traceIdHex spanIdHex : string)
    (entry : string * value) (ctx : list (Event Span)) :
  adapted_in ctx (snd entry) ->
  maintains (rationales_cut ctx)
    (emit_score host submitScore runName i traceIdHex spanIdHex entry).
Proof.
  intros Hctx. unfold emit_score.
  apply (maintains_try_catch _ (rationales_cut_app ctx)).
  - apply maintains_bind_lift; [constructor|]. intros v _.
    apply maintains_bind_lift; [constructor|]. intros label _.
    apply maintains_bind_lift; [constructor|]. intros rationale Er.
    intros w. unfold call_submitScore.
    pose proof (submitScore_cuts
                  {| so_name := fst entry; so_value := v;
                     so_traceId := Some traceIdHex; so_spanId := Some spanIdHex;
                     so_label := label; so_dataType := None;
                     so_source := Some "eval"; so_comment := None;
                     so_rationale := rationale;
                     so_metadata := Some [("eval_name", VStr runName);
                                          ("item_index", VNum (number_of_nat i))];
                     so_project := None |} w) as Hs.
    destruct (submitScore _ w) as [[[u|e] w1] t]; cbn;
      (constructor; [|constructor]); (split; [|exact Hs]);
      exists (snd entry); (split; [exact Hctx | exact Er]).
  - intros e. apply (maintains_impl no_rationale); [intros t Ht; apply Ht|]. quiet.
Qed.

Lemma emit_scores_cut (runName : string) (i : nat) (itemSpan : Span) (scores0 : props)
    (ctx : list (Event Span)) :
  entries_adapted ctx scores0 ->
  maintains (rationales_cut ctx) (emit_scores host submitScore runName i itemSpan scores0).
Proof.
  intros Hctx. unfold emit_scores.
  apply (maintains_bind _ (rationales_cut_app ctx)).
  - intros w. unfold span_spanContext.
    destruct (spanContext host itemSpan w) as [c w1]. constructor.
  - intros c. apply (maintains_for_each _ (Forall_nil _) (rationales_cut_app ctx)).
    intros entry Hin. apply emit_score_cut. apply Hctx. exact Hin.
Qed.

Lemma eval_item_cut (runName : string) task (scorers : list (Scorer World))
    (emitScores : bool) (i : nat) (datum : EvalDatum) (errs : nat) :
  keeps_rationales_cut
    (eval_item host submitScore runName task scorers emitScores i datum errs).
Proof.
  unfold keeps_rationales_cut, eval_item.
  apply maintains_bind_lift; [constructor|]. intros text _.
  apply (maintains_startActiveSpan _ rationales_cut_join);
    [intros span; now apply self_cut_start|].
  intros itemSpan.
  unfold maintains. eapply spec_bind.
  { eapply spec_conseq;
      [eapply spec_and; [apply eval_task_no_rationale | apply eval_task_scores]
      |intros a t H; exact H
      |intros e t [H _]; apply H]. }
  intros [[[out failed] ev'] errs'] t1 [H1 Hs]. cbn in Hs.
  assert (Hrest : maintains (fun t => rationales_cut t t)
            (evalResult <-
               (if negb failed then
                  scores' <- eval_scorers host i (obj_get datum "input") out
                               (obj_get datum "expected") scorers (scores ev') ;;
                  (if emitScores
                   then emit_scores host submitScore runName i itemSpan scores'
                   else ret tt) ;;
                  ret (with_scores ev' scores')
                else ret ev') ;;
             span_end host itemSpan ;;
             ret (evalResult, errs'))).
  { apply (maintains_bind _ rationales_cut_join).
    - destruct (negb failed); [|apply (maintains_ret (fun t => rationales_cut t t) self_cut_nil)].
      unfold maintains. eapply spec_bind; [apply eval_scorers_cut|].
      intros scores' t2 [H2 He2].
      assert (Hadapted : entries_adapted t2 scores').
      { intros entry Hin. destruct (He2 entry Hin) as [Hl|Hr]; [|exact Hr].
        rewrite Hs in Hl. destruct Hl. }
      assert (Hemit : maintains (rationales_cut t2)
                (if emitScores
                 then emit_scores host submitScore runName i itemSpan scores'
                 else ret tt)).
      { destruct emitScores; [now apply emit_scores_cut|].
        apply (maintains_ret _ (Forall_nil _)). }
      assert (Hjoin : forall t3, rationales_cut t2 t3 ->
                rationales_cut (t2 ++ t3) (t2 ++ t3)).
      { intros t3 H3. apply rationales_cut_app;
          (eapply rationales_cut_incl; [apply incl_appl, incl_refl|]); assumption. }
      eapply spec_bind with (P := fun _ t3 => rationales_cut t2 t3).
      * eapply spec_conseq; [apply Hemit | intros a t H; exact H |].
        intros e t3 H3. now apply Hjoin.
      * intros u t3 H3. apply spec_ret. rewrite app_nil_r. now apply Hjoin.
    - intros evalResult. apply (maintains_bind _ rationales_cut_join).
      + intros w. cbn. constructor; [exact I | constructor].
      + intros u. apply (maintains_ret (fun t => rationales_cut t t) self_cut_nil). }
  eapply spec_conseq; [apply Hrest| |];
    intros ? t2 H2; apply rationales_cut_join; [apply H1 | exact H2 | apply H1 | exact H2].
Qed.

Lemma eval_items_cut (runName : string) task (scorers : list (Scorer World))
    (emitScores : bool) (dataset : list EvalDatum) :
  forall i acc errs,
    keeps_rationales_cut
      (eval_items host submitScore runName task scorers emitScores i dataset acc errs).
Proof.
  unfold keeps_rationales_cut.
  induction dataset as [|datum rest IH]; intros i acc errs; cbn [eval_items].
  - apply (maintains_ret (fun t => rationales_cut t t) self_cut_nil).
  - apply (maintains_bind _ rationales_cut_join); [apply eval_item_cut|].
    intros [evalResult errs']. apply IH.
Qed.

Lemma average_attribute_key (scorerName : string) :
  ("eval.avg." ++ scorerName)%string <> "eval.score.rationale".
Proof. cbn. intros E. discriminate E. Qed.

Lemma write_averages_no_rationale (evalSpan : Span)
    (entries : list (string * list value)) :
  forall avgs, writes_no_rationale (write_averages host evalSpan entries avgs).
Proof.
  unfold writes_no_rationale.
  induction entries as [|[scorerName values] rest IH]; intros avgs; cbn [write_averages].
  - apply (maintains_ret _ no_rationale_nil).
  - apply (maintains_bind _ no_rationale_app);
      [apply (maintains_lift _ no_rationale_nil)|]. intros avg.
    apply (maintains_bind _ no_rationale_app); [|intros u; apply IH].
    intros w. cbn. apply no_rationale_one. intros ctx.
    apply other_attribute_ok, average_attribute_key.
Qed.

Lemma evaluate_dataset_cut (runName : string) task (scorers : list (Scorer World))
    (emitScores : bool) (dataset : list EvalDatum) :
  keeps_rationales_cut
    (evaluate_dataset host submitScore runName task scorers emitScores dataset).
Proof.
  unfold keeps_rationales_cut, evaluate_dataset.
  apply (maintains_startActiveSpan _ rationales_cut_join);
    [intros span; now apply self_cut_start|].
  intros evalSpan.
  apply (maintains_bind _ rationales_cut_join); [apply eval_items_cut|].
  intros [rs errs].
  apply (maintains_impl no_rationale); [intros t Ht; apply Ht|].
  apply (maintains_bind _ no_rationale_app);
    [apply (maintains_lift _ no_rationale_nil)|]. intros scoreTotals.
  apply (maintains_bind _ no_rationale_app);
    [apply write_averages_no_rationale|]. intros avgs.
  quiet.
Qed.

Lemma evaluate_with_cut (options : EvaluateOptions World) :
  keeps_rationales_cut (evaluate_with host submitScore options).
Proof.
  unfold keeps_rationales_cut, evaluate_with.
  apply (maintains_bind _ rationales_cut_join); [|intros ds; apply evaluate_dataset_cut].
  intros w. unfold resolve_data, ret.
  destruct (opt_data options) as [ds|produce]; [constructor|].
  destruct (produce w) as [[ds|e] w1]; constructor.
Qed.

End RationaleWalk.

(** What a trace that keeps to its own scorer invocations says, event by
    event. *)
Lemma rationales_cut_events {engine : Engine} {Span : Type} (t : list (Event Span)) :
  rationales_cut t t ->
  (forall span v,
     In (EvSetAttribute span "eval.score.rationale" v) t ->
     bounded 500 v /\
     exists scoreObj, adapted_in t scoreObj /\ sliced_rationale scoreObj v) /\
  (forall tracer spanName attributes span,
     In (EvStartSpan tracer spanName attributes span) t ->
     prop_lookup "score.rationale" attributes = None) /\
  (forall i o outcome during,
     In (EvSubmit i o outcome during) t ->
     (exists scoreObj,
        adapted_in t scoreObj /\
        js_get scoreObj "rationale" = Normal (so_rationale o)) /\
     forall tracer spanName attributes span v,
       In (EvStartSpan tracer spanName attributes span) during ->
       prop_lookup "score.rationale" attributes = Some v ->
       bounded 500 v /\
       ToBoolean (so_rationale o) = true /\
       js_slice0 (so_rationale o) 500 = Normal v).
Proof.
  intros Hcut. unfold rationales_cut in Hcut. rewrite Forall_forall in Hcut.
  split; [|split].
  - intros span v Hin. specialize (Hcut _ Hin eq_refl).
    destruct Hcut as (scoreObj & Had & Hs). split; [|eauto].
    destruct Hs as (rationale & _ & _ & Hs). exact (js_slice0_bounded _ _ _ Hs).
  - intros tracer spanName attributes span Hin. exact (Hcut _ Hin).
  - intros i o outcome during Hin. destruct (Hcut _ Hin) as [Hh Hd].
    split; [exact Hh|].
    intros tracer spanName attributes span v Hs Hv.
    destruct (Hd tracer spanName attributes span v Hs Hv) as [Hb Hsl].
    split; [exact (js_slice0_bounded _ _ _ Hsl) | now split].
Qed.



(** A rationale of 600 characters is cut to 500 on the scorer span and on
    the span of the emitted score, and is handed over with all its 600. *)
Example scenario_long_rationale :
  In (EvSetAttribute tt "eval.score.rationale" (VStr (string_repeat "r" 500)))
     verbose_trace /\
  exists o outcome attributes,
    In (EvSubmit 0 o outcome [EvStartSpan Score.TRACER_NAME "score.verbose" attributes tt;
                              EvSpanEnd tt]) verbose_trace /\
    js_length (so_rationale o) = Some 600 /\
    prop_lookup "score.rationale" attributes = Some (VStr (string_repeat "r" 500)).
Proof.
  split.
  - vm_compute. repeat (try (left; reflexivity); right).
  - vm_compute. do 3 eexists. split; [|split].
    + repeat (try (left; reflexivity); right).
    + reflexivity.
    + reflexivity.
Qed.

(** ** The adapter beyond its first rule *)

Lemma fromEntries_acc (l acc : props) :
  NoDup (keys acc ++ keys l) ->
  fold_left (fun a kv => set_prop (fst kv) (snd kv) a) l acc = acc ++ l.
Proof.
  revert acc. induction l as [|[k v] l IH]; intros acc Hnd; cbn [fold_left].
  - now rewrite app_nil_r.
  - cbn [fst snd].
    assert (Hk : ~ In k (keys acc)).
    { intros Hin. apply NoDup_remove_2 in Hnd. apply Hnd.
      apply in_or_app. now left. }
    assert (Hs : set_prop k v acc = acc ++ [(k, v)]).
    { clear - Hk. induction acc as [|[k' v'] acc IH]; cbn; [reflexivity|].
      destruct (String.eqb_spec k k') as [->|Hne].
      - exfalso. apply Hk. now left.
      - rewrite IH; [reflexivity|]. intros Hin. apply Hk. now right. }
    rewrite Hs, IH.
    + now rewrite <- app_assoc.
    + unfold keys in *. rewrite map_app. cbn. rewrite <- app_assoc. exact Hnd.
Qed.

(** [Object.fromEntries] of entries under distinct keys is the same object. *)
Lemma Object_fromEntries_NoDup (l : props) :
  NoDup (keys l) -> Object_fromEntries l = l.
Proof. intros Hnd. unfold Object_fromEntries. now rewrite fromEntries_acc. Qed.

Lemma NoDup_keys_filter {A} (f : string * A -> bool) (l : list (string * A)) :
  NoDup (keys l) -> NoDup (keys (filter f l)).
Proof.
  unfold keys. induction l as [|[k v] l IH]; cbn; intros Hnd; [constructor|].
  inversion Hnd as [|? ? Hni Hnd']; subst.
  destruct (f (k, v)); cbn; [constructor|]; auto.
  intros Hin. apply Hni. apply in_map_iff in Hin. destruct Hin as ([k' v'] & <- & Hin).
  apply filter_In in Hin. apply in_map_iff. exists (k', v'). now split.
Qed.

Lemma prop_lookup_filter_key {A} (p : string -> bool) (k : string)
    (l : list (string * A)) :
  prop_lookup k (filter (fun kv => p (fst kv)) l)
  = if p k then prop_lookup k l else None.
Proof.
  induction l as [|[k' v'] l IH]; cbn; [now destruct (p k)|].
  destruct (p k') eqn:Ep; cbn.
  - destruct (String.eqb_spec k k') as [->|Hne]; [now rewrite Ep | exact IH].
  - destruct (String.eqb_spec k k') as [->|Hne]; [now rewrite IH, Ep | exact IH].
Qed.

Section AdapterExtras.
Context {engine : Engine}.
Import Protocol.

Lemma adaptScore_fresh_value (scorerName : string) (raw : value) :
  isScore raw = Normal false ->
  String.eqb (typeof raw) "number" || dict_like raw = true ->
  exists v rest,
    adaptScore scorerName raw
    = Normal (VObj (("name", VStr scorerName) :: ("value", v) :: rest)).
Proof.
  intros E Hr. unfold adaptScore. rewrite E. cbn.
  destruct (isAutoEvalsResult_total raw) as [[|] E2]; rewrite E2; cbn.
  - unfold isAutoEvalsResult in E2. destruct raw; cbn in *; try discriminate;
      repeat (rewrite array_index_nondigit by reflexivity); cbn; eauto.
  - destruct (isPhoenixEvalsResult_total raw) as [[|] E3]; rewrite E3; cbn.
    + unfold isPhoenixEvalsResult in E3. destruct raw; cbn in *; try discriminate;
        repeat (rewrite array_index_nondigit by reflexivity); cbn; eauto.
    + unfold dict_like in Hr. destruct raw; cbn in *; try discriminate; eauto.
Qed.

(** X1. Adapting twice changes nothing for a recognised result: when the raw
    value is a number or a non-array object, the Score the adapter returns
    is returned unchanged by a second pass, under any scorer name. *)
Theorem adaptScore_idempotent_on_recognised (scorerName otherName : string) (raw : value) :
  String.eqb (typeof raw) "number" || dict_like raw = true ->
  exists s,
    adaptScore scorerName raw = Normal s /\
    adaptScore otherName s = Normal s.
Proof.
  intros Hr. destruct (isScore_total raw) as [[|] E].
  - exists raw. split; now apply adaptScore_isScore.
  - destruct (adaptScore_fresh_value scorerName raw E Hr) as (v & rest & Ea).
    eexists. split; [exact Ea|].
    apply adaptScore_canonical_unchanged.
    eexists _, scorerName. split; [reflexivity|]. split; [reflexivity|].
    left. reflexivity.
Qed.

(** X2. The fallback is not a fixed point.  For a raw value that is neither
    a number nor a non-array object: when [String()] cannot render it, the
    adapter throws what the conversion throws; otherwise the Score returned
    lacks both [value] and [label], so a second pass reads it by the object
    rule and nests the first Score, name included, under [metadata]. *)
Theorem adaptScore_fallback_readapted (scorerName otherName : string) (raw : value) :
  String.eqb (typeof raw) "number" || dict_like raw = false ->
  match ToString raw with
  | Normal text =>
      exists s,
        adaptScore scorerName raw = Normal s /\
        ~ canonical_shape s /\
        adaptScore otherName s
        = Normal (VObj [("name", VStr otherName);
                        ("value", VUndefined);
                        ("label", VUndefined);
                        ("rationale", VUndefined);
                        ("metadata",
                         VObj [("name", VStr scorerName);
                               ("metadata", VObj [("raw", VStr text)])])])
  | Throw e => adaptScore scorerName raw = Throw e
  end.
Proof.
  intros Hf. rewrite (adaptScore_fallback scorerName raw Hf).
  destruct (ToString raw) as [text|e]; [|reflexivity].
  exists (fallbackScore scorerName text).
  split; [reflexivity|]. split; [|reflexivity].
  intros (ps & nm & E & _ & [Hk|Hk]); unfold fallbackScore in E;
    injection E as <-; discriminate Hk.
Qed.

(** X26. The adapter throws in its last rule only: when it throws, the raw
    value is neither a number nor a non-array object, and the exception is
    the [TypeError] that [String()] raises on the raw value. *)
Theorem adaptScore_throws_only_in_fallback (scorerName : string) (raw e : value) :
  adaptScore scorerName raw = Throw e ->
  String.eqb (typeof raw) "number" || dict_like raw = false /\
  ToString raw = Throw e /\
  e = TypeError "Cannot convert object to primitive value".
Proof.
  intros Ea. destruct (adaptScore_throw scorerName raw e Ea) as (-> & Hg & Ht).
  split; [exact Hg|]. split; [exact Ht | reflexivity].
Qed.

(** X3. The object rule loses no field: for a plain object with distinct
    keys that the first three rules do not recognise, the Score's [metadata]
    holds, in the original order, exactly the properties whose key is not
    one of [value], [score], [label], [rationale], [explanation]. *)
Theorem adaptScore_object_rule_metadata (scorerName : string) (ps : props) :
  NoDup (keys ps) ->
  isScore (VObj ps) = Normal false ->
  isAutoEvalsResult (VObj ps) = Normal false ->
  isPhoenixEvalsResult (VObj ps) = Normal false ->
  exists metadata,
    adaptScore scorerName (VObj ps)
    = Normal (VObj [("name", VStr scorerName);
                    ("value", nullish (obj_get ps "value") (obj_get ps "score"));
                    ("label", obj_get ps "label");
                    ("rationale",
                     nullish (obj_get ps "rationale") (obj_get ps "explanation"));
                    ("metadata", VObj metadata)]) /\
    metadata = filter (fun kv => negb (includes consumed_fields (fst kv))) ps /\
    forall k,
      prop_lookup k metadata
      = if includes consumed_fields k then None else prop_lookup k ps.
Proof.
  intros Hnd E1 E2 E3.
  exists (filter (fun kv => negb (includes consumed_fields (fst kv))) ps).
  split; [|split; [reflexivity|]].
  - unfold adaptScore. rewrite E1, E2, E3. cbn -[Object_fromEntries filter].
    rewrite Object_fromEntries_NoDup; [reflexivity|].
    now apply NoDup_keys_filter.
  - intros k.
    rewrite (prop_lookup_filter_key (fun k => negb (includes consumed_fields k))).
    now destruct (includes consumed_fields k).
Qed.

(** X4. A numeric [score] takes precedence: for an object that lacks the
    canonical shape and holds a number under [score], the Score's [value] is
    that number, whatever the object holds under [value], and [label] is
    [choice] when that is neither [undefined] nor [null], else [label]. *)
Theorem adaptScore_numeric_score_wins (scorerName : string) (ps : props) (x : float) :
  ~ canonical_shape (VObj ps) ->
  prop_lookup "score" ps = Some (VNum x) ->
  adaptScore scorerName (VObj ps)
  = Normal (VObj [("name", VStr scorerName);
                  ("value", VNum x);
                  ("label", nullish (obj_get ps "choice") (obj_get ps "label"));
                  ("rationale", obj_get ps "rationale");
                  ("metadata", nullish (obj_get ps "metadata") (VObj []))]).
Proof.
  intros Hn Hs.
  destruct (isScore_total (VObj ps)) as [[|] E].
  - exfalso. apply Hn. now apply isScore_canonical_shape.
  - unfold adaptScore. rewrite E. cbn.
    unfold isAutoEvalsResult. cbn. unfold has_key, obj_get. rewrite Hs. cbn.
    reflexivity.
Qed.

End AdapterExtras.

Lemma adaptScore_idempotent_on_recognised_witness :
  exists s,
    Protocol.adaptScore (engine := example_engine) "quality"
      (VObj [("label", VStr "good"); ("explanation", VStr "clear answer")]) = Normal s /\
    Protocol.adaptScore (engine := example_engine) "other" s = Normal s.
Proof.
  apply (adaptScore_idempotent_on_recognised (engine := example_engine)). reflexivity.
Defined.

Lemma adaptScore_fallback_readapted_witness :
  exists s,
    Protocol.adaptScore (engine := example_engine) "quality" (VStr "fine") = Normal s /\
    ~ canonical_shape s /\
    Protocol.adaptScore (engine := example_engine) "other" s
    = Normal (VObj [("name", VStr "other");
                    ("value", VUndefined);
                    ("label", VUndefined);
                    ("rationale", VUndefined);
                    ("metadata",
                     VObj [("name", VStr "quality");
                           ("metadata", VObj [("raw", VStr "fine")])])]).
Proof.
  exact (adaptScore_fallback_readapted (engine := example_engine) "quality" "other"
           (VStr "fine") eq_refl).
Defined.

Lemma adaptScore_throws_only_in_fallback_witness :
  Protocol.adaptScore (engine := example_engine) "quality" (VArr [unconvertible])
  = Throw (TypeError "Cannot convert object to primitive value") /\
  String.eqb (typeof (VArr [unconvertible])) "number" || dict_like (VArr [unconvertible])
  = false /\
  ToString (engine := example_engine) (VArr [unconvertible])
  = Throw (TypeError "Cannot convert object to primitive value") /\
  TypeError "Cannot convert object to primitive value"
  = TypeError "Cannot convert object to primitive value".
Proof.
  split; [reflexivity|].
  exact (adaptScore_throws_only_in_fallback (engine := example_engine) "quality"
           (VArr [unconvertible])
           (TypeError "Cannot convert object to primitive value") eq_refl).
Defined.

Lemma adaptScore_object_rule_metadata_witness :
  exists metadata,
    Protocol.adaptScore (engine := example_engine) "quality"
      (VObj [("value", VNum 1); ("model", VStr "judge-a"); ("explanation", VStr "ok")])
    = Normal (VObj [("name", VStr "quality");
                    ("value", VNum 1);
                    ("label", VUndefined);
                    ("rationale", VStr "ok");
                    ("metadata", VObj metadata)]) /\
    metadata = [("model", VStr "judge-a")] /\
    forall k,
      prop_lookup k metadata
      = if includes Protocol.consumed_fields k then None
        else prop_lookup k [("value", VNum 1); ("model", VStr "judge-a");
                            ("explanation", VStr "ok")].
Proof.
  apply (adaptScore_object_rule_metadata (engine := example_engine) "quality"
           [("value", VNum 1%float); ("model", VStr "judge-a");
            ("explanation", VStr "ok")]); try reflexivity.
  repeat constructor; cbn; intuition discriminate.
Defined.

Lemma adaptScore_numeric_score_wins_witness :
  Protocol.adaptScore (engine := example_engine) "quality"
    (VObj [("value", VNum 0); ("score", VNum 1); ("choice", VStr "A")])
  = Normal (VObj [("name", VStr "quality");
                  ("value", VNum 1);
                  ("label", VStr "A");
                  ("rationale", VUndefined);
                  ("metadata", VObj [])]).
Proof.
  apply (adaptScore_numeric_score_wins (engine := example_engine) "quality"
           [("value", VNum 0%float); ("score", VNum 1%float); ("choice", VStr "A")]).
  - intros (ps & nm & E & En & _). injection E as <-. discriminate En.
  - reflexivity.
Defined.


(** ** The tracing wrappers *)

Lemma string_length_append (s1 s2 : string) :
  String.length (s1 ++ s2) = String.length s1 + String.length s2.
Proof. induction s1 as [|c s1 IH]; simpl; [reflexivity | now rewrite IH]. Qed.

Section DecoratorFacts.
Context {engine : Engine} {World Span : Type}.
Variable host : Host World Span.
Variable JSON_stringify : value -> Completion (option string).
Import Decorators.

Lemma truncate_length (s : string) :
  String.length (truncate s) <= MAX_ATTRIBUTE_LENGTH + 14.
Proof.
  unfold truncate. destruct (Nat.ltb_spec MAX_ATTRIBUTE_LENGTH (String.length s)).
  - rewrite string_length_append.
    pose proof (substring_length_le MAX_ATTRIBUTE_LENGTH s).
    change (String.length "...(truncated)") with 14. lia.
  - lia.
Qed.

Lemma serialize_guarded (span : Span) (key : string) (v : value) (w : World) :
  exists w' t,
    try_catch (serialize_to host JSON_stringify span key v) (fun _ => ret tt) w
    = (Normal tt, w', t) /\
    capture_events span key t.
Proof.
  unfold try_catch, serialize_to, bind, lift, throw, lift, ret, span_setAttribute.
  destruct (JSON_stringify v) as [[s|]|e]; cbn [List.app].
  - eexists _, _. split; [reflexivity|]. right. exists (truncate s).
    split; [reflexivity | apply truncate_length].
  - eexists _, _. split; [reflexivity|]. now left.
  - eexists _, _. split; [reflexivity|]. now left.
Qed.

Lemma setInput_run (span : Span) (args : list value) (w : World) :
  exists w' t,
    setInput host JSON_stringify span args w = (Normal tt, w', t) /\
    capture_events span "gen_ai.entity.input" t.
Proof.
  unfold setInput. destruct args as [|arg [|arg' rest]].
  - exists w, []. split; [reflexivity | now left].
  - apply serialize_guarded.
  - apply serialize_guarded.
Qed.

Lemma setOutput_run (span : Span) (result : value) (w : World) :
  exists w' t,
    setOutput host JSON_stringify span result w = (Normal tt, w', t) /\
    capture_events span "gen_ai.entity.output" t.
Proof.
  unfold setOutput. destruct (is_undefined result || is_null result).
  - exists w, []. split; [reflexivity | now left].
  - apply serialize_guarded.
Qed.

(** X16. Capturing the input or the output of a traced function never
    fails: [setInput] and [setOutput] complete normally whatever
    [JSON.stringify] does, be it a throw or an [undefined] result. *)
Theorem capture_never_throws (span : Span) (args : list value) (result : value)
    (w : World) :
  fst (fst (setInput host JSON_stringify span args w)) = Normal tt /\
  fst (fst (setOutput host JSON_stringify span result w)) = Normal tt.
Proof.
  destruct (setInput_run span args w) as (w1 & t1 & E1 & _).
  destruct (setOutput_run span result w) as (w2 & t2 & E2 & _).
  rewrite E1, E2. now split.
Qed.

(** X17. What is captured is bounded: [setInput] and [setOutput] make at
    most one call on the span, a [setAttribute] of their own key with a
    string of at most [MAX_ATTRIBUTE_LENGTH + 14] characters; with no
    argument, or for an [undefined] or [null] result, they make none. *)
Theorem capture_bounded (span : Span) (args : list value) (result : value) (w : World) :
  capture_events span "gen_ai.entity.input"
    (snd (setInput host JSON_stringify span args w)) /\
  capture_events span "gen_ai.entity.output"
    (snd (setOutput host JSON_stringify span result w)) /\
  snd (setInput host JSON_stringify span [] w) = [] /\
  snd (setOutput host JSON_stringify span VUndefined w) = [] /\
  snd (setOutput host JSON_stringify span VNull w) = [].
Proof.
  destruct (setInput_run span args w) as (w1 & t1 & E1 & H1).
  destruct (setOutput_run span result w) as (w2 & t2 & E2 & H2).
  rewrite E1, E2. repeat split; assumption.
Qed.

Lemma setSpanAttributes_run (span : Span) (spanKind : string) (ver : option float)
    (args : list value) (w : World) :
  exists w' pre,
    setSpanAttributes host JSON_stringify span spanKind ver args w = (Normal tt, w', pre) /\
    opening_events span spanKind ver pre.
Proof.
  unfold setSpanAttributes, bind, span_setAttribute.
  destruct ver as [v|]; cbn [ret].
  - destruct (setInput_run span args
                (setAttribute host span "gen_ai.entity.version" (VNum v)
                   (setAttribute host span "gen_ai.operation.name" (VStr spanKind) w)))
      as (w1 & t1 & -> & H1).
    eexists _, _. split; [reflexivity|]. exists t1. split; [exact H1 | reflexivity].
  - destruct (setInput_run span args
                (setAttribute host span "gen_ai.operation.name" (VStr spanKind) w))
      as (w1 & t1 & -> & H1).
    eexists _, _. split; [reflexivity|]. exists t1. split; [exact H1 | reflexivity].
Qed.

(** The error handler: when the exception has a text, the span is marked
    and ended and the exception rethrown; when computing the text raises,
    that error leaves the handler at once. *)
Lemma fail_span_run (span : Span) (err : value) (w : World) :
  exists w' c post,
    fail_span host span err w = (c, w', post) /\
    settled span (Throw err) c post.
Proof.
  unfold fail_span, bind, span_setStatus, span_recordException, span_end, throw, lift.
  cbn [settled]. destruct (ToString err) as [message|conversion]; cbn.
  - eexists _, _, _. split; [reflexivity|]. now split.
  - eexists _, _, _. split; [reflexivity|]. now split.
Qed.

Lemma settle_run (span : Span) (outcome : Completion value) (w : World) :
  exists w' c post,
    settle host JSON_stringify span outcome w = (c, w', post) /\
    settled span outcome c post.
Proof.
  unfold settle, try_catch. destruct outcome as [resolved|err].
  - unfold bind.
    destruct (setOutput_run span resolved w) as (w1 & t1 & -> & H1).
    unfold span_end, ret. eexists _, _, _. split; [reflexivity|].
    split; [reflexivity|]. exists t1. split; [exact H1 | reflexivity].
  - unfold throw, lift.
    destruct (fail_span_run span err w) as (w1 & c & post & -> & Hs).
    exists w1, c, post. split; [|exact Hs]. now destruct c.
Qed.

(** A call of a wrapper, taken apart. *)
Lemma makeWrapper_inv (spanName : string) (fn : list value -> M World Span value)
    (spanKind : string) (options : option TraceOptions) (args : list value)
    (w w' : World) (c : Completion value) (t : list (Event Span)) :
  makeWrapper host JSON_stringify spanName fn spanKind options args w = (c, w', t) ->
  exists span w1 w2 called tf pre post,
    fn args w1 = (called, w2, tf) /\
    t = EvStartSpan TRACER_NAME spanName [] span :: pre ++ tf ++ post /\
    opening_events span spanKind (version_of options) pre /\
    closing span called c post.
Proof.
  unfold makeWrapper, startActiveSpan.
  destruct (startSpan host TRACER_NAME spanName [] w) as [span w0].
  unfold bind at 1.
  destruct (setSpanAttributes_run span spanKind (version_of options) args w0)
    as (w1 & pre & -> & Hpre).
  unfold try_catch, bind.
  destruct (fn args w1) as [[[result|err] w2] tf] eqn:Ef.
  - destruct (is_Promise result) eqn:Ep.
    + destruct result; try discriminate Ep. cbn. intros E. inversion E; subst.
      exists span, w1, w', (Normal VPromise), tf, pre, [].
      split; [exact Ef|]. split; [reflexivity|]. split; [exact Hpre|]. now split.
    + destruct (setOutput_run span result w2) as (w3 & t3 & -> & H3).
      cbn. intros E. inversion E; subst.
      exists span, w1, w2, (Normal result), tf, pre, (t3 ++ [EvSpanEnd span]).
      split; [exact Ef|]. split; [reflexivity|]. split; [exact Hpre|].
      assert (Hs : settled span (Normal result) (Normal result) (t3 ++ [EvSpanEnd span])).
      { split; [reflexivity|]. exists t3. now split. }
      destruct result; try exact Hs. discriminate Ep.
  - destruct (fail_span_run span err w2) as (w3 & c' & post & Efail & Hs).
    rewrite Efail. intros E.
    assert (c = c' /\ t = EvStartSpan TRACER_NAME spanName [] span :: pre ++ tf ++ post)
      as [-> ->].
    { destruct c'; inversion E; subst; now split. }
    exists span, w1, w2, (Throw err), tf, pre, post.
    split; [exact Ef|]. split; [reflexivity|]. split; [exact Hpre|]. exact Hs.
Qed.

Lemma capture_events_spans (span : Span) (key : string) (t : list (Event Span)) :
  capture_events span key t -> started_spans t = [] /\ ended_spans t = 0.
Proof. intros [->|(s & -> & _)]; now split. Qed.

Lemma opening_events_spans (span : Span) (spanKind : string) (ver : option float)
    (pre : list (Event Span)) :
  opening_events span spanKind ver pre -> started_spans pre = [] /\ ended_spans pre = 0.
Proof.
  intros (captured & Hc & ->). apply capture_events_spans in Hc. destruct Hc as [Hs He].
  destruct ver; cbn; unfold started_spans, ended_spans in *; cbn;
    rewrite ?Hs, ?He; now split.
Qed.

Lemma settled_spans (span : Span) (outcome c : Completion value)
    (post : list (Event Span)) :
  settled span outcome c post ->
  started_spans post = [] /\ ended_spans post = ended_on outcome.
Proof.
  destruct outcome as [r|err]; cbn [settled ended_on].
  - intros (_ & captured & Hc & ->). apply capture_events_spans in Hc.
    destruct Hc as [Hs He].
    rewrite started_spans_app, ended_spans_app, Hs, He. now split.
  - unfold renders. destruct (ToString err) as [message|conversion].
    + intros (_ & ->). now split.
    + intros (_ & ->). now split.
Qed.

Lemma closing_spans (span : Span) (called c : Completion value)
    (post : list (Event Span)) :
  closing span called c post ->
  started_spans post = [] /\ ended_spans post = ended_in_call called.
Proof.
  destruct called as [r|e]; [destruct r|]; cbn [closing ended_in_call]; intros H;
    try exact (settled_spans _ _ _ _ H).
  destruct H as (_ & ->). now split.
Qed.

(** X18. A wrapper calls the wrapped function once, on the same arguments,
    and owns one span.  Around that call it starts the span, sets the
    operation name, the version when there is one and the captured input.
    Afterwards: when the function returned a value that is not a promise,
    the wrapper captures the output, ends the span and returns the value;
    when the function returned a promise, it returns a promise and leaves
    the span open; when the function threw an exception whose text
    [String()] can compute, it sets the error status with that text, records
    the exception, ends the span and rethrows it; and when computing the
    text raises, that error is thrown in place of the exception and the
    span is not ended. *)
Theorem makeWrapper_span_lifecycle (spanName : string)
    (fn : list value -> M World Span value) (spanKind : string)
    (options : option TraceOptions) (args : list value)
    (w w' : World) (c : Completion value) (t : list (Event Span)) :
  makeWrapper host JSON_stringify spanName fn spanKind options args w = (c, w', t) ->
  exists span w1 w2 called tf pre post,
    fn args w1 = (called, w2, tf) /\
    t = EvStartSpan TRACER_NAME spanName [] span :: pre ++ tf ++ post /\
    opening_events span spanKind (version_of options) pre /\
    closing span called c post.
Proof. apply makeWrapper_inv. Qed.

(** X19. When the promise of an asynchronous function settles, the chained
    handlers pass a fulfilment value on after capturing it as output and
    ending the span; a rejection whose text [String()] can compute is
    recorded with the error status, the span is ended and the rejection is
    rethrown; when computing the text raises, that error replaces the
    rejection and the span is not ended.  The span is never ended twice. *)
Theorem settle_closes_span (span : Span) (outcome : Completion value) (w : World) :
  exists w' c post,
    settle host JSON_stringify span outcome w = (c, w', post) /\
    settled span outcome c post /\
    ended_spans post = ended_on outcome /\
    ended_spans post <= 1.
Proof.
  destruct (settle_run span outcome w) as (w' & c & post & E & Hpost).
  exists w', c, post. split; [exact E|]. split; [exact Hpost|].
  destruct (settled_spans _ _ _ _ Hpost) as [_ He]. split; [exact He|].
  rewrite He. unfold ended_on. destruct outcome as [r|err]; [lia|].
  destruct (renders err); lia.
Qed.

(** X20. Wrappers nest: a wrapper around a wrapper around [fn] calls [fn]
    once and starts the outer span, then the inner span, before anything
    [fn] starts.  When [fn] returns a promise the call returns a promise
    and ends neither span; when [fn] returns another value, or throws an
    exception whose text [String()] can compute, the call completes as [fn]
    does and ends both spans; when computing the text raises, the call
    throws that error and ends the outer span only. *)
Theorem makeWrapper_nested (outerName innerName : string)
    (fn : list value -> M World Span value) (outerKind innerKind : string)
    (outerOptions innerOptions : option TraceOptions) (args : list value)
    (w w' : World) (c : Completion value) (t : list (Event Span)) :
  makeWrapper host JSON_stringify outerName
    (makeWrapper host JSON_stringify innerName fn innerKind innerOptions)
    outerKind outerOptions args w = (c, w', t) ->
  exists w1 w2 called tf,
    fn args w1 = (called, w2, tf) /\
    started_spans t = outerName :: innerName :: started_spans tf /\
    match called with
    | Normal VPromise => c = called /\ ended_spans t = ended_spans tf
    | Normal _ => c = called /\ ended_spans t = ended_spans tf + 2
    | Throw err =>
        match ToString err with
        | Normal _ => c = called /\ ended_spans t = ended_spans tf + 2
        | Throw conversion =>
            c = Throw conversion /\ ended_spans t = ended_spans tf + 1
        end
    end.
Proof.
  intros E. apply makeWrapper_inv in E.
  destruct E as (span & w1 & w2 & ci & ti & pre & post & Ei & -> & Hpre & Hpost).
  apply makeWrapper_inv in Ei.
  destruct Ei as (span' & w3 & w4 & called & tf & pre' & post' & Ef & -> & Hpre' & Hpost').
  exists w3, w4, called, tf. split; [exact Ef|].
  apply opening_events_spans in Hpre, Hpre'.
  destruct Hpre as [Hs1 He1], Hpre' as [Hs2 He2].
  destruct (closing_spans _ _ _ _ Hpost) as [Hs3 He3].
  destruct (closing_spans _ _ _ _ Hpost') as [Hs4 He4].
  rewrite started_spans_start, ended_spans_start.
  rewrite !started_spans_app, !ended_spans_app.
  rewrite started_spans_start, ended_spans_start.
  rewrite !started_spans_app, !ended_spans_app.
  rewrite Hs1, Hs2, Hs3, Hs4, He1, He2, He3, He4. cbn [List.app].
  rewrite !app_nil_r. split; [reflexivity|].
  assert (Hvalue : forall r, is_Promise r = false ->
            closing span' (Normal r) ci post' -> closing span ci c post ->
            c = Normal r /\
            0 + (0 + (ended_spans tf + ended_in_call (Normal r)) + ended_in_call ci)
            = ended_spans tf + 2).
  { intros r Hr H1 H2.
    assert (Hci : ci = Normal r) by (destruct r; try discriminate Hr; apply H1).
    subst ci. assert (Hc : c = Normal r) by (destruct r; try discriminate Hr; apply H2).
    split; [exact Hc|]. destruct r; try discriminate Hr; cbn; lia. }
  destruct called as [r|err].
  - destruct r; try (apply Hvalue; [reflexivity | exact Hpost' | exact Hpost]).
    destruct Hpost' as (-> & _). destruct Hpost as (-> & _).
    split; [reflexivity|]. cbn. lia.
  - cbn [closing settled] in Hpost'. cbn [ended_in_call ended_on]. unfold renders.
    destruct (ToString err) as [message|conversion] eqn:Et.
    + destruct Hpost' as (-> & _). cbn [closing settled] in Hpost.
      rewrite Et in Hpost. destruct Hpost as (-> & _).
      split; [reflexivity|]. cbn [ended_in_call ended_on]. unfold renders.
      rewrite Et. lia.
    + destruct Hpost' as (-> & _). cbn [closing settled] in Hpost.
      pose proof (ToString_throw _ _ Et) as Hconv. subst conversion.
      cbn in Hpost. destruct Hpost as (-> & _).
      split; [reflexivity|]. cbn. lia.
Qed.

End DecoratorFacts.

Lemma example_crash_run :
  example_tool [VStr "crash"] tt = (Throw (VError "Error" "boom"), tt, example_crash_trace).
Proof. vm_compute. reflexivity. Defined.

Lemma example_workflow_run :
  example_workflow [VStr "2+2?"] tt = (Normal (VStr "4"), tt, example_workflow_trace).
Proof. vm_compute. reflexivity. Defined.

Lemma makeWrapper_span_lifecycle_witness :
  exists span w1 w2 called tf pre post,
    example_lookup [VStr "crash"] w1 = (called, w2, tf) /\
    example_crash_trace
    = EvStartSpan Decorators.TRACER_NAME "lookup" [] span :: pre ++ tf ++ post /\
    opening_events span Decorators.SPAN_KIND_TOOL (Some PrimFloat.one) pre /\
    closing (engine := example_engine) span called (Throw (VError "Error" "boom")) post.
Proof.
  exact (makeWrapper_span_lifecycle (engine := example_engine) example_host
           example_serializer "lookup" example_lookup Decorators.SPAN_KIND_TOOL
           (Some {| Decorators.version := Some PrimFloat.one |}) [VStr "crash"]
           tt tt _ _ example_crash_run).
Defined.

Lemma makeWrapper_nested_witness :
  exists w1 w2 called tf,
    example_lookup [VStr "2+2?"] w1 = (called, w2, tf) /\
    started_spans example_workflow_trace = "pipeline" :: "lookup" :: started_spans tf /\
    match called with
    | Normal VPromise =>
        Normal (VStr "4") = called /\
        ended_spans example_workflow_trace = ended_spans tf
    | Normal _ =>
        Normal (VStr "4") = called /\
        ended_spans example_workflow_trace = ended_spans tf + 2
    | Throw err =>
        match ToString (engine := example_engine) err with
        | Normal _ =>
            Normal (VStr "4") = called /\
            ended_spans example_workflow_trace = ended_spans tf + 2
        | Throw conversion =>
            Normal (VStr "4") = Throw conversion /\
            ended_spans example_workflow_trace = ended_spans tf + 1
        end
    end.
Proof.
  exact (makeWrapper_nested (engine := example_engine) example_host example_serializer
           "pipeline" "lookup" example_lookup
           Decorators.SPAN_KIND_WORKFLOW Decorators.SPAN_KIND_TOOL
           None (Some {| Decorators.version := Some PrimFloat.one |})
           [VStr "2+2?"] tt tt _ _ example_workflow_run).
Defined.

Example scenario_tool_crash :
  example_crash_trace
  = [EvStartSpan "opensearch-genai-sdk" "lookup" [] tt;
     EvSetAttribute tt "gen_ai.operation.name" (VStr "tool");
     EvSetAttribute tt "gen_ai.entity.version" (VNum PrimFloat.one);
     EvSetAttribute tt "gen_ai.entity.input"
       (VStr (String (ascii_of_nat 34) "crash" ++ String (ascii_of_nat 34) EmptyString));
     EvSetStatus tt "Error: boom";
     EvRecordException tt (VError "Error" "boom");
     EvSpanEnd tt].
Proof. vm_compute. reflexivity. Qed.

(** A wrapped function that throws [{toString: 1}]: the wrapper throws the
    conversion error in its place and leaves its span open. *)
Example scenario_unrenderable_exception :
  Decorators.traceTool (engine := example_engine) example_host example_serializer
    "lookup" (fun _ => lift (Throw unconvertible)) None [] tt
  = (Throw (TypeError "Cannot convert object to primitive value"), tt,
     [EvStartSpan "opensearch-genai-sdk" "lookup" [] tt;
      EvSetAttribute tt "gen_ai.operation.name" (VStr "tool")]).
Proof. vm_compute. reflexivity. Qed.
